(** * CROTP: the credential vault and the code engine

    A shallow embedding of the TypeScript sources of the CROTP
    authenticator (totp.ts, otpauth.ts, crypto.ts, db.ts and the vault
    bootstrap of main.ts), followed by the properties of its
    specification.

    Conventions of the embedding:
    - a JavaScript [number] that the code only uses as an integer
      (timestamps, steps, orders, the 32-bit results of the bitwise
      operators) is a [Z]; the wrap-around of the bitwise operators is
      written out ([JS.ToInt32], [JS.ToUint32]);
    - a [number] that may be fractional or not finite (the inputs of the
      normalizers) is a [JS.number];
    - a [Uint8Array] is a [list byte];
    - a string is a [string] of ASCII characters: [toUpperCase],
      [toLowerCase], [trim] and the class [\s] are the ECMAScript
      functions on that range; the Base32 decoder is also given over
      the 16-bit code units of ECMAScript ([Utf16]), upper-casing
      being a primitive of the platform there;
    - a [throw] is the [Err] case of [result];
    - the primitives of the platform (HMAC, AES-GCM, the URL parser,
      [decodeURIComponent], the random source and the clock) are
      parameters of the functions that call them; [Plain] gives
      instances of them to run the model, HMAC among them in full. *)

From Stdlib Require Import ZArith QArith Qround List String Ascii Lia Sorted Permutation.
From stdpp Require Import gmap strings list.
From coqutil Require Import Byte Z.BitOps.

Local Open Scope Z_scope.

(** ** Results of functions that may throw *)

Inductive exn :=
| Error (message : string)      (* [throw new Error(message)] *)
| URIError                      (* thrown by [decodeURIComponent] *)
| OperationError                (* WebCrypto: authentication of a ciphertext failed *)
| DataError                     (* WebCrypto: key material of a wrong length *)
| ConstraintError.              (* IndexedDB: [add] on a key that exists *)

Inductive result (A : Type) :=
| Ok (a : A)
| Err (e : exn).
Arguments Ok {A} a.
Arguments Err {A} e.

(** [result] is a monad; stdpp's [x ← r; k] is its bind. *)
#[global] Instance result_ret : MRet result := fun A a => Ok a.
#[global] Instance result_bind : MBind result := fun A B k r =>
  match r with
  | Ok a => k a
  | Err e => Err e
  end.

#[global] Instance byte_eq_dec : EqDecision byte.
Proof.
  intros a b. destruct (decide (byte.unsigned a = byte.unsigned b)) as [E | N].
  - left. exact (byte.unsigned_inj _ _ E).
  - right. intros ->. exact (N eq_refl).
Defined.

(** ** The JavaScript runtime *)

Module JS.

(** IEEE doubles, as far as the normalizers look at them. *)
Inductive number :=
| NaN
| PosInfinity
| NegInfinity
| Finite (q : Q).

Definition of_Z (z : Z) : number := Finite (inject_Z z).

(** The integer conversions behind [&], [|], [<<] and [>>>]. *)
Definition ToInt32 (z : Z) : Z := (z + 2 ^ 31) mod 2 ^ 32 - 2 ^ 31.
Definition ToUint32 (z : Z) : Z := z mod 2 ^ 32.

Definition and (a b : Z) : Z := ToInt32 (Z.land (ToInt32 a) (ToInt32 b)).
Definition or (a b : Z) : Z := ToInt32 (Z.lor (ToInt32 a) (ToInt32 b)).
Definition shl (a k : Z) : Z :=
  ToInt32 (Z.shiftl (ToInt32 a) (Z.land (ToUint32 k) 31)).
Definition shru (a k : Z) : Z :=
  Z.shiftr (ToUint32 a) (Z.land (ToUint32 k) 31).

(** [a[i]] on a typed array: [undefined] out of range, which every
    bitwise operator reads as 0. *)
Definition at_ (a : list byte) (i : Z) : Z :=
  if (0 <=? i) && (i <? Z.of_nat (length a))
  then byte.unsigned (nth (Z.to_nat i) a Byte.x00)
  else 0.

(** [a.subarray(b, e)] for [0 <= b <= e]. *)
Definition subarray (a : list byte) (b e : Z) : list byte :=
  firstn (Z.to_nat (e - b)) (skipn (Z.to_nat b) a).

(** *** Strings *)

(** The class [\s] and the characters removed by [trim], among the
    characters of ASCII; [Utf16.is_space] is the whole class. *)
Definition is_space (c : ascii) : bool :=
  let n := N_of_ascii c in
  ((9 <=? n) && (n <=? 13) || (n =? 32))%N.

(** The case mappings of the characters of ASCII. *)
Definition toUpperCase_char (c : ascii) : ascii :=
  let n := N_of_ascii c in
  if ((97 <=? n) && (n <=? 122))%N then ascii_of_N (n - 32) else c.

Definition toLowerCase_char (c : ascii) : ascii :=
  let n := N_of_ascii c in
  if ((65 <=? n) && (n <=? 90))%N then ascii_of_N (n + 32) else c.

Fixpoint map_chars (f : ascii -> ascii) (s : string) : string :=
  match s with
  | EmptyString => EmptyString
  | String c s' => String (f c) (map_chars f s')
  end.

Definition toUpperCase : string -> string := map_chars toUpperCase_char.
Definition toLowerCase : string -> string := map_chars toLowerCase_char.

Fixpoint filter_chars (keep : ascii -> bool) (s : string) : string :=
  match s with
  | EmptyString => EmptyString
  | String c s' =>
      if keep c then String c (filter_chars keep s') else filter_chars keep s'
  end.

Fixpoint dropWhile (p : ascii -> bool) (s : string) : string :=
  match s with
  | EmptyString => EmptyString
  | String c s' => if p c then dropWhile p s' else s
  end.

Fixpoint dropWhileEnd (p : ascii -> bool) (s : string) : string :=
  match s with
  | EmptyString => EmptyString
  | String c s' =>
      match dropWhileEnd p s' with
      | EmptyString => if p c then EmptyString else String c EmptyString
      | r => String c r
      end
  end.

Definition trim (s : string) : string :=
  dropWhileEnd is_space (dropWhile is_space s).

Definition len (s : string) : Z := Z.of_nat (String.length s).

Fixpoint indexOf_from (c : ascii) (s : string) (i : Z) : Z :=
  match s with
  | EmptyString => -1
  | String d s' => if Ascii.eqb d c then i else indexOf_from c s' (i + 1)
  end.

(** [s.indexOf(c)] for a one-character [c]. *)
Definition indexOf (s : string) (c : ascii) : Z := indexOf_from c s 0.

Fixpoint drop (n : nat) (s : string) : string :=
  match n, s with
  | O, _ => s
  | S n', String _ s' => drop n' s'
  | S _, EmptyString => EmptyString
  end.

Fixpoint take (n : nat) (s : string) : string :=
  match n, s with
  | S n', String c s' => String c (take n' s')
  | _, _ => EmptyString
  end.

(** [s.slice(b, e)]; a negative index counts from the end, and [e]
    defaults to the length. *)
Definition slice (s : string) (b : Z) (e : option Z) : string :=
  let n := len s in
  let clamp i := if i <? 0 then Z.max (n + i) 0 else Z.min i n in
  let from := clamp b in
  let to := clamp (match e with Some e => e | None => n end) in
  take (Z.to_nat (to - from)) (drop (Z.to_nat from) s).

Fixpoint repeat_char (c : ascii) (n : nat) : string :=
  match n with
  | O => EmptyString
  | S n' => String c (repeat_char c n')
  end.

(** [s.padStart(n, c)] for a one-character filler. *)
Definition padStart (s : string) (n : Z) (c : ascii) : string :=
  repeat_char c (Z.to_nat (n - len s)) +:+ s.

Definition digit_char (d : Z) : ascii := ascii_of_N (48 + Z.to_N d).

(** The decimal digits of [n >= 0], most significant first, in front
    of [acc]; one round per digit. *)
Fixpoint digits_loop (rounds : nat) (n : Z) (acc : string) : string :=
  match rounds with
  | O => acc
  | S r =>
      let acc' := String (digit_char (n mod 10)) acc in
      if n / 10 =? 0 then acc' else digits_loop r (n / 10) acc'
  end.

(** [n.toString()] for an integer [n] below [10^21] in absolute value:
    a number of [b] bits has at most [b] decimal digits. *)
Definition Number_toString (n : Z) : string :=
  let m := Z.abs n in
  let ds := digits_loop (S (Z.to_nat (Z.log2 m))) m EmptyString in
  if n <? 0 then String "-" ds else ds.

Definition is_digit (c : ascii) : bool :=
  let n := N_of_ascii c in ((48 <=? n) && (n <=? 57))%N.

Fixpoint digits_value (s : string) (acc : Z) : Z :=
  match s with
  | String c s' =>
      if is_digit c
      then digits_value s' (10 * acc + Z.of_N (N_of_ascii c - 48))
      else acc
  | EmptyString => acc
  end.

(** Doubles overflow to an infinity from [2^1024 - 2^970] on. *)
Definition of_integer (z : Z) : number :=
  if 2 ^ 1024 - 2 ^ 970 <=? z then PosInfinity
  else if z <=? - (2 ^ 1024 - 2 ^ 970) then NegInfinity
  else of_Z z.

(** [parseInt(s, 10)]: leading white space, an optional sign, then
    the longest run of decimal digits; [NaN] when there is none. *)
Definition parseInt (s : string) : number :=
  let t := dropWhile is_space s in
  let '(neg, u) :=
    match t with
    | String "-" u => (true, u)
    | String "+" u => (false, u)
    | _ => (false, t)
    end in
  match u with
  | String c _ =>
      if is_digit c
      then of_integer (if neg : bool then - digits_value u 0 else digits_value u 0)
      else NaN
  | EmptyString => NaN
  end.

(** [Math.max(x, ...xs)] *)
Definition Math_max (x : Z) (xs : list Z) : Z := fold_left Z.max xs x.

Fixpoint sort_insert {A} (cmp : A -> A -> Z) (x : A) (l : list A) : list A :=
  match l with
  | [] => [x]
  | y :: l' => if cmp x y <=? 0 then x :: l else y :: sort_insert cmp x l'
  end.

(** [a.sort(cmp)]: the sort of an array is stable, so for a consistent
    comparator its result is the one of this insertion sort. *)
Definition sort {A} (cmp : A -> A -> Z) (l : list A) : list A :=
  foldr (sort_insert cmp) [] l.

Definition hex_char (d : Z) : ascii :=
  if d <? 10 then ascii_of_N (48 + Z.to_N d) else ascii_of_N (87 + Z.to_N d).

(** [b.toString(16)] for a byte. *)
Definition byte_toString16 (b : byte) : string :=
  let n := byte.unsigned b in
  if n <? 16 then String (hex_char n) EmptyString
  else String (hex_char (n / 16)) (String (hex_char (n mod 16)) EmptyString).

Definition xor (a b : Z) : Z := ToInt32 (Z.lxor (ToInt32 a) (ToInt32 b)).

(** The strings on which the functions above are the ECMAScript ones:
    every character is below U+0080. *)
Definition is_ascii (s : string) : bool :=
  forallb (fun c => (N_of_ascii c <? 128)%N) (list_ascii_of_string s).

(** [a.findIndex(p)], [None] for -1. *)
Fixpoint findIndex {A} (p : A -> bool) (l : list A) : option nat :=
  match l with
  | [] => None
  | x :: l' => if p x then Some 0%nat else S <$> findIndex p l'
  end.

End JS.

(** ** Strings beyond ASCII

    A string of ECMAScript is a sequence of 16-bit code units. *)

Module Utf16.

(** The code units of an ASCII string. *)
Definition of_string (s : string) : list N :=
  map N_of_ascii (list_ascii_of_string s).

(** The class [\s]: the WhiteSpace and LineTerminator code points of
    ECMAScript, each of one code unit. *)
Definition is_space (c : N) : bool :=
  ((9 <=? c) && (c <=? 13) || (c =? 32) || (c =? 160) || (c =? 5760)
   || (8192 <=? c) && (c <=? 8202) || (c =? 8232) || (c =? 8233)
   || (c =? 8239) || (c =? 8287) || (c =? 12288) || (c =? 65279))%N.

Fixpoint dropWhileEnd (p : N -> bool) (s : list N) : list N :=
  match s with
  | [] => []
  | c :: s' =>
      match dropWhileEnd p s' with
      | [] => if p c then [] else [c]
      | r => c :: r
      end
  end.

(** What a function returns, or the message of the [Error] that it
    throws. *)
Inductive outcome (A : Type) :=
| Returns (a : A)
| Throws (message : list N).
Arguments Returns {A} a.
Arguments Throws {A} message.

(** A [result] of the ASCII model, its message in code units. *)
Definition of_result {A} (r : result A) : outcome A :=
  match r with
  | Ok a => Returns a
  | Err (Error message) => Throws (of_string message)
  | Err _ => Throws []
  end.

End Utf16.

(** ** totp.ts: the code engine *)

Module Totp.

Inductive TOTPHashAlg :=
| SHA1       (* 'SHA-1' *)
| SHA256.    (* 'SHA-256' *)

Definition alg_name (a : TOTPHashAlg) : string :=
  match a with
  | SHA1 => "SHA-1"
  | SHA256 => "SHA-256"
  end.

Definition normalizeAlg (alg : option string) : TOTPHashAlg :=
  match alg with
  | None => SHA1
  | Some "" => SHA1
  | Some a =>
      let up := JS.toUpperCase a in
      if String.eqb up "SHA1" || String.eqb up "SHA-1" then SHA1
      else if String.eqb up "SHA256" || String.eqb up "SHA-256" then SHA256
      else SHA1
  end.

Definition normalizeDigits (d : option JS.number) : Z :=
  match d with
  | Some (JS.Finite q) => if Qeq_bool q (inject_Z 8) then 8 else 6
  | _ => 6
  end.

Definition normalizePeriod (p : option JS.number) : Z :=
  let period :=
    match p with
    | Some (JS.Finite q) => Qfloor q
    | _ => 30
    end in
  Z.min 300 (Z.max 5 period).

(** [Math.floor(x / y)] on integers is the floor division of [Z], for a
    divisor other than 0; the periods of the callers come from
    [normalizePeriod]. *)
Definition stepAt (timestampMs period : Z) : Z :=
  let seconds := timestampMs / 1000 in
  seconds / period.

(** [%] is the remainder of the truncated division, [Z.rem]: its sign
    is the one of the dividend. *)
Definition secondsRemaining (timestampMs period : Z) : Z :=
  let seconds := timestampMs / 1000 in
  period - Z.rem seconds period - 1.

Fixpoint numberTo8ByteBE_loop (i : nat) (v : Z) (bytes : list byte) : list byte :=
  match i with
  | O => bytes
  | S i' =>
      numberTo8ByteBE_loop i' (Z.shiftr v 8) (byte.of_Z (Z.land v 255) :: bytes)
  end.

(** The loop fills the array from index 7 down to 0. *)
Definition numberTo8ByteBE (n : Z) : list byte :=
  numberTo8ByteBE_loop 8 n [].

Definition dynamicTruncate (hmacBytes : list byte) : Z :=
  let offset := JS.and (JS.at_ hmacBytes (Z.of_nat (length hmacBytes) - 1)) 15 in
  let p := JS.subarray hmacBytes offset (offset + 4) in
  let binCode :=
    JS.or (JS.or (JS.or (JS.shl (JS.and (JS.at_ p 0) 127) 24)
                        (JS.shl (JS.at_ p 1) 16))
                 (JS.shl (JS.at_ p 2) 8))
          (JS.at_ p 3) in
  binCode.

Definition padDigits (n digits : Z) : string :=
  let mod_ := if digits =? 8 then 100000000 else 1000000 in
  let code := Z.rem n mod_ in
  JS.padStart (JS.Number_toString code) digits "0".

Record TOTPOptions := {
  secret : list byte;
  period : option JS.number;
  digits : option JS.number;
  algorithm : option string;
  timestamp : option Z;
}.

Record TOTPWindow := {
  prev : string;
  current : string;
  next : string;
  remainingSeconds : Z;
  step : Z;
  w_period : Z;
  w_digits : Z;
  w_algorithm : TOTPHashAlg;
}.

Section WithHmac.

(** [hmac key data alg]: the HMAC of WebCrypto. *)
Variable hmac : list byte -> list byte -> TOTPHashAlg -> list byte.

(** The callers pass [digits] and [algorithm]; their defaults, 6 and
    SHA-1, are those of the normalizers. *)
Definition generateTOTPForStep
    (secret : list byte) (step digits : Z) (algorithm : TOTPHashAlg) : string :=
  let moving := numberTo8ByteBE step in
  let mac := hmac secret moving algorithm in
  let binCode := dynamicTruncate mac in
  padDigits binCode digits.

(** [now] is the value of [Date.now()]. *)
Definition generateTOTP (now : Z) (opts : TOTPOptions) : string :=
  let period := normalizePeriod (period opts) in
  let digits := normalizeDigits (digits opts) in
  let alg := normalizeAlg (algorithm opts) in
  let ts := match timestamp opts with Some t => t | None => now end in
  let step := stepAt ts period in
  generateTOTPForStep (secret opts) step digits alg.

Definition generateTOTPWindow (now : Z) (opts : TOTPOptions) : TOTPWindow :=
  let period := normalizePeriod (period opts) in
  let digits := normalizeDigits (digits opts) in
  let alg := normalizeAlg (algorithm opts) in
  let ts := match timestamp opts with Some t => t | None => now end in
  let step := stepAt ts period in
  {| prev := generateTOTPForStep (secret opts) (step - 1) digits alg;
     current := generateTOTPForStep (secret opts) step digits alg;
     next := generateTOTPForStep (secret opts) (step + 1) digits alg;
     remainingSeconds := secondsRemaining ts period;
     step := step;
     w_period := period;
     w_digits := digits;
     w_algorithm := alg |}.

End WithHmac.

(** The [crypto.subtle.importKey] of [hmac]: WebCrypto refuses an HMAC
    key of no byte with a [DataError], and the promise of every
    function of this module that signs then rejects with it. *)
Definition hmac_importKey (bytesKey : list byte) : result unit :=
  match bytesKey with
  | [] => Err DataError
  | _ :: _ => Ok ()
  end.

(** A code of 6 characters in two groups of 3, one of 8 in two groups
    of 4, any other string as it is. *)
Definition formatCodeGroupings (code : string) : string :=
  if JS.len code =? 6 then
    JS.slice code 0 (Some 3) +:+ " " +:+ JS.slice code 3 None
  else if JS.len code =? 8 then
    JS.slice code 0 (Some 4) +:+ " " +:+ JS.slice code 4 None
  else code.

End Totp.

(** ** otpauth.ts: otpauth URIs and Base32 *)

Module Otpauth.
Import Totp.

Record ParsedTOTPEntry := {
  label : string;
  issuer : option string;
  secretBytes : list byte;
  algorithm : TOTPHashAlg;
  digits : Z;
  period : Z;
}.

(** What the parser reads of a [URL] object; [searchParams] lists the
    decoded name/value pairs of the query in order. *)
Record URL := {
  protocol : string;
  hostname : string;
  pathname : string;
  searchParams : list (string * string);
}.

(** [params.get(name)]: the first value under [name], or [null]. *)
Fixpoint searchParams_get (params : list (string * string)) (name : string)
    : option string :=
  match params with
  | [] => None
  | (k, v) :: rest => if String.eqb k name then Some v else searchParams_get rest name
  end.

(** [s || undefined]: the empty string is falsy. *)
Definition nonempty (s : string) : option string :=
  match s with
  | EmptyString => None
  | _ => Some s
  end.

(** [o || undefined] for [o] a string or [null]. *)
Definition truthy (o : option string) : option string :=
  match o with
  | Some s => nonempty s
  | None => None
  end.

Definition splitLabel (labelRaw : string) : string * option string :=
  let cleaned := JS.trim labelRaw in
  let idx := JS.indexOf cleaned ":" in
  if 0 <? idx then
    let issuer := JS.trim (JS.slice cleaned 0 (Some idx)) in
    let account := JS.trim (JS.slice cleaned (idx + 1) None) in
    (match account with EmptyString => cleaned | _ => account end, nonempty issuer)
  else (cleaned, None).

Definition alphabet : string := "ABCDEFGHIJKLMNOPQRSTUVWXYZ234567".

Fixpoint lookup_fill (s : string) (i : Z) (m : gmap ascii Z) : gmap ascii Z :=
  match s with
  | EmptyString => m
  | String c s' => lookup_fill s' (i + 1) (<[c := i]> m)
  end.

(** The [Map] from each symbol of the alphabet to its index. *)
Definition lookup : gmap ascii Z := lookup_fill alphabet 0 ∅.

Definition invalid_character (ch : ascii) : exn :=
  Error ("Invalid Base32 character: " +:+ String ch EmptyString).

Fixpoint decode_loop (cleaned : string) (bits value : Z) (out : list byte)
    : result (list byte) :=
  match cleaned with
  | EmptyString => Ok out
  | String ch rest =>
      match lookup !! ch with
      | None => Err (invalid_character ch)
      | Some v =>
          let value := JS.or (JS.shl value 5) v in
          let bits := bits + 5 in
          if 8 <=? bits then
            let bits := bits - 8 in
            let byte := JS.and (JS.shru value bits) 255 in
            decode_loop rest bits value (out ++ [byte.of_Z byte])
          else decode_loop rest bits value out
      end
  end.

(** [input.replace(/\s+/g, '').replace(/=+$/g, '')] *)
Definition strip (input : string) : string :=
  JS.dropWhileEnd (Ascii.eqb "=")
    (JS.filter_chars (fun c => negb (JS.is_space c)) input).

Definition base32DecodeToBytes (input : string) : result (list byte) :=
  let cleaned := JS.toUpperCase (strip input) in
  if JS.len cleaned =? 0 then Ok []
  else decode_loop cleaned 0 0 [].

(** The decoder over code units.  [toUpperCase] is
    [String.prototype.toUpperCase], which follows the case mappings of
    Unicode and may give several code units for one. *)
Fixpoint lookup_fill_utf16 (s : list N) (i : Z) (m : gmap N Z) : gmap N Z :=
  match s with
  | [] => m
  | c :: s' => lookup_fill_utf16 s' (i + 1) (<[c := i]> m)
  end.

Definition lookup_utf16 : gmap N Z :=
  lookup_fill_utf16 (Utf16.of_string alphabet) 0 ∅.

Definition invalid_character_utf16 (ch : N) : list N :=
  Utf16.of_string "Invalid Base32 character: " ++ [ch].

Fixpoint decode_loop_utf16 (cleaned : list N) (bits value : Z) (out : list byte)
    : Utf16.outcome (list byte) :=
  match cleaned with
  | [] => Utf16.Returns out
  | ch :: rest =>
      match lookup_utf16 !! ch with
      | None => Utf16.Throws (invalid_character_utf16 ch)
      | Some v =>
          let value := JS.or (JS.shl value 5) v in
          let bits := bits + 5 in
          if 8 <=? bits then
            let bits := bits - 8 in
            let byte := JS.and (JS.shru value bits) 255 in
            decode_loop_utf16 rest bits value (out ++ [byte.of_Z byte])
          else decode_loop_utf16 rest bits value out
      end
  end.

Definition strip_utf16 (input : list N) : list N :=
  Utf16.dropWhileEnd (N.eqb 61)
    (List.filter (fun c => negb (Utf16.is_space c)) input).

Section Unicode.

Variable toUpperCase : list N -> list N.

Definition base32DecodeToBytes_utf16 (input : list N) : Utf16.outcome (list byte) :=
  let cleaned := toUpperCase (strip_utf16 input) in
  if Z.of_nat (length cleaned) =? 0 then Utf16.Returns []
  else decode_loop_utf16 cleaned 0 0 [].

End Unicode.

Definition fromManualInput
    (label : string) (issuer : option string) (secretBase32 : string)
    (algorithmInput : option string) (digitsInput periodInput : option JS.number)
    : result ParsedTOTPEntry :=
  let algorithm := normalizeAlg algorithmInput in
  let digits := normalizeDigits digitsInput in
  let period := normalizePeriod periodInput in
  secretBytes ← base32DecodeToBytes secretBase32;
  Ok {| label := JS.trim label;
        issuer := truthy (JS.trim <$> issuer);
        secretBytes := secretBytes;
        algorithm := algorithm;
        digits := digits;
        period := period |}.

Definition malformed_url : exn := Error "Invalid otpauth URI: malformed URL".
Definition bad_protocol : exn := Error "Invalid otpauth URI: protocol must be otpauth".
Definition unsupported_type : exn := Error "Only TOTP is supported".
Definition missing_secret : exn := Error "Missing secret parameter".

Section WithPlatform.

(** [new URL(s)]; [None] when the constructor throws. *)
Variable URL_new : string -> option URL.
(** [decodeURIComponent(s)]; [None] when it throws [URIError]. *)
Variable decodeURIComponent : string -> option string.

Definition parseOtpauthUri (uri : string) : result ParsedTOTPEntry :=
  let raw := JS.trim uri in
  match URL_new raw with
  | None => Err malformed_url
  | Some url =>
      if negb (String.eqb (protocol url) "otpauth:") then Err bad_protocol
      else
        let type := JS.toLowerCase (hostname url) in
        if negb (String.eqb type "totp") then Err unsupported_type
        else
          match decodeURIComponent (JS.dropWhile (Ascii.eqb "/") (pathname url)) with
          | None => Err URIError
          | Some labelRaw =>
              let '(label, issuerFromLabel) := splitLabel labelRaw in
              let params := searchParams url in
              match truthy (searchParams_get params "secret") with
              | None => Err missing_secret
              | Some secretParam =>
                  let algorithmParam := truthy (searchParams_get params "algorithm") in
                  let digitsParam := searchParams_get params "digits" in
                  let periodParam := searchParams_get params "period" in
                  let issuerParam := truthy (searchParams_get params "issuer") in
                  let algorithm := normalizeAlg algorithmParam in
                  let digits := normalizeDigits (JS.parseInt <$> truthy digitsParam) in
                  let period := normalizePeriod (JS.parseInt <$> truthy periodParam) in
                  secretBytes ← base32DecodeToBytes secretParam;
                  Ok {| label := label;
                        issuer := match issuerParam with
                                  | Some i => Some i
                                  | None => issuerFromLabel
                                  end;
                        secretBytes := secretBytes;
                        algorithm := algorithm;
                        digits := digits;
                        period := period |}
              end
          end
  end.

End WithPlatform.

End Otpauth.

(** ** crypto.ts: authenticated encryption *)

Module Crypto.

Definition IV_BYTES : Z := 12.

(** A [CryptoKey] for AES-GCM, by its raw bytes. *)
Definition CryptoKey := list byte.

Section WithCipher.

(** AES-GCM of WebCrypto: [encrypt key iv plaintext] and
    [decrypt key iv ciphertext], the latter [None] when the
    ciphertext does not authenticate. *)
Variable aes_gcm_encrypt : CryptoKey -> list byte -> list byte -> list byte.
Variable aes_gcm_decrypt : CryptoKey -> list byte -> list byte -> option (list byte).

(** [iv] is the output of [randomBytes(IV_BYTES)]. *)
Definition encryptAESGCM (iv : list byte) (key : CryptoKey) (plaintext : list byte)
    : list byte * list byte :=
  let ct := aes_gcm_encrypt key iv plaintext in
  (ct, iv).

Definition decryptAESGCM (key : CryptoKey) (iv ciphertext : list byte)
    : result (list byte) :=
  match aes_gcm_decrypt key iv ciphertext with
  | Some pt => Ok pt
  | None => Err OperationError
  end.

End WithCipher.

(** The loop ors into [diff] the exclusive or of the bytes at every
    index below [a.byteLength]. *)
Definition timingSafeEqual (a b : list byte) : bool :=
  if negb (Z.of_nat (length a) =? Z.of_nat (length b)) then false
  else
    let diff :=
      fold_left (fun diff i => JS.or diff (JS.xor (JS.at_ a i) (JS.at_ b i)))
                (map Z.of_nat (seq 0 (length a))) 0 in
    diff =? 0.

End Crypto.

(** ** db.ts: the vault store *)

Module Db.
Import Totp.

Record DBSecretRecord := {
  id : string;
  label : string;
  issuer : option string;
  alg : TOTPHashAlg;
  digits : Z;
  period : Z;
  encSecret : list byte;
  iv : list byte;
  createdAt : Z;
  updatedAt : Z;
  order : Z;
}.

Inductive MetaValue :=
| Buffer (b : list byte)
| Num (n : Z).

(** The database: the object store [secrets], whose records IndexedDB
    keeps and returns in ascending order of their key [id], and the
    store [meta]. *)
Record DB := {
  secrets : list DBSecretRecord;
  meta : gmap string MetaValue;
}.

(** The database that [openDB] creates on first use. *)
Definition fresh : DB :=
  {| secrets := []; meta := {[ "schemaVersion" := Num 1 ]} |}.

Fixpoint store_get (key : string) (s : list DBSecretRecord) : option DBSecretRecord :=
  match s with
  | [] => None
  | r :: s' => if String.eqb (id r) key then Some r else store_get key s'
  end.

Fixpoint store_put (rec : DBSecretRecord) (s : list DBSecretRecord)
    : list DBSecretRecord :=
  match s with
  | [] => [rec]
  | r :: s' =>
      match String.compare (id rec) (id r) with
      | Lt => rec :: r :: s'
      | Eq => rec :: s'
      | Gt => r :: store_put rec s'
      end
  end.

Definition store_add (rec : DBSecretRecord) (s : list DBSecretRecord)
    : result (list DBSecretRecord) :=
  match store_get (id rec) s with
  | Some _ => Err ConstraintError
  | None => Ok (store_put rec s)
  end.

Definition store_delete (key : string) (s : list DBSecretRecord)
    : list DBSecretRecord :=
  filter (fun r => negb (String.eqb (id r) key)) s.

Definition set_secrets (db : DB) (s : list DBSecretRecord) : DB :=
  {| secrets := s; meta := meta db |}.

Definition metaGet (key : string) (db : DB) : option MetaValue := meta db !! key.

Definition metaPut (key : string) (value : MetaValue) (db : DB) : DB :=
  {| secrets := secrets db; meta := <[key := value]> (meta db) |}.

(** [bytes] is the output of [crypto.getRandomValues] on 16 bytes. *)
Definition generateId (bytes : list byte) : string :=
  fold_right (fun b acc => JS.padStart (JS.byte_toString16 b) 2 "0" +:+ acc)
    EmptyString bytes.

Definition listSecrets (db : DB) : list DBSecretRecord :=
  JS.sort (fun a b => order a - order b) (secrets db).

Definition getSecret (key : string) (db : DB) : option DBSecretRecord :=
  store_get key (secrets db).

Record NewSecretInput := {
  n_label : string;
  n_issuer : option string;
  n_alg : TOTPHashAlg;
  n_digits : Z;
  n_period : Z;
  n_encSecret : list byte;
  n_iv : list byte;
}.

(** [now] is [Date.now()] and [rnd] the random bytes of [generateId]. *)
Definition addSecret (now : Z) (rnd : list byte) (input : NewSecretInput) (db : DB)
    : DB * result DBSecretRecord :=
  let current := listSecrets db in
  let nextOrder :=
    match current with
    | [] => 1
    | s :: rest => JS.Math_max (order s) (map order rest) + 1
    end in
  let record :=
    {| id := generateId rnd;
       label := JS.trim (n_label input);
       issuer := Otpauth.truthy (JS.trim <$> n_issuer input);
       alg := n_alg input;
       digits := n_digits input;
       period := n_period input;
       encSecret := n_encSecret input;
       iv := n_iv input;
       createdAt := now;
       updatedAt := now;
       order := nextOrder |} in
  match store_add record (secrets db) with
  | Ok s => (set_secrets db s, Ok record)
  | Err e => (db, Err e)
  end.

Record UpdateSecretInput := {
  u_id : string;
  u_label : option string;
  u_issuer : option string;
  u_alg : option TOTPHashAlg;
  u_digits : option Z;
  u_period : option Z;
  u_encSecret : option (list byte);
  u_iv : option (list byte);
  u_order : option Z;
}.

Definition not_found : exn := Error "Secret not found".

Definition updateSecret (now : Z) (input : UpdateSecretInput) (db : DB)
    : DB * result DBSecretRecord :=
  match getSecret (u_id input) db with
  | None => (db, Err not_found)
  | Some existing =>
      let updated :=
        {| id := id existing;
           label := match u_label input with
                    | Some l => JS.trim l
                    | None => label existing
                    end;
           issuer := match u_issuer input with
                     | Some i => Otpauth.nonempty (JS.trim i)
                     | None => issuer existing
                     end;
           alg := default (alg existing) (u_alg input);
           digits := default (digits existing) (u_digits input);
           period := default (period existing) (u_period input);
           encSecret := default (encSecret existing) (u_encSecret input);
           iv := default (iv existing) (u_iv input);
           createdAt := createdAt existing;
           updatedAt := now;
           order := default (order existing) (u_order input) |} in
      (set_secrets db (store_put updated (secrets db)), Ok updated)
  end.

Definition deleteSecret (key : string) (db : DB) : DB :=
  set_secrets db (store_delete key (secrets db)).

Definition set_order (rec : DBSecretRecord) (o now : Z) : DBSecretRecord :=
  {| id := id rec; label := label rec; issuer := issuer rec; alg := alg rec;
     digits := digits rec; period := period rec; encSecret := encSecret rec;
     iv := iv rec; createdAt := createdAt rec;
     updatedAt := now; order := o |}.

(** One [get] and, when the record exists, one [put] per pair, all in
    one transaction; a pair whose record is missing is skipped.  The
    clock is read once per written record: [now i] is the reading for
    the pair of index [i]. *)
Fixpoint reorder_loop (now : nat -> Z) (i : nat) (newOrder : list (string * Z))
    (s : list DBSecretRecord) : list DBSecretRecord :=
  match newOrder with
  | [] => s
  | (key, o) :: rest =>
      let s' :=
        match store_get key s with
        | Some rec => store_put (set_order rec o (now i)) s
        | None => s
        end in
      reorder_loop now (S i) rest s'
  end.

Definition reorderSecrets (now : nat -> Z) (newOrder : list (string * Z)) (db : DB)
    : DB :=
  match newOrder with
  | [] => db
  | _ => set_secrets db (reorder_loop now 0 newOrder (secrets db))
  end.

Definition clearAll (db : DB) : DB := {| secrets := []; meta := ∅ |}.

(** IndexedDB keeps the records of an object store in ascending order
    of their key, here [id]; no two records share a key. *)
Definition key_order (s : list DBSecretRecord) : Prop :=
  StronglySorted (fun a b => String.compare (id a) (id b) = Lt) s.

End Db.

(** ** main.ts: the session and the vault bootstrap *)

Module Main.
Import Totp.

Record DecryptedEntry := {
  id : string;
  label : string;
  issuer : option string;
  alg : TOTPHashAlg;
  digits : Z;
  period : Z;
  secretBytes : list byte;
}.

(** The module-level state ([sessionKey], [decryptedCache],
    [tickTimer]) together with the database. *)
Record App := {
  sessionKey : option Crypto.CryptoKey;
  decryptedCache : gmap string DecryptedEntry;
  tickTimer : bool;
  db : Db.DB;
}.

Definition boot (d : Db.DB) : App :=
  {| sessionKey := None; decryptedCache := ∅; tickTimer := false; db := d |}.

Definition set_sessionKey (a : App) (k : option Crypto.CryptoKey) : App :=
  {| sessionKey := k; decryptedCache := decryptedCache a;
     tickTimer := tickTimer a; db := db a |}.
Definition set_decryptedCache (a : App) (c : gmap string DecryptedEntry) : App :=
  {| sessionKey := sessionKey a; decryptedCache := c;
     tickTimer := tickTimer a; db := db a |}.
Definition set_tickTimer (a : App) (t : bool) : App :=
  {| sessionKey := sessionKey a; decryptedCache := decryptedCache a;
     tickTimer := t; db := db a |}.
Definition set_db (a : App) (d : Db.DB) : App :=
  {| sessionKey := sessionKey a; decryptedCache := decryptedCache a;
     tickTimer := tickTimer a; db := d |}.

(** [crypto.subtle.importKey('raw', bytes, {name: 'AES-GCM'}, ...)]
    accepts keys of 128, 192 and 256 bits. *)
Definition importKey (keyBytes : list byte) : result Crypto.CryptoKey :=
  let n := Z.of_nat (length keyBytes) in
  if (n =? 16) || (n =? 24) || (n =? 32) then Ok keyBytes else Err DataError.

(** [new Uint8Array(v)] for a value of the meta store. *)
Definition Uint8Array_of (v : Db.MetaValue) : list byte :=
  match v with
  | Db.Buffer b => b
  | Db.Num n => repeat Byte.x00 (Z.to_nat n)
  end.

Definition meta_truthy (v : Db.MetaValue) : bool :=
  match v with
  | Db.Buffer _ => true
  | Db.Num n => negb (n =? 0)
  end.

(** [rnd] is the output of [crypto.getRandomValues] on 32 bytes. *)
Definition ensureSessionKey (rnd : list byte) (a : App) : App * result unit :=
  match sessionKey a with
  | Some _ => (a, Ok ())
  | None =>
      let existing := Db.metaGet "appKey" (db a) in
      let '(keyBytes, a1) :=
        match existing with
        | Some v =>
            if meta_truthy v then (Uint8Array_of v, a)
            else (rnd, set_db a (Db.metaPut "appKey" (Db.Buffer rnd) (db a)))
        | None => (rnd, set_db a (Db.metaPut "appKey" (Db.Buffer rnd) (db a)))
        end in
      match importKey keyBytes with
      | Ok k => (set_sessionKey a1 (Some k), Ok ())
      | Err e => (a1, Err e)
      end
  end.

Definition entry_of (r : Db.DBSecretRecord) (secretBytes : list byte) : DecryptedEntry :=
  {| id := Db.id r;
     label := Db.label r;
     issuer := Db.issuer r;
     alg := Db.alg r;
     digits := Db.digits r;
     period := Db.period r;
     secretBytes := secretBytes |}.

Section WithHmac.

Variable hmac : list byte -> list byte -> TOTPHashAlg -> list byte.

(** The window that [refreshList] and [updateCodes] ask for an entry,
    [now] being the reading of the clock that they pass. *)
Definition windowData (now : Z) (e : DecryptedEntry) : TOTPWindow :=
  generateTOTPWindow hmac now
    {| Totp.secret := secretBytes e;
       Totp.period := Some (JS.of_Z (period e));
       Totp.digits := Some (JS.of_Z (digits e));
       Totp.algorithm := Some (alg_name (alg e));
       Totp.timestamp := Some now |}.

(** [await generateTOTPWindow(...)] for an entry: the promise rejects
    when the key of the entry cannot be imported. *)
Definition awaitWindow (now : Z) (e : DecryptedEntry) : result TOTPWindow :=
  match hmac_importKey (secretBytes e) with
  | Err err => Err err
  | Ok _ => Ok (windowData now e)
  end.

(** The [Promise.all] of [refreshList] over the cards: it rejects as
    soon as the window of one entry does, and the only reason of such
    a rejection is the [DataError] of the import.  The clock is read
    once per card: [now i] is the reading for the card of index [i]. *)
Fixpoint cards (now : nat -> Z) (i : nat) (all : list DecryptedEntry)
    : result (list (DecryptedEntry * TOTPWindow)) :=
  match all with
  | [] => Ok []
  | e :: rest =>
      w ← awaitWindow (now i) e;
      cs ← cards now (S i) rest;
      Ok ((e, w) :: cs)
  end.

(** [refreshList]: in the order of [listSecrets], the records that have
    an entry in the cache, each with its window.  [Ok] holds what is
    then drawn; on [Err] the list is left as it was drawn before. *)
Definition refreshList (now : nat -> Z) (a : App)
    : result (list (DecryptedEntry * TOTPWindow)) :=
  let orderRecords := Db.listSecrets (db a) in
  let all := omap (fun r => decryptedCache a !! Db.id r) orderRecords in
  cards now 0 all.

End WithHmac.

Section WithCipher.

Variable hmac : list byte -> list byte -> TOTPHashAlg -> list byte.
Variable aes_gcm_encrypt :
  Crypto.CryptoKey -> list byte -> list byte -> list byte.
Variable aes_gcm_decrypt :
  Crypto.CryptoKey -> list byte -> list byte -> option (list byte).

(** The [for (const r of records)] loop of [unlock]: the cache it
    has filled so far is what an exception leaves behind. *)
Fixpoint unlock_loop (key : Crypto.CryptoKey) (records : list Db.DBSecretRecord)
    (cache : gmap string DecryptedEntry)
    : gmap string DecryptedEntry * result unit :=
  match records with
  | [] => (cache, Ok ())
  | r :: rest =>
      match Crypto.decryptAESGCM aes_gcm_decrypt key (Db.iv r) (Db.encSecret r) with
      | Err e => (cache, Err e)
      | Ok secretBytes =>
          unlock_loop key rest (<[Db.id r := entry_of r secretBytes]> cache)
      end
  end.

(** [startTicker] arms the timer and [stopTicker] clears it. *)
Definition startTicker (a : App) : App := set_tickTimer a true.
Definition stopTicker (a : App) : App := set_tickTimer a false.

(** [clock] holds the readings of the clock of [refreshList]. *)
Definition unlock (rnd : list byte) (clock : nat -> Z) (a : App) : App * result unit :=
  match ensureSessionKey rnd a with
  | (a1, Err e) => (a1, Err e)
  | (a1, Ok _) =>
      match sessionKey a1 with
      | None => (a1, Err (Error "sessionKey is null"))
      | Some key =>
          let records := Db.listSecrets (db a1) in
          match unlock_loop key records ∅ with
          | (cache, Err e) => (set_decryptedCache a1 cache, Err e)
          | (cache, Ok _) =>
              let a2 := set_decryptedCache a1 cache in
              match refreshList hmac clock a2 with
              | Err e => (a2, Err e)
              | Ok _ => (startTicker a2, Ok ())
              end
          end
      end
  end.

Definition load_failed : string :=
  "Failed to load encrypted data. UI loaded without codes.".

(** The bootstrap of [init]: a failure of [unlock] is caught and
    announced, the list is drawn over what the cache holds and the
    ticker started; a failure of that [refreshList] is not caught.
    The result holds the application, the announcement if there is
    one, and the outcome of [init] itself.  [clock'] holds the readings
    of the clock of the [refreshList] of the handler. *)
Definition init (rnd : list byte) (clock clock' : nat -> Z) (a : App)
    : App * option string * result unit :=
  match unlock rnd clock a with
  | (a1, Ok _) => (a1, None, Ok ())
  | (a1, Err _) =>
      match refreshList hmac clock' a1 with
      | Err e => (a1, Some load_failed, Err e)
      | Ok _ => (startTicker a1, Some load_failed, Ok ())
      end
  end.

(** [iv] is the fresh nonce, [rnd] the random bytes of the key, should
    one have to be made, [idrnd] those of the record id. *)
Definition storeEntry (now : Z) (rnd iv idrnd : list byte)
    (entry : Otpauth.ParsedTOTPEntry) (a : App) : App * result unit :=
  match (match sessionKey a with
         | Some _ => (a, Ok ())
         | None => ensureSessionKey rnd a
         end) with
  | (a1, Err e) => (a1, Err e)
  | (a1, Ok _) =>
      match sessionKey a1 with
      | None => (a1, Err (Error "sessionKey is null"))
      | Some key =>
          let '(ciphertext, iv) :=
            Crypto.encryptAESGCM aes_gcm_encrypt iv key (Otpauth.secretBytes entry) in
          let input :=
            {| Db.n_label := Otpauth.label entry;
               Db.n_issuer := Otpauth.issuer entry;
               Db.n_alg := Otpauth.algorithm entry;
               Db.n_digits := Otpauth.digits entry;
               Db.n_period := Otpauth.period entry;
               Db.n_encSecret := ciphertext;
               Db.n_iv := iv |} in
          match Db.addSecret now idrnd input (db a1) with
          | (d, Err e) => (set_db a1 d, Err e)
          | (d, Ok rec) =>
              (set_decryptedCache (set_db a1 d)
                 (<[Db.id rec := entry_of rec (Otpauth.secretBytes entry)]>
                    (decryptedCache a1)),
               Ok ())
          end
      end
  end.

End WithCipher.

Inductive direction :=
| up
| down.

(** The handler of the buttons Up and Down: the record under [key]
    exchanges its order with its neighbour in the list, and the batch
    handed to [reorderSecrets] names every record. *)
Definition moveSecret (now : nat -> Z) (key : string) (dir : direction) (d : Db.DB)
    : Db.DB :=
  let records := Db.listSecrets d in
  match JS.findIndex (fun r => String.eqb (Db.id r) key) records with
  | None => d
  | Some idx =>
      match dir, idx with
      | up, O => d
      | _, _ =>
          if match dir with
             | down => (idx =? length records - 1)%nat
             | up => false
             end
          then d
          else
            let swapIdx := match dir with
                           | down => (idx + 1)%nat
                           | up => (idx - 1)%nat
                           end in
            let newOrder := map (fun r => (Db.id r, Db.order r)) records in
            let tmp := default 0 (snd <$> newOrder !! idx) in
            let newOrder :=
              alter (fun p => (fst p, default 0 (snd <$> newOrder !! swapIdx))) idx newOrder in
            let newOrder := alter (fun p => (fst p, tmp)) swapIdx newOrder in
            Db.reorderSecrets now newOrder d
      end
  end.

(** The handler of the button Delete, once confirmed: the record leaves
    the store, and its entry the cache. *)
Definition deleteEntry (key : string) (a : App) : App :=
  let a1 := set_db a (Db.deleteSecret key (db a)) in
  set_decryptedCache a1 (delete key (decryptedCache a1)).

End Main.

(** ** RFC 4226 §5.3, as the specification words it

    The reference against which [Totp.generateTOTPForStep] is checked:
    arithmetic on naturals written positionally, no bitwise operator. *)

Module Rfc4226.

(** The bytes of a digest: 20 for SHA-1, 32 for SHA-256. *)
Definition digest_length (alg : Totp.TOTPHashAlg) : nat :=
  match alg with
  | Totp.SHA1 => 20%nat
  | Totp.SHA256 => 32%nat
  end.

(** The 8-byte big-endian encoding of a 64-bit counter: byte [i] is
    the digit of weight [256^(7-i)]. *)
Definition counter_bytes (step : Z) : list byte :=
  map (fun i => byte.of_Z (step / 256 ^ (7 - Z.of_nat i))) (seq 0 8).

(** The low-order 4 bits of the final byte of the hash. *)
Definition offset (hash : list byte) : Z :=
  byte.unsigned (List.last hash Byte.x00) mod 16.

(** A big-endian number from its bytes. *)
Definition big_endian (bs : list byte) : Z :=
  fold_left (fun acc b => 256 * acc + byte.unsigned b) bs 0.

(** Four bytes from the offset as a big-endian 32-bit value, the top
    bit forced to zero. *)
Definition truncate (hash : list byte) : Z :=
  big_endian (firstn 4 (skipn (Z.to_nat (offset hash)) hash)) mod 2 ^ 31.

(** The decimal representation of [n] on exactly [width] characters,
    zeros on the left: the character of index [i] is the digit of
    weight [10^(width-1-i)]. *)
Definition zero_padded (width : nat) (n : Z) : string :=
  string_of_list_ascii
    (map (fun i => ascii_of_N (48 + Z.to_N (n / 10 ^ Z.of_nat (width - 1 - i) mod 10)))
         (seq 0 width)).

Section WithHmac.

Variable hmac : list byte -> list byte -> Totp.TOTPHashAlg -> list byte.

Definition code (secret : list byte) (step digits : Z) (alg : Totp.TOTPHashAlg)
    : string :=
  let hash := hmac secret (counter_bytes step) alg in
  zero_padded (Z.to_nat digits) (truncate hash mod 10 ^ digits).

End WithHmac.

End Rfc4226.

(** ** RFC 4648, as the specification words it *)

Module Rfc4648.

(** A symbol of the Base32 alphabet, in either case: a letter or one
    of the digits 2 to 7. *)
Definition symbol (c : ascii) : bool :=
  let n := N_of_ascii c in
  ((65 <=? n) && (n <=? 90) || (97 <=? n) && (n <=? 122)
   || (50 <=? n) && (n <=? 55))%N.

(** The value of a symbol: the letters stand for 0 to 25, the digits
    2 to 7 for 26 to 31. *)
Definition index (c : ascii) : Z :=
  let n := Z.of_N (N_of_ascii c) in
  if n <? 65 then n - 24 else if n <? 97 then n - 65 else n - 97.

(** The number that a text of symbols writes in base 32, its most
    significant symbol first, on top of [acc]. *)
Definition number_from (acc : Z) (s : string) : Z :=
  fold_left (fun acc c => 32 * acc + index c) (list_ascii_of_string s) acc.

Definition number : string -> Z := number_from 0.

End Rfc4648.

(** ** The label of an otpauth URI, as the specification words it *)

Module OtpauthSpec.

(** From the decoded path: the text before the first colon, trimmed,
    is the candidate issuer and the remainder, trimmed, the label;
    the whole trimmed path stays the label when the candidate is
    empty, and also when the remainder is. *)
Definition label_of_path (path : string) : string * option string :=
  let i := JS.indexOf path ":" in
  let candidate := JS.trim (JS.slice path 0 (Some i)) in
  let remainder := JS.trim (JS.slice path (i + 1) None) in
  match candidate with
  | EmptyString => (JS.trim path, None)
  | _ => (match remainder with
          | EmptyString => JS.trim path
          | _ => remainder
          end, Some candidate)
  end.

End OtpauthSpec.

(** ** HMAC-SHA-1 and HMAC-SHA-256

    The keyed hash of the platform, written out from FIPS 180-4 and
    RFC 2104 on bytes and 32-bit words as [Z], to run the code engine on
    the test vectors of RFC 4226 and RFC 6238. *)

Module Hmac.

Definition w32 (x : Z) : Z := x mod 2 ^ 32.

Definition rotl (n x : Z) : Z :=
  w32 (Z.lor (Z.shiftl x n) (Z.shiftr x (32 - n))).

Definition rotr (n x : Z) : Z := rotl (32 - n) x.

Definition not32 (x : Z) : Z := 2 ^ 32 - 1 - x.

(** The [k] bytes of [x], most significant first. *)
Definition be_bytes (k : nat) (x : Z) : list Z :=
  map (fun i => x / 256 ^ Z.of_nat (k - 1 - i) mod 256) (seq 0 k).

(** The padding of a message of [len] bytes: the bit 1, zeros up to 56
    modulo 64, and the length in bits on 8 bytes. *)
Definition padding (len : nat) : list Z :=
  128 :: repeat 0 (Z.to_nat ((55 - Z.of_nat len) mod 64))
      ++ be_bytes 8 (8 * Z.of_nat len).

Fixpoint words (bs : list Z) : list Z :=
  match bs with
  | a :: b :: c :: d :: rest => (((a * 256 + b) * 256 + c) * 256 + d) :: words rest
  | _ => []
  end.

(** Folds [step] over the 16-word blocks of [ws]. *)
Fixpoint blocks {St} (step : St -> list Z -> St) (n : nat) (ws : list Z) (s : St) : St :=
  match n with
  | O => s
  | S n' =>
      match ws with
      | [] => s
      | _ => blocks step n' (skipn 16 ws) (step s (firstn 16 ws))
      end
  end.

(** *** SHA-1 (FIPS 180-4, 6.1) *)

Definition sha1_f (t : nat) (b c d : Z) : Z :=
  if (t <? 20)%nat then Z.lor (Z.land b c) (Z.land (not32 b) d)
  else if (t <? 40)%nat then Z.lxor (Z.lxor b c) d
  else if (t <? 60)%nat then Z.lor (Z.lor (Z.land b c) (Z.land b d)) (Z.land c d)
  else Z.lxor (Z.lxor b c) d.

Definition sha1_k (t : nat) : Z :=
  if (t <? 20)%nat then 0x5a827999
  else if (t <? 40)%nat then 0x6ed9eba1
  else if (t <? 60)%nat then 0x8f1bbcdc
  else 0xca62c1d6.

(** The message schedule, latest word first. *)
Fixpoint sha1_schedule (n : nat) (w : list Z) : list Z :=
  match n with
  | O => w
  | S n' =>
      sha1_schedule n'
        (rotl 1 (Z.lxor (Z.lxor (nth 2 w 0) (nth 7 w 0))
                        (Z.lxor (nth 13 w 0) (nth 15 w 0))) :: w)
  end.

Definition sha1_round (s : Z * Z * Z * Z * Z) (tw : nat * Z) : Z * Z * Z * Z * Z :=
  let '(a, b, c, d, e) := s in
  let '(t, w) := tw in
  (w32 (rotl 5 a + sha1_f t b c d + e + sha1_k t + w), a, rotl 30 b, c, d).

Definition sha1_block (h : Z * Z * Z * Z * Z) (block : list Z) : Z * Z * Z * Z * Z :=
  let w := rev (sha1_schedule 64 (rev block)) in
  let '(a, b, c, d, e) := fold_left sha1_round (combine (seq 0 80) w) h in
  let '(h0, h1, h2, h3, h4) := h in
  (w32 (h0 + a), w32 (h1 + b), w32 (h2 + c), w32 (h3 + d), w32 (h4 + e)).

Definition sha1 (msg : list Z) : list Z :=
  let ws := words (msg ++ padding (length msg)) in
  let '(h0, h1, h2, h3, h4) :=
    blocks sha1_block (length ws) ws
      (0x67452301, 0xefcdab89, 0x98badcfe, 0x10325476, 0xc3d2e1f0) in
  be_bytes 4 h0 ++ be_bytes 4 h1 ++ be_bytes 4 h2 ++ be_bytes 4 h3 ++ be_bytes 4 h4.

(** *** SHA-256 (FIPS 180-4, 6.2) *)

(** The first 32 bits of the fractional part of the [k]-th root of [p]:
    the integer root of [p * 2^(32 k)], found bit by bit, modulo
    [2^32]. *)
Fixpoint root_bits (k n : Z) (bits : nat) (r : Z) : Z :=
  match bits with
  | O => r
  | S b =>
      let r' := r + 2 ^ Z.of_nat b in
      root_bits k n b (if r' ^ k <=? n then r' else r)
  end.

Definition frac_root (k p : Z) : Z :=
  root_bits k (p * 2 ^ (32 * k)) 36 0 mod 2 ^ 32.

Definition is_prime (n : nat) : bool :=
  forallb (fun d => negb (n mod d =? 0)%nat) (seq 2 (n - 2)).

Definition primes_upto (n : nat) : list Z :=
  map Z.of_nat (filter is_prime (seq 2 (n - 1))).

(** The round constants: from the cube roots of the first 64 primes. *)
Definition sha256_k : list Z :=
  Eval vm_compute in map (frac_root 3) (primes_upto 311).

(** The initial hash value: from the square roots of the first 8
    primes. *)
Definition sha256_init : list Z :=
  Eval vm_compute in map (frac_root 2) (primes_upto 19).

Definition xor3 (a b c : Z) : Z := Z.lxor (Z.lxor a b) c.

Fixpoint sha256_schedule (n : nat) (w : list Z) : list Z :=
  match n with
  | O => w
  | S n' =>
      let w2 := nth 1 w 0 in
      let w7 := nth 6 w 0 in
      let w15 := nth 14 w 0 in
      let w16 := nth 15 w 0 in
      let s0 := xor3 (rotr 7 w15) (rotr 18 w15) (Z.shiftr w15 3) in
      let s1 := xor3 (rotr 17 w2) (rotr 19 w2) (Z.shiftr w2 10) in
      sha256_schedule n' (w32 (s1 + w7 + s0 + w16) :: w)
  end.

Definition sha256_state : Type := Z * Z * Z * Z * Z * Z * Z * Z.

Definition sha256_round (s : sha256_state) (kw : Z * Z) : sha256_state :=
  let '(a, b, c, d, e, f, g, h) := s in
  let '(k, w) := kw in
  let S1 := xor3 (rotr 6 e) (rotr 11 e) (rotr 25 e) in
  let ch := Z.lxor (Z.land e f) (Z.land (not32 e) g) in
  let t1 := h + S1 + ch + k + w in
  let S0 := xor3 (rotr 2 a) (rotr 13 a) (rotr 22 a) in
  let maj := xor3 (Z.land a b) (Z.land a c) (Z.land b c) in
  let t2 := S0 + maj in
  (w32 (t1 + t2), a, b, c, w32 (d + t1), e, f, g).

Definition sha256_block (hs : sha256_state) (block : list Z) : sha256_state :=
  let w := rev (sha256_schedule 48 (rev block)) in
  let '(a, b, c, d, e, f, g, h) := fold_left sha256_round (combine sha256_k w) hs in
  let '(h0, h1, h2, h3, h4, h5, h6, h7) := hs in
  (w32 (h0 + a), w32 (h1 + b), w32 (h2 + c), w32 (h3 + d),
   w32 (h4 + e), w32 (h5 + f), w32 (h6 + g), w32 (h7 + h)).

Definition sha256 (msg : list Z) : list Z :=
  let ws := words (msg ++ padding (length msg)) in
  let '(h0, h1, h2, h3, h4, h5, h6, h7) :=
    blocks sha256_block (length ws) ws
      (nth 0 sha256_init 0, nth 1 sha256_init 0, nth 2 sha256_init 0,
       nth 3 sha256_init 0, nth 4 sha256_init 0, nth 5 sha256_init 0,
       nth 6 sha256_init 0, nth 7 sha256_init 0) in
  be_bytes 4 h0 ++ be_bytes 4 h1 ++ be_bytes 4 h2 ++ be_bytes 4 h3
  ++ be_bytes 4 h4 ++ be_bytes 4 h5 ++ be_bytes 4 h6 ++ be_bytes 4 h7.

(** *** HMAC (RFC 2104), block size 64 *)

Definition hmac_with (hash : list Z -> list Z) (key data : list Z) : list Z :=
  let k0 := if (64 <? length key)%nat then hash key else key in
  let k := k0 ++ repeat 0 (64 - length k0) in
  hash (map (Z.lxor 0x5c) k ++ hash (map (Z.lxor 0x36) k ++ data)).

End Hmac.

(** ** Plain instances of the platform primitives

    They let the model run on concrete inputs: a URL parser and a
    percent-decoder for URIs of the plain shape
    [scheme://host/path?name=value&...] (no user information, port,
    fragment or dot segment, escapes only in the path), HMAC on
    [byte]s, and a cipher that appends a 16-byte tag made from the
    key. *)

Module Plain.

(** [s] up to the first [c], and what follows it if [c] occurs. *)
Fixpoint cut (c : ascii) (s : string) : string * option string :=
  match s with
  | EmptyString => (EmptyString, None)
  | String d s' =>
      if Ascii.eqb d c then (EmptyString, Some s')
      else let '(a, b) := cut c s' in (String d a, b)
  end.

(** The pieces of [s] between the occurrences of [c]. *)
Fixpoint pieces (c : ascii) (s : string) : list string :=
  match s with
  | EmptyString => [EmptyString]
  | String d s' =>
      if Ascii.eqb d c then EmptyString :: pieces c s'
      else match pieces c s' with
           | p :: ps => String d p :: ps
           | [] => [String d EmptyString]
           end
  end.

Definition query_pairs (q : string) : list (string * string) :=
  map (fun p => let '(k, v) := cut "=" p in (k, default EmptyString v))
      (filter (fun p => negb (String.eqb p EmptyString)) (pieces "&" q)).

Definition URL_new (s : string) : option Otpauth.URL :=
  match cut ":" s with
  | (scheme, Some (String "/" (String "/" rest))) =>
      let '(hier, query) := cut "?" rest in
      let '(host, path) := cut "/" hier in
      Some {| Otpauth.protocol := JS.toLowerCase scheme +:+ ":";
              Otpauth.hostname := host;
              Otpauth.pathname :=
                match path with
                | Some p => String "/" p
                | None => EmptyString
                end;
              Otpauth.searchParams := query_pairs (default EmptyString query) |}
  | _ => None
  end.

(** The upper case of a code unit below U+0100, by the case mappings of
    Unicode: the letters a to z, the micro sign, the sharp s, which
    becomes two letters, and the letters of Latin-1.  Any other code
    unit is left as it is, which is right for those that have no
    upper case. *)
Definition upper_unit (c : N) : list N :=
  if ((97 <=? c) && (c <=? 122))%N then [(c - 32)%N]
  else if (c =? 181)%N then [924%N]
  else if (c =? 223)%N then [83%N; 83%N]
  else if ((224 <=? c) && (c <=? 254) && negb (c =? 247))%N then [(c - 32)%N]
  else if (c =? 255)%N then [376%N]
  else [c].

Definition toUpperCase (s : list N) : list N := concat (map upper_unit s).

Definition hex_value (c : ascii) : option N :=
  let n := N_of_ascii c in
  if ((48 <=? n) && (n <=? 57))%N then Some (n - 48)%N
  else if ((65 <=? n) && (n <=? 70))%N then Some (n - 55)%N
  else if ((97 <=? n) && (n <=? 102))%N then Some (n - 87)%N
  else None.

(** Escapes of ASCII characters are decoded; any other [%] is refused. *)
Fixpoint decodeURIComponent (s : string) : option string :=
  match s with
  | EmptyString => Some EmptyString
  | String "%" (String h (String l s')) =>
      match hex_value h, hex_value l with
      | Some a, Some b =>
          if (a <? 8)%N then String (ascii_of_N (16 * a + b)) <$> decodeURIComponent s'
          else None
      | _, _ => None
      end
  | String "%" _ => None
  | String c s' => String c <$> decodeURIComponent s'
  end.

Definition hmac (key data : list byte) (alg : Totp.TOTPHashAlg) : list byte :=
  map byte.of_Z
    (Hmac.hmac_with
       match alg with
       | Totp.SHA1 => Hmac.sha1
       | Totp.SHA256 => Hmac.sha256
       end
       (map byte.unsigned key) (map byte.unsigned data)).

Definition tag (key : Crypto.CryptoKey) : list byte :=
  firstn 16 (key ++ repeat Byte.x00 16).

Definition aes_gcm_encrypt (key : Crypto.CryptoKey) (iv plaintext : list byte)
    : list byte :=
  plaintext ++ tag key.

Definition aes_gcm_decrypt (key : Crypto.CryptoKey) (iv ciphertext : list byte)
    : option (list byte) :=
  let n := (length ciphertext - 16)%nat in
  if decide (16 <= length ciphertext)%nat
  then if decide (skipn n ciphertext = tag key) then Some (firstn n ciphertext) else None
  else None.

End Plain.

(** ** Sample data

    A secret, and records sealed under a 32-byte key by the cipher of
    [Plain]: the ciphertext of [bad] is too short to carry a tag, the
    others authenticate. *)

Module Sample.

(** The secret of the test vectors of RFC 4226 and RFC 6238. *)
Definition rfc_secret : list byte := list_byte_of_string "12345678901234567890".

Definition key : Crypto.CryptoKey := repeat Byte.x01 32.

Definition sealed : list byte :=
  Plain.aes_gcm_encrypt key (repeat Byte.x00 12) [Byte.x48; Byte.x69].

Definition record (i : string) (ct : list byte) (o : Z) : Db.DBSecretRecord :=
  {| Db.id := i; Db.label := "account"; Db.issuer := None; Db.alg := Totp.SHA1;
     Db.digits := 6; Db.period := 30; Db.encSecret := ct;
     Db.iv := repeat Byte.x00 12; Db.createdAt := 0; Db.updatedAt := 0;
     Db.order := o |}.

Definition first : Db.DBSecretRecord := record "00" sealed 1.
Definition bad : Db.DBSecretRecord := record "01" [] 2.
Definition last : Db.DBSecretRecord := record "02" sealed 3.

(** The application at start-up over a database that holds the key
    and the records [l]. *)
Definition vault (l : list Db.DBSecretRecord) : Main.App :=
  Main.boot {| Db.secrets := l; Db.meta := {[ "appKey" := Db.Buffer key ]} |}.

End Sample.

(* ================================================================= *)
(** * Properties *)

(** ** The normalizers and the time window *)

Lemma Qfloor_inject_Z (z : Z) : Qfloor (inject_Z z) = z.
Proof. apply Qfloor_Z. Qed.

Lemma normalizePeriod_fixed (p : Z) :
  5 <= p <= 300 -> Totp.normalizePeriod (Some (JS.of_Z p)) = p.
Proof.
  intros Hp. unfold Totp.normalizePeriod, JS.of_Z.
  rewrite Qfloor_inject_Z. lia.
Qed.

Lemma normalizeDigits_fixed (d : Z) :
  d = 6 \/ d = 8 -> Totp.normalizeDigits (Some (JS.of_Z d)) = d.
Proof. intros [-> | ->]; reflexivity. Qed.

Lemma normalizeAlg_fixed (a : Totp.TOTPHashAlg) :
  Totp.normalizeAlg (Some (Totp.alg_name a)) = a.
Proof. destruct a; reflexivity. Qed.

(** C8.  [normalizePeriod] is total and its result is an integer of
    [5, 300]: 30 when the period is absent or not a finite number; for
    a finite number, its floor (the integer [f] with [f <= q < f + 1])
    brought into [5, 300] by clamping, never an error. *)
Theorem normalizePeriod_clamps :
  (forall p, 5 <= Totp.normalizePeriod p <= 300)
  /\ Totp.normalizePeriod None = 30
  /\ Totp.normalizePeriod (Some JS.NaN) = 30
  /\ Totp.normalizePeriod (Some JS.PosInfinity) = 30
  /\ Totp.normalizePeriod (Some JS.NegInfinity) = 30
  /\ (forall q : Q, exists f : Z,
        (inject_Z f <= q)%Q /\ (q < inject_Z (f + 1))%Q
        /\ Totp.normalizePeriod (Some (JS.Finite q))
           = if f <? 5 then 5 else if 300 <? f then 300 else f).
Proof.
  repeat split; try reflexivity.
  - unfold Totp.normalizePeriod. lia.
  - unfold Totp.normalizePeriod. lia.
  - intros q. exists (Qfloor q). split; [apply Qfloor_le |].
    split; [apply Qlt_floor |].
    unfold Totp.normalizePeriod.
    destruct (Z.ltb_spec (Qfloor q) 5); [lia |].
    destruct (Z.ltb_spec 300 (Qfloor q)); lia.
Qed.

(** Within a non-negative timestamp the remainder of the code is the
    mathematical one. *)
Lemma secondsRemaining_nonneg_timestamp (t period : Z) :
  0 <= t -> 0 < period ->
  Totp.secondsRemaining t period = period - (t / 1000) mod period - 1
  /\ 0 <= Totp.secondsRemaining t period <= period - 1.
Proof.
  intros Ht Hp. unfold Totp.secondsRemaining.
  assert (Hs : 0 <= t / 1000) by (apply Z.div_pos; lia).
  rewrite Z.rem_mod_nonneg by lia.
  pose proof (Z.mod_pos_bound (t / 1000) period Hp). lia.
Qed.

(** C5.  At the timestamp -1000 ms and the period 30, [secondsRemaining]
    returns 30: outside [0, 29], and not the 0 that
    [period - (floor(t/1000) mod period) - 1] gives.  The remainder [%]
    of a negative dividend is negative, where [stepAt] rounds the same
    quotient down. *)
Theorem secondsRemaining_before_epoch :
  Totp.secondsRemaining (-1000) 30 = 30
  /\ ~ (0 <= Totp.secondsRemaining (-1000) 30 <= 30 - 1)
  /\ 30 - ((-1000) / 1000) mod 30 - 1 = 0
  /\ Totp.stepAt (-1000) 30 = -1.
Proof. vm_compute. repeat split; try reflexivity. intros [_ H]. apply H. reflexivity. Qed.

Section Window.

Variable hmac : list byte -> list byte -> Totp.TOTPHashAlg -> list byte.

(** Whatever the options, the three codes come from the one step of
    the timestamp. *)
Lemma window_codes_any (now : Z) (opts : Totp.TOTPOptions) :
  let w := Totp.generateTOTPWindow hmac now opts in
  let gen := Totp.generateTOTPForStep hmac (Totp.secret opts) in
  Totp.step w
    = Totp.stepAt (default now (Totp.timestamp opts)) (Totp.w_period w)
  /\ Totp.current w = gen (Totp.step w) (Totp.w_digits w) (Totp.w_algorithm w)
  /\ Totp.prev w = gen (Totp.step w - 1) (Totp.w_digits w) (Totp.w_algorithm w)
  /\ Totp.next w = gen (Totp.step w + 1) (Totp.w_digits w) (Totp.w_algorithm w).
Proof. destruct opts as [s p d a [t|]]; repeat split. Qed.

(** C3.  For a secret, a period of [5, 300], digits 6 or 8, an
    algorithm and a timestamp [t], the window holds as [current] the
    code of the step [stepAt t period], that is
    [floor(floor(t/1000)/period)], as [prev] the code of that step
    minus one and as [next] the code of that step plus one. *)
Theorem window_codes (now : Z) (secret : list byte) (p d : Z)
    (a : Totp.TOTPHashAlg) (t : Z) :
  5 <= p <= 300 -> d = 6 \/ d = 8 ->
  let w := Totp.generateTOTPWindow hmac now
             {| Totp.secret := secret;
                Totp.period := Some (JS.of_Z p);
                Totp.digits := Some (JS.of_Z d);
                Totp.algorithm := Some (Totp.alg_name a);
                Totp.timestamp := Some t |} in
  let step := Totp.stepAt t p in
  step = (t / 1000) / p
  /\ Totp.step w = step
  /\ Totp.current w = Totp.generateTOTPForStep hmac secret step d a
  /\ Totp.prev w = Totp.generateTOTPForStep hmac secret (step - 1) d a
  /\ Totp.next w = Totp.generateTOTPForStep hmac secret (step + 1) d a.
Proof.
  intros Hp Hd. cbv zeta. unfold Totp.generateTOTPWindow. cbn [Totp.period
    Totp.digits Totp.algorithm Totp.timestamp Totp.secret Totp.step
    Totp.current Totp.prev Totp.next].
  rewrite (normalizePeriod_fixed p Hp), (normalizeDigits_fixed d Hd),
    normalizeAlg_fixed.
  repeat split.
Qed.

End Window.

(** At 59 000 ms, period 30: the step is 1 and its three codes are those
    of steps 0, 1 and 2. *)
Lemma window_codes_witness :
  let w := Totp.generateTOTPWindow Plain.hmac 0
             {| Totp.secret := Sample.rfc_secret;
                Totp.period := Some (JS.of_Z 30);
                Totp.digits := Some (JS.of_Z 6);
                Totp.algorithm := Some "SHA-1";
                Totp.timestamp := Some 59000 |} in
  Totp.stepAt 59000 30 = 59000 / 1000 / 30
  /\ Totp.step w = Totp.stepAt 59000 30
  /\ Totp.current w
     = Totp.generateTOTPForStep Plain.hmac Sample.rfc_secret (Totp.stepAt 59000 30) 6 Totp.SHA1
  /\ Totp.prev w
     = Totp.generateTOTPForStep Plain.hmac Sample.rfc_secret (Totp.stepAt 59000 30 - 1) 6 Totp.SHA1
  /\ Totp.next w
     = Totp.generateTOTPForStep Plain.hmac Sample.rfc_secret (Totp.stepAt 59000 30 + 1) 6 Totp.SHA1.
Proof.
  apply (window_codes Plain.hmac 0 Sample.rfc_secret 30 6 Totp.SHA1 59000).
  - lia.
  - left. reflexivity.
Defined.

(** ** The code of a step *)

Lemma ToInt32_small (z : Z) : - 2 ^ 31 <= z < 2 ^ 31 -> JS.ToInt32 z = z.
Proof. intros H. unfold JS.ToInt32. rewrite Z.mod_small; lia. Qed.

Lemma lor_disjoint (a b k : Z) :
  0 <= k -> 0 <= b < 2 ^ k -> Z.lor (a * 2 ^ k) b = a * 2 ^ k + b.
Proof.
  intros Hk Hb. apply or_to_plus. apply Z.bits_inj'. intros n Hn.
  rewrite Z.land_spec, Z.bits_0.
  destruct (Z.lt_ge_cases n k) as [Hlt | Hge].
  - rewrite Z.mul_pow2_bits_low by lia. reflexivity.
  - rewrite <- (Z.mod_small b (2 ^ k)) by lia.
    rewrite Z.mod_pow2_bits_high by lia. apply andb_false_r.
Qed.

Lemma at_range (a : list byte) (i : Z) : 0 <= JS.at_ a i < 256.
Proof.
  unfold JS.at_. destruct (_ && _); [| lia].
  apply (byte.unsigned_range (nth (Z.to_nat i) a Byte.x00)).
Qed.

Lemma and_mask (x k : Z) :
  0 <= x < 2 ^ 31 -> 0 <= k < 31 ->
  JS.and x (2 ^ k - 1) = x mod 2 ^ k.
Proof.
  intros Hx Hk. unfold JS.and.
  assert (Hp : 0 < 2 ^ k <= 2 ^ 30).
  { split; [apply Z.pow_pos_nonneg; lia | apply Z.pow_le_mono_r; lia]. }
  rewrite (ToInt32_small x) by lia.
  rewrite (ToInt32_small (2 ^ k - 1)) by lia.
  replace (2 ^ k - 1) with (Z.ones k) by (rewrite Z.ones_equiv; lia).
  rewrite Z.land_ones by lia.
  pose proof (Z.mod_pos_bound x (2 ^ k) ltac:(lia)).
  apply ToInt32_small. lia.
Qed.

Lemma shl_small (x k : Z) :
  0 <= k < 32 -> 0 <= x -> x * 2 ^ k < 2 ^ 31 ->
  JS.shl x k = x * 2 ^ k.
Proof.
  intros Hk Hx Hlt. unfold JS.shl.
  assert (0 < 2 ^ k) by (apply Z.pow_pos_nonneg; lia).
  assert (Hk' : Z.land (JS.ToUint32 k) 31 = k).
  { unfold JS.ToUint32. rewrite (Z.mod_small k) by lia.
    change 31 with (Z.ones 5). rewrite Z.land_ones by lia.
    apply Z.mod_small. change (2 ^ 5) with 32. lia. }
  rewrite Hk'. rewrite (ToInt32_small x) by nia.
  rewrite Z.shiftl_mul_pow2 by lia. apply ToInt32_small. nia.
Qed.

Lemma or_join (a b k : Z) :
  0 <= k -> 0 <= a -> 0 <= b < 2 ^ k -> a * 2 ^ k + b < 2 ^ 31 ->
  JS.or (a * 2 ^ k) b = a * 2 ^ k + b.
Proof.
  intros Hk Ha Hb Hlt. unfold JS.or.
  assert (0 < 2 ^ k) by (apply Z.pow_pos_nonneg; lia).
  rewrite (ToInt32_small (a * 2 ^ k)) by nia.
  rewrite (ToInt32_small b) by nia.
  rewrite lor_disjoint by lia. apply ToInt32_small. nia.
Qed.

(** The 31-bit code read from four bytes. *)
Lemma binCode_value (x0 x1 x2 x3 : Z) :
  0 <= x0 < 256 -> 0 <= x1 < 256 -> 0 <= x2 < 256 -> 0 <= x3 < 256 ->
  JS.or (JS.or (JS.or (JS.shl (JS.and x0 127) 24) (JS.shl x1 16)) (JS.shl x2 8)) x3
  = (((x0 * 256 + x1) * 256 + x2) * 256 + x3) mod 2 ^ 31.
Proof.
  intros H0 H1 H2 H3.
  change 127 with (2 ^ 7 - 1). rewrite and_mask by lia.
  pose proof (Z.mod_pos_bound x0 (2 ^ 7) eq_refl) as Hm.
  change (2 ^ 7) with 128 in *.
  rewrite (shl_small (x0 mod 128) 24) by lia.
  rewrite (shl_small x1 16) by lia.
  rewrite (shl_small x2 8) by lia.
  replace (x1 * 2 ^ 16) with (x1 * 2 ^ 16 + 0) by lia.
  rewrite (or_join (x0 mod 128) (x1 * 2 ^ 16 + 0) 24) by lia.
  replace (x0 mod 128 * 2 ^ 24 + (x1 * 2 ^ 16 + 0))
    with ((x0 mod 128 * 2 ^ 8 + x1) * 2 ^ 16) by lia.
  rewrite (or_join _ (x2 * 2 ^ 8) 16) by lia.
  replace ((x0 mod 128 * 2 ^ 8 + x1) * 2 ^ 16 + x2 * 2 ^ 8)
    with (((x0 mod 128 * 2 ^ 8 + x1) * 2 ^ 8 + x2) * 2 ^ 8) by lia.
  rewrite or_join by lia.
  change (2 ^ 31) with 2147483648. change (2 ^ 8) with 256.
  Z.div_mod_to_equations. lia.
Qed.

Lemma dynamicTruncate_range (mac : list byte) :
  0 <= Totp.dynamicTruncate mac < 2 ^ 31.
Proof.
  unfold Totp.dynamicTruncate. cbv zeta.
  rewrite binCode_value by apply at_range.
  apply Z.mod_pos_bound. reflexivity.
Qed.

Lemma nth_pred_last (l : list byte) (d : byte) :
  nth (Nat.pred (length l)) l d = List.last l d.
Proof.
  induction l as [| a [| b l] IH]; [reflexivity | reflexivity |].
  exact IH.
Qed.

Lemma at_last (mac : list byte) :
  JS.at_ mac (Z.of_nat (length mac) - 1) = byte.unsigned (List.last mac Byte.x00).
Proof.
  unfold JS.at_. destruct mac as [| b mac]; [reflexivity |].
  replace (Z.to_nat (Z.of_nat (length (b :: mac)) - 1))
    with (Nat.pred (length (b :: mac))) by (cbn [length]; lia).
  rewrite nth_pred_last.
  destruct (Z.leb_spec 0 (Z.of_nat (length (b :: mac)) - 1)); [| cbn [length] in *; lia].
  destruct (Z.ltb_spec (Z.of_nat (length (b :: mac)) - 1) (Z.of_nat (length (b :: mac))));
    [reflexivity | lia].
Qed.

Lemma offset_refines (mac : list byte) :
  JS.and (JS.at_ mac (Z.of_nat (length mac) - 1)) 15 = Rfc4226.offset mac.
Proof.
  pose proof (at_range mac (Z.of_nat (length mac) - 1)) as Hr.
  change 15 with (2 ^ 4 - 1). rewrite and_mask by lia.
  rewrite at_last. reflexivity.
Qed.

Lemma offset_range (mac : list byte) : 0 <= Rfc4226.offset mac < 16.
Proof. unfold Rfc4226.offset. apply Z.mod_pos_bound. reflexivity. Qed.

(** On a hash of at least 20 bytes the four bytes at the offset exist,
    and the bitwise code of the program is the truncation of the RFC. *)
Lemma dynamicTruncate_refines (mac : list byte) :
  (20 <= length mac)%nat -> Totp.dynamicTruncate mac = Rfc4226.truncate mac.
Proof.
  intros Hlen. unfold Totp.dynamicTruncate, Rfc4226.truncate. cbv zeta.
  rewrite offset_refines.
  pose proof (offset_range mac) as Ho.
  unfold JS.subarray.
  replace (Z.to_nat (Rfc4226.offset mac + 4 - Rfc4226.offset mac)) with 4%nat by lia.
  pose proof (length_skipn (Z.to_nat (Rfc4226.offset mac)) mac) as Hs.
  destruct (skipn (Z.to_nat (Rfc4226.offset mac)) mac)
    as [| b0 [| b1 [| b2 [| b3 rest]]]]; cbn [length] in Hs; try lia.
  change (firstn 4 (b0 :: b1 :: b2 :: b3 :: rest)) with [b0; b1; b2; b3].
  change (JS.at_ [b0; b1; b2; b3] 0) with (byte.unsigned b0).
  change (JS.at_ [b0; b1; b2; b3] 1) with (byte.unsigned b1).
  change (JS.at_ [b0; b1; b2; b3] 2) with (byte.unsigned b2).
  change (JS.at_ [b0; b1; b2; b3] 3) with (byte.unsigned b3).
  rewrite binCode_value by apply byte.unsigned_range.
  unfold Rfc4226.big_endian. cbn [fold_left]. f_equal. lia.
Qed.

Lemma byte_of_Z_mod (a b : Z) : a mod 256 = b mod 256 -> byte.of_Z a = byte.of_Z b.
Proof.
  intros H. apply byte.unsigned_inj. rewrite !byte.unsigned_of_Z.
  unfold byte.wrap. exact H.
Qed.

Lemma be_digit (step n k : Z) :
  n = 8 * k -> 0 <= k ->
  byte.of_Z (Z.land (Z.shiftr step n) 255) = byte.of_Z (step / 256 ^ k).
Proof.
  intros -> Hk. apply byte_of_Z_mod.
  change 255 with (Z.ones 8). rewrite Z.land_ones by lia.
  rewrite Z.shiftr_div_pow2 by lia.
  change (2 ^ 8) with 256. rewrite Z.mod_mod by lia.
  rewrite Z.pow_mul_r by lia. reflexivity.
Qed.

Lemma be_digit0 (step : Z) :
  byte.of_Z (Z.land step 255) = byte.of_Z (step / 256 ^ 0).
Proof. rewrite <- (be_digit step 0 0) by lia. rewrite Z.shiftr_0_r. reflexivity. Qed.

(** The loop of the program writes the positional digits of the step. *)
Lemma numberTo8ByteBE_refines (step : Z) :
  Totp.numberTo8ByteBE step = Rfc4226.counter_bytes step.
Proof.
  unfold Totp.numberTo8ByteBE, Rfc4226.counter_bytes.
  cbn [Totp.numberTo8ByteBE_loop seq map].
  rewrite !Z.shiftr_shiftr by lia.
  repeat match goal with
         | |- _ :: _ = _ :: _ => f_equal
         end;
    first [ apply be_digit0 | apply be_digit; [reflexivity | lia] ].
Qed.

(** *** Decimal strings *)

Lemma append_assoc (a b c : string) : (a +:+ b) +:+ c = a +:+ (b +:+ c).
Proof. induction a as [| x a IH]; [reflexivity | exact (f_equal (String x) IH)]. Qed.

Lemma append_length (a b : string) :
  String.length (a +:+ b) = (String.length a + String.length b)%nat.
Proof. induction a as [| x a IH]; [reflexivity | exact (f_equal S IH)]. Qed.

Lemma repeat_char_snoc (c : ascii) (n : nat) :
  JS.repeat_char c n +:+ String c EmptyString = JS.repeat_char c (S n).
Proof. induction n as [| n IH]; [reflexivity | exact (f_equal (String c) IH)]. Qed.

Lemma string_of_list_ascii_snoc (l : list ascii) (c : ascii) :
  string_of_list_ascii (l ++ [c]) = string_of_list_ascii l +:+ String c EmptyString.
Proof. induction l as [| x l IH]; [reflexivity | exact (f_equal (String x) IH)]. Qed.

Lemma string_of_list_ascii_length (l : list ascii) :
  String.length (string_of_list_ascii l) = length l.
Proof. induction l as [| x l IH]; [reflexivity | exact (f_equal S IH)]. Qed.

(** The last character of a zero-padded number is its unit digit. *)
Lemma zero_padded_S (k : nat) (n : Z) :
  Rfc4226.zero_padded (S k) n
  = Rfc4226.zero_padded k (n / 10) +:+ String (JS.digit_char (n mod 10)) EmptyString.
Proof.
  unfold Rfc4226.zero_padded.
  rewrite seq_S, map_app. cbn [map Nat.add]. rewrite string_of_list_ascii_snoc.
  f_equal.
  - f_equal. apply map_ext_in. intros i Hi. apply in_seq in Hi.
    replace (Z.of_nat (S k - 1 - i)) with (Z.of_nat (k - 1 - i) + 1) by lia.
    rewrite Z.pow_add_r by lia. change (10 ^ 1) with 10.
    rewrite (Z.mul_comm _ 10), <- Z.div_div by
      (try lia; apply Z.pow_pos_nonneg; lia).
    reflexivity.
  - replace (S k - 1 - k)%nat with 0%nat by lia.
    change (10 ^ Z.of_nat 0) with 1. rewrite Z.div_1_r. reflexivity.
Qed.

Lemma zero_padded_zero (k : nat) :
  Rfc4226.zero_padded k 0 = JS.repeat_char "0" k.
Proof.
  induction k as [| k IH]; [reflexivity |].
  rewrite zero_padded_S. change (0 / 10) with 0. rewrite IH.
  apply repeat_char_snoc.
Qed.

(** The digit loop, run for enough rounds, yields a string that the
    zeros of [padStart] complete to the zero-padded form. *)
Lemma digits_loop_padded (rounds : nat) :
  forall (m : Z) (acc : string) (w : nat),
    0 <= m < 2 ^ Z.of_nat rounds -> (1 <= rounds)%nat ->
    m < 10 ^ Z.of_nat w -> (1 <= w)%nat ->
    exists D : string,
      JS.digits_loop rounds m acc = D +:+ acc
      /\ (String.length D <= w)%nat
      /\ JS.repeat_char "0" (w - String.length D) +:+ D = Rfc4226.zero_padded w m.
Proof.
  induction rounds as [| r IH]; intros m acc w Hm Hr Hw Hw1; [lia |].
  cbn [JS.digits_loop]. cbv zeta.
  destruct w as [| w']; [lia |].
  destruct (Z.eqb_spec (m / 10) 0) as [Hz | Hnz].
  - exists (String (JS.digit_char (m mod 10)) EmptyString).
    split; [reflexivity |]. split; [cbn; lia |].
    rewrite zero_padded_S, Hz, zero_padded_zero. cbn [String.length].
    replace (S w' - 1)%nat with w' by lia. reflexivity.
  - assert (Hm10 : 10 <= m).
    { destruct (Z.lt_ge_cases m 10) as [Hlt | ]; [| assumption].
      rewrite Z.div_small in Hnz by lia. congruence. }
    assert (Hr1 : (1 <= r)%nat).
    { destruct r; [| lia]. change (2 ^ Z.of_nat 1) with 2 in Hm. lia. }
    assert (Hw2 : (1 <= w')%nat).
    { destruct w'; [| lia]. change (10 ^ Z.of_nat 1) with 10 in Hw. lia. }
    assert (H2 : 2 ^ Z.of_nat (S r) = 2 * 2 ^ Z.of_nat r).
    { rewrite Nat2Z.inj_succ, Z.pow_succ_r by lia. reflexivity. }
    assert (H10 : 10 ^ Z.of_nat (S w') = 10 * 10 ^ Z.of_nat w').
    { rewrite Nat2Z.inj_succ, Z.pow_succ_r by lia. reflexivity. }
    destruct (IH (m / 10) (String (JS.digit_char (m mod 10)) acc) w')
      as (D' & HD & Hlen & Hpad).
    + split; [apply Z.div_pos; lia |].
      apply Z.div_lt_upper_bound; lia.
    + assumption.
    + apply Z.div_lt_upper_bound; lia.
    + assumption.
    + exists (D' +:+ String (JS.digit_char (m mod 10)) EmptyString).
      split; [| split].
      * rewrite HD, append_assoc. reflexivity.
      * rewrite append_length. cbn [String.length]. lia.
      * rewrite zero_padded_S, <- Hpad, append_length. cbn [String.length].
        replace (S w' - (String.length D' + 1))%nat
          with (w' - String.length D')%nat by lia.
        rewrite append_assoc. reflexivity.
Qed.

Lemma append_empty_r (s : string) : s +:+ EmptyString = s.
Proof. induction s as [| x s IH]; [reflexivity | exact (f_equal (String x) IH)]. Qed.

(** [toString] then [padStart] is the zero-padded form. *)
Lemma toString_padStart (m : Z) (w : nat) :
  0 <= m < 10 ^ Z.of_nat w -> (1 <= w)%nat ->
  JS.padStart (JS.Number_toString m) (Z.of_nat w) "0" = Rfc4226.zero_padded w m.
Proof.
  intros Hm Hw. unfold JS.Number_toString. cbv zeta.
  destruct (Z.ltb_spec m 0) as [| _]; [lia |].
  rewrite Z.abs_eq by lia.
  destruct (digits_loop_padded (S (Z.to_nat (Z.log2 m))) m EmptyString w)
    as (D & HD & Hlen & Hpad); try lia.
  - split; [lia |].
    rewrite Nat2Z.inj_succ, Z2Nat.id by apply Z.log2_nonneg.
    destruct (Z.eq_dec m 0) as [-> | Hne]; [reflexivity |].
    apply Z.log2_spec. lia.
  - rewrite HD, append_empty_r. unfold JS.padStart, JS.len.
    replace (Z.to_nat (Z.of_nat w - Z.of_nat (String.length D)))
      with (w - String.length D)%nat by lia.
    exact Hpad.
Qed.

Lemma padDigits_refines (n digits : Z) :
  0 <= n -> digits = 6 \/ digits = 8 ->
  Totp.padDigits n digits = Rfc4226.zero_padded (Z.to_nat digits) (n mod 10 ^ digits).
Proof.
  intros Hn Hd. unfold Totp.padDigits. cbv zeta.
  assert (Hmod : (if digits =? 8 then 100000000 else 1000000) = 10 ^ digits)
    by (destruct Hd as [-> | ->]; reflexivity).
  rewrite Hmod.
  assert (Hpos : 0 < 10 ^ digits) by (apply Z.pow_pos_nonneg; lia).
  rewrite Z.rem_mod_nonneg by lia.
  pose proof (Z.mod_pos_bound n (10 ^ digits) Hpos) as Hb.
  pose proof (toString_padStart (n mod 10 ^ digits) (Z.to_nat digits)) as H.
  rewrite Z2Nat.id in H by lia. apply H; [exact Hb | lia].
Qed.

Lemma digit_char_is_digit (d : Z) :
  0 <= d < 10 -> JS.is_digit (JS.digit_char d) = true.
Proof.
  intros H.
  assert (d = 0 \/ d = 1 \/ d = 2 \/ d = 3 \/ d = 4 \/ d = 5 \/ d = 6 \/ d = 7
          \/ d = 8 \/ d = 9) as Hc by lia.
  repeat (destruct Hc as [-> | Hc]; [reflexivity |]). subst d. reflexivity.
Qed.

Lemma zero_padded_length (w : nat) (n : Z) :
  String.length (Rfc4226.zero_padded w n) = w.
Proof.
  unfold Rfc4226.zero_padded.
  rewrite string_of_list_ascii_length, length_map, length_seq. reflexivity.
Qed.

Lemma zero_padded_digits (w : nat) (n : Z) (c : ascii) :
  In c (list_ascii_of_string (Rfc4226.zero_padded w n)) -> JS.is_digit c = true.
Proof.
  unfold Rfc4226.zero_padded. rewrite list_ascii_of_string_of_list_ascii.
  intros Hin. apply in_map_iff in Hin as (i & <- & _).
  apply digit_char_is_digit. apply Z.mod_pos_bound. lia.
Qed.

Section CodeForStep.

Variable hmac : list byte -> list byte -> Totp.TOTPHashAlg -> list byte.

(** C9.  For every secret, step and algorithm and for digits 6 or 8,
    the code of the step has exactly [digits] characters, each of
    them a decimal digit. *)
Theorem generateTOTPForStep_shape
    (secret : list byte) (step digits : Z) (alg : Totp.TOTPHashAlg) :
  digits = 6 \/ digits = 8 ->
  JS.len (Totp.generateTOTPForStep hmac secret step digits alg) = digits
  /\ forall c : ascii,
       In c (list_ascii_of_string (Totp.generateTOTPForStep hmac secret step digits alg)) ->
       JS.is_digit c = true.
Proof.
  intros Hd. unfold Totp.generateTOTPForStep. cbv zeta.
  rewrite padDigits_refines by (try apply dynamicTruncate_range; assumption).
  split.
  - unfold JS.len. rewrite zero_padded_length. lia.
  - intros c. apply zero_padded_digits.
Qed.

(** The output of HMAC has the length of the digest of its hash. *)
Hypothesis hmac_length :
  forall key data alg, length (hmac key data alg) = Rfc4226.digest_length alg.

(** C2.  For every secret, step, digits 6 or 8 and algorithm SHA-1 or
    SHA-256, the code of the program is the code of RFC 4226 §5.3:
    HMAC over the 8-byte big-endian step, the low 4 bits of the last
    byte of the hash as offset, the 4 bytes there as a big-endian
    number with its top bit cleared, modulo [10^digits], written on
    exactly [digits] characters with zeros on the left. *)
Theorem generateTOTPForStep_refines_rfc4226
    (secret : list byte) (step digits : Z) (alg : Totp.TOTPHashAlg) :
  digits = 6 \/ digits = 8 ->
  Totp.generateTOTPForStep hmac secret step digits alg
  = Rfc4226.code hmac secret step digits alg.
Proof.
  intros Hd. unfold Totp.generateTOTPForStep, Rfc4226.code. cbv zeta.
  rewrite numberTo8ByteBE_refines.
  rewrite padDigits_refines by (try apply dynamicTruncate_range; assumption).
  rewrite dynamicTruncate_refines; [reflexivity |].
  rewrite hmac_length. destruct alg; cbn; lia.
Qed.

End CodeForStep.

Lemma sha1_length (msg : list Z) : length (Hmac.sha1 msg) = 20%nat.
Proof.
  unfold Hmac.sha1. cbv zeta.
  destruct (Hmac.blocks _ _ _ _) as [[[[h0 h1] h2] h3] h4]. reflexivity.
Qed.

Lemma sha256_length (msg : list Z) : length (Hmac.sha256 msg) = 32%nat.
Proof.
  unfold Hmac.sha256. cbv zeta.
  destruct (Hmac.blocks _ _ _ _) as [[[[[[[h0 h1] h2] h3] h4] h5] h6] h7]. reflexivity.
Qed.

Lemma plain_hmac_length (key data : list byte) (alg : Totp.TOTPHashAlg) :
  length (Plain.hmac key data alg) = Rfc4226.digest_length alg.
Proof.
  unfold Plain.hmac, Hmac.hmac_with. cbv zeta. rewrite length_map.
  destruct alg; [apply sha1_length | apply sha256_length].
Qed.

Lemma generateTOTPForStep_shape_witness :
  JS.len (Totp.generateTOTPForStep Plain.hmac Sample.rfc_secret 1 6 Totp.SHA1) = 6
  /\ forall c : ascii,
       In c (list_ascii_of_string
               (Totp.generateTOTPForStep Plain.hmac Sample.rfc_secret 1 6 Totp.SHA1)) ->
       JS.is_digit c = true.
Proof.
  apply (generateTOTPForStep_shape Plain.hmac Sample.rfc_secret 1 6 Totp.SHA1).
  left. reflexivity.
Defined.

Lemma generateTOTPForStep_refines_rfc4226_witness :
  Totp.generateTOTPForStep Plain.hmac Sample.rfc_secret 1 8 Totp.SHA256
  = Rfc4226.code Plain.hmac Sample.rfc_secret 1 8 Totp.SHA256.
Proof.
  apply (generateTOTPForStep_refines_rfc4226 Plain.hmac plain_hmac_length
           Sample.rfc_secret 1 8 Totp.SHA256).
  right. reflexivity.
Defined.

(** ** Base32 *)

(** The map of the decoder holds a character exactly when its lower or
    upper case is a symbol of the alphabet. *)
Lemma lookup_symbol (c : ascii) :
  Otpauth.lookup !! JS.toUpperCase_char c = None <-> Rfc4648.symbol c = false.
Proof.
  destruct c as [[] [] [] [] [] [] [] []]; vm_compute; split; congruence.
Qed.

Lemma chars_map_chars (f : ascii -> ascii) (s : string) :
  list_ascii_of_string (JS.map_chars f s) = map f (list_ascii_of_string s).
Proof. induction s as [| x s IH]; [reflexivity | exact (f_equal (cons (f x)) IH)]. Qed.

Lemma chars_length (s : string) : length (list_ascii_of_string s) = String.length s.
Proof. induction s as [| x s IH]; [reflexivity | exact (f_equal S IH)]. Qed.

Lemma decode_loop_invalid (s : string) :
  forall bits value out,
    (exists c, In c (list_ascii_of_string s) /\ Otpauth.lookup !! c = None) ->
    exists ch, Otpauth.decode_loop s bits value out = Err (Otpauth.invalid_character ch).
Proof.
  induction s as [| x s IH]; intros bits value out (c & Hin & Hc).
  - destruct Hin.
  - cbn [Otpauth.decode_loop].
    destruct (Otpauth.lookup !! x) as [v |] eqn:Hx; [| eexists; reflexivity].
    assert (Hs : exists c, In c (list_ascii_of_string s) /\ Otpauth.lookup !! c = None).
    { destruct Hin as [-> | Hin]; [congruence | eauto]. }
    cbv zeta. destruct (8 <=? bits + 5); apply IH; exact Hs.
Qed.

(** On symbols only, the loop ends well: every 8 accumulated bits give
    one byte, and the bits left at the end give none. *)
Lemma decode_loop_valid (s : string) :
  forall bits value out,
    (forall c, In c (list_ascii_of_string s) -> Otpauth.lookup !! c <> None) ->
    0 <= bits < 8 ->
    exists out',
      Otpauth.decode_loop s bits value out = Ok out'
      /\ Z.of_nat (length out') = Z.of_nat (length out) + (bits + 5 * JS.len s) / 8.
Proof.
  induction s as [| x s IH]; intros bits value out Hall Hb.
  - exists out. split; [reflexivity |]. unfold JS.len. cbn [String.length].
    rewrite Z.div_small by lia. lia.
  - cbn [Otpauth.decode_loop].
    destruct (Otpauth.lookup !! x) as [v |] eqn:Hx;
      [| exfalso; apply (Hall x); [left; reflexivity | exact Hx]].
    assert (Hs : forall c, In c (list_ascii_of_string s) -> Otpauth.lookup !! c <> None)
      by (intros c Hc; apply Hall; right; exact Hc).
    assert (Hlen : JS.len (String x s) = JS.len s + 1)
      by (unfold JS.len; cbn [String.length]; lia).
    cbv zeta. destruct (Z.leb_spec 8 (bits + 5)) as [Hge | Hlt].
    + destruct (IH (bits + 5 - 8) (JS.or (JS.shl value 5) v)
                  (out ++ [byte.of_Z (JS.and (JS.shru (JS.or (JS.shl value 5) v)
                                                (bits + 5 - 8)) 255)]) Hs)
        as (out' & Hout & Hn); [lia |].
      exists out'. split; [exact Hout |].
      rewrite Hn, length_app, Hlen. cbn [length].
      replace (bits + 5 * (JS.len s + 1)) with (bits + 5 - 8 + 5 * JS.len s + 1 * 8) by lia.
      rewrite Z.div_add by lia. lia.
    + destruct (IH (bits + 5) (JS.or (JS.shl value 5) v) out Hs)
        as (out' & Hout & Hn); [lia |].
      exists out'. split; [exact Hout |].
      rewrite Hn, Hlen. f_equal. f_equal. lia.
Qed.

(** What [dropWhileEnd] removes is a run of characters that satisfy the
    test, and what it keeps does not end with one. *)
Lemma dropWhileEnd_spec (p : ascii -> bool) (s : string) :
  exists t : string,
    s = JS.dropWhileEnd p s +:+ t
    /\ (forall c, In c (list_ascii_of_string t) -> p c = true)
    /\ (forall u c, JS.dropWhileEnd p s = u +:+ String c EmptyString -> p c = false).
Proof.
  induction s as [| x s (t & Hs & Ht & Hlast)].
  - exists EmptyString. repeat split; [intros c [] |].
    intros [| y u] c H; discriminate H.
  - cbn [JS.dropWhileEnd].
    destruct (JS.dropWhileEnd p s) as [| y r] eqn:Hd.
    + change (s = t) in Hs. subst t. destruct (p x) eqn:Hx.
      * exists (String x s). repeat split.
        -- intros c [<- | Hc]; [exact Hx | exact (Ht c Hc)].
        -- intros [| z u] c H; discriminate H.
      * exists s. repeat split; [exact Ht |].
        intros [| z u] c H.
        -- change (String x EmptyString = String c EmptyString) in H. congruence.
        -- change (String x EmptyString = String z (u +:+ String c EmptyString)) in H.
           destruct u; discriminate H.
    + exists t. repeat split.
      * change (String x s = String x (String y r +:+ t)). congruence.
      * exact Ht.
      * intros [| z u] c H.
        -- discriminate H.
        -- change (String x (String y r) = String z (u +:+ String c EmptyString)) in H.
           injection H as _ H. exact (Hlast u c H).
Qed.

Lemma map_chars_length (f : ascii -> ascii) (s : string) :
  String.length (JS.map_chars f s) = String.length s.
Proof. induction s as [| x s IH]; [reflexivity | exact (f_equal S IH)]. Qed.

Lemma all_equal_repeat (a : ascii) (t : string) :
  (forall c, In c (list_ascii_of_string t) -> Ascii.eqb a c = true) ->
  t = JS.repeat_char a (String.length t).
Proof.
  induction t as [| x t IH]; intros H; [reflexivity |].
  cbn [String.length JS.repeat_char].
  rewrite <- IH by (intros c Hc; apply H; right; exact Hc).
  f_equal. symmetry. apply Ascii.eqb_eq. apply H. left. reflexivity.
Qed.

(** The two outcomes of the decoder on the upper-cased symbols. *)
Lemma base32_invalid (input : string) (c : ascii) :
  In c (list_ascii_of_string (Otpauth.strip input)) -> Rfc4648.symbol c = false ->
  exists ch, Otpauth.base32DecodeToBytes input = Err (Otpauth.invalid_character ch).
Proof.
  intros Hin Hc. unfold Otpauth.base32DecodeToBytes. cbv zeta.
  destruct (Z.eqb_spec (JS.len (JS.toUpperCase (Otpauth.strip input))) 0) as [Hz | _].
  - unfold JS.len, JS.toUpperCase in Hz. rewrite map_chars_length in Hz.
    destruct (Otpauth.strip input); [destruct Hin | discriminate Hz].
  - apply decode_loop_invalid. exists (JS.toUpperCase_char c). split.
    + unfold JS.toUpperCase. rewrite chars_map_chars. apply in_map. exact Hin.
    + apply lookup_symbol. exact Hc.
Qed.

Lemma base32_valid (input : string) :
  (forall c, In c (list_ascii_of_string (Otpauth.strip input)) -> Rfc4648.symbol c = true) ->
  exists out,
    Otpauth.base32DecodeToBytes input = Ok out
    /\ Z.of_nat (length out) = 5 * JS.len (Otpauth.strip input) / 8.
Proof.
  intros Hall. unfold Otpauth.base32DecodeToBytes. cbv zeta.
  assert (Hlen : JS.len (JS.toUpperCase (Otpauth.strip input)) = JS.len (Otpauth.strip input))
    by (unfold JS.len, JS.toUpperCase; rewrite map_chars_length; reflexivity).
  rewrite Hlen.
  destruct (Z.eqb_spec (JS.len (Otpauth.strip input)) 0) as [Hz | _].
  - exists []. rewrite Hz. split; reflexivity.
  - destruct (decode_loop_valid (JS.toUpperCase (Otpauth.strip input)) 0 0 [])
      as (out & Hout & Hn); [| lia |].
    + unfold JS.toUpperCase. rewrite chars_map_chars.
      intros c' Hin. apply in_map_iff in Hin as (c & <- & Hin).
      intros Hnone. apply lookup_symbol in Hnone.
      rewrite (Hall c Hin) in Hnone. discriminate Hnone.
    + exists out. split; [exact Hout |]. rewrite Hn, Hlen. reflexivity.
Qed.

(** On ASCII text: let [rest] be the input without its white space and
    then without its trailing run of ['='].  Decoding fails with the
    invalid-character error if and only if some character of [rest] is
    not a symbol of the Base32 alphabet in either case.  Otherwise it
    succeeds, and its output has [floor(5 * length rest / 8)] bytes:
    the final group of fewer than 8 bits is dropped.  When [rest] is
    empty the output is the empty byte sequence. *)
Theorem base32DecodeToBytes_outcome (input : string) :
  let rest := Otpauth.strip input in
  (exists pad : nat,
     JS.filter_chars (fun c => negb (JS.is_space c)) input = rest +:+ JS.repeat_char "=" pad
     /\ forall u c, rest = u +:+ String c EmptyString -> c <> "="%char)
  /\ ((exists ch, Otpauth.base32DecodeToBytes input = Err (Otpauth.invalid_character ch))
      <-> exists c, In c (list_ascii_of_string rest) /\ Rfc4648.symbol c = false)
  /\ ((forall c, In c (list_ascii_of_string rest) -> Rfc4648.symbol c = true) ->
      exists out,
        Otpauth.base32DecodeToBytes input = Ok out
        /\ Z.of_nat (length out) = 5 * JS.len rest / 8)
  /\ (rest = EmptyString -> Otpauth.base32DecodeToBytes input = Ok []).
Proof.
  cbv zeta. split; [| split; [| split]].
  - unfold Otpauth.strip.
    destruct (dropWhileEnd_spec (Ascii.eqb "=")
                (JS.filter_chars (fun c => negb (JS.is_space c)) input))
      as (t & Hs & Ht & Hlast).
    exists (String.length t). split.
    + rewrite <- (all_equal_repeat "=" t Ht). exact Hs.
    + intros u c Hu ->. specialize (Hlast u _ Hu). discriminate Hlast.
  - destruct (existsb (fun c => negb (Rfc4648.symbol c))
                (list_ascii_of_string (Otpauth.strip input))) eqn:E.
    + apply existsb_exists in E as (c & Hin & Hc).
      apply negb_true_iff in Hc.
      split; intros _; [exists c; split; assumption |].
      exact (base32_invalid input c Hin Hc).
    + assert (Hall : forall c, In c (list_ascii_of_string (Otpauth.strip input)) ->
                               Rfc4648.symbol c = true).
      { intros c Hin. destruct (Rfc4648.symbol c) eqn:Hc; [reflexivity |].
        assert (existsb (fun c => negb (Rfc4648.symbol c))
                  (list_ascii_of_string (Otpauth.strip input)) = true) as E'
          by (apply existsb_exists; exists c; rewrite Hc; split; [exact Hin | reflexivity]).
        congruence. }
      destruct (base32_valid input Hall) as (out & Hout & _).
      split.
      * intros (ch & Hch). congruence.
      * intros (c & Hin & Hc). rewrite (Hall c Hin) in Hc. discriminate Hc.
  - apply base32_valid.
  - intros Hr. unfold Otpauth.base32DecodeToBytes. cbv zeta. rewrite Hr. reflexivity.
Qed.

(** On ["jbswy3dp=="] every character left is a symbol: the decoder
    succeeds, with 5 bytes for the 8 symbols. *)
Lemma base32DecodeToBytes_outcome_witness :
  exists out,
    Otpauth.base32DecodeToBytes "jbswy3dp==" = Ok out
    /\ Z.of_nat (length out) = 5 * JS.len (Otpauth.strip "jbswy3dp==") / 8.
Proof.
  apply (proj1 (proj2 (proj2 (base32DecodeToBytes_outcome "jbswy3dp==")))).
  intros c Hin. vm_compute in Hin.
  repeat (destruct Hin as [<- | Hin]; [reflexivity |]). destruct Hin.
Defined.

Example base32_spellings :
  Otpauth.base32DecodeToBytes "JBSW Y3DP" = Otpauth.base32DecodeToBytes "jbswy3dp=="
  /\ Otpauth.base32DecodeToBytes "jbswy3dp=="
     = Ok [Byte.x48; Byte.x65; Byte.x6c; Byte.x6c; Byte.x6f].
Proof. split; reflexivity. Qed.

(** *** Beyond ASCII

    The decoder over the code units of ECMAScript, where [\s] has the
    white space of Unicode and [toUpperCase] its case mappings. *)

Lemma of_string_append (a b : string) :
  Utf16.of_string (a +:+ b) = Utf16.of_string a ++ Utf16.of_string b.
Proof.
  unfold Utf16.of_string. induction a as [| x a IH]; [reflexivity |].
  change (String x a +:+ b) with (String x (a +:+ b)).
  cbn [list_ascii_of_string map app]. f_equal. exact IH.
Qed.

Lemma of_string_length (s : string) :
  length (Utf16.of_string s) = String.length s.
Proof. unfold Utf16.of_string. rewrite length_map. apply chars_length. Qed.

(** On the code units of ASCII the two models have the same white
    space, the same ['='] and the same symbols. *)
Lemma ascii_units (c : ascii) :
  ((N_of_ascii c <? 128)%N = true ->
   Utf16.is_space (N_of_ascii c) = JS.is_space c
   /\ (N_of_ascii (JS.toUpperCase_char c) <? 128)%N = true
   /\ Plain.upper_unit (N_of_ascii c) = [N_of_ascii (JS.toUpperCase_char c)])
  /\ N.eqb 61 (N_of_ascii c) = Ascii.eqb "=" c
  /\ Otpauth.lookup_utf16 !! N_of_ascii c = Otpauth.lookup !! c.
Proof.
  destruct c as [[] [] [] [] [] [] [] []]; vm_compute;
    (split; [intros H; first [discriminate H | repeat split] | split; reflexivity]).
Qed.

Lemma is_ascii_cons (x : ascii) (s : string) :
  JS.is_ascii (String x s) = true
  <-> (N_of_ascii x <? 128)%N = true /\ JS.is_ascii s = true.
Proof. unfold JS.is_ascii. cbn [list_ascii_of_string forallb]. apply andb_true_iff. Qed.

Lemma strip_ascii (s : string) :
  JS.is_ascii s = true ->
  Otpauth.strip_utf16 (Utf16.of_string s) = Utf16.of_string (Otpauth.strip s)
  /\ JS.is_ascii (Otpauth.strip s) = true.
Proof.
  intros Hs. unfold Otpauth.strip_utf16, Otpauth.strip.
  assert (Hf : List.filter (fun c => negb (Utf16.is_space c)) (Utf16.of_string s)
               = Utf16.of_string (JS.filter_chars (fun c => negb (JS.is_space c)) s)
               /\ JS.is_ascii (JS.filter_chars (fun c => negb (JS.is_space c)) s) = true).
  { induction s as [| x s IH]; [split; reflexivity |].
    apply is_ascii_cons in Hs as (Hx & Hs). destruct (IH Hs) as (IH1 & IH2).
    destruct (ascii_units x) as (Ha & _). destruct (Ha Hx) as (Hsp & _).
    change (Utf16.of_string (String x s)) with (N_of_ascii x :: Utf16.of_string s).
    cbn [List.filter JS.filter_chars]. rewrite Hsp.
    destruct (JS.is_space x); cbn [negb]; [split; assumption |].
    split; [change (Utf16.of_string (String x ?t)) with (N_of_ascii x :: Utf16.of_string t);
            f_equal; exact IH1 |].
    apply is_ascii_cons. split; assumption. }
  destruct Hf as (-> & Hf).
  generalize dependent (JS.filter_chars (fun c => negb (JS.is_space c)) s).
  clear s Hs. intros t Ht.
  induction t as [| x t IH]; [split; reflexivity |].
  apply is_ascii_cons in Ht as (Hx & Ht). destruct (IH Ht) as (IH1 & IH2).
  destruct (ascii_units x) as (_ & He & _).
  change (Utf16.of_string (String x t)) with (N_of_ascii x :: Utf16.of_string t).
  cbn [Utf16.dropWhileEnd JS.dropWhileEnd]. rewrite IH1, He.
  destruct (JS.dropWhileEnd (Ascii.eqb "=") t) as [| y r] eqn:Hd.
  - change (Utf16.of_string EmptyString) with (@nil N).
    destruct (Ascii.eqb "=" x); [split; reflexivity |].
    split; [reflexivity |]. apply is_ascii_cons. split; [exact Hx | reflexivity].
  - change (Utf16.of_string (String y r)) with (N_of_ascii y :: Utf16.of_string r).
    split; [reflexivity |]. apply is_ascii_cons. split; assumption.
Qed.

Lemma decode_loop_ascii (s : string) :
  forall bits value out,
    Otpauth.decode_loop_utf16 (Utf16.of_string s) bits value out
    = Utf16.of_result (Otpauth.decode_loop s bits value out).
Proof.
  induction s as [| x s IH]; intros bits value out; [reflexivity |].
  change (Utf16.of_string (String x s)) with (N_of_ascii x :: Utf16.of_string s).
  cbn [Otpauth.decode_loop_utf16 Otpauth.decode_loop].
  destruct (ascii_units x) as (_ & _ & ->).
  destruct (Otpauth.lookup !! x) as [v |].
  - cbv zeta. destruct (8 <=? bits + 5); apply IH.
  - unfold Otpauth.invalid_character_utf16, Otpauth.invalid_character.
    cbn [Utf16.of_result]. rewrite of_string_append. reflexivity.
Qed.

(** On ASCII text the decoder over code units is the decoder of the
    ASCII model, for every [toUpperCase] that is the ASCII one on
    ASCII text. *)
Lemma base32_ascii (toUpperCase : list N -> list N) (s : string) :
  (forall t, JS.is_ascii t = true ->
             toUpperCase (Utf16.of_string t) = Utf16.of_string (JS.toUpperCase t)) ->
  JS.is_ascii s = true ->
  Otpauth.base32DecodeToBytes_utf16 toUpperCase (Utf16.of_string s)
  = Utf16.of_result (Otpauth.base32DecodeToBytes s).
Proof.
  intros Hup Hs. unfold Otpauth.base32DecodeToBytes_utf16, Otpauth.base32DecodeToBytes.
  cbv zeta. destruct (strip_ascii s Hs) as (-> & Hstrip).
  rewrite (Hup _ Hstrip), of_string_length. unfold JS.len.
  destruct (Z.of_nat (String.length (JS.toUpperCase (Otpauth.strip s))) =? 0);
    [reflexivity | apply decode_loop_ascii].
Qed.

Lemma plain_toUpperCase_ascii (t : string) :
  JS.is_ascii t = true ->
  Plain.toUpperCase (Utf16.of_string t) = Utf16.of_string (JS.toUpperCase t).
Proof.
  induction t as [| x t IH]; intros Ht; [reflexivity |].
  apply is_ascii_cons in Ht as (Hx & Ht).
  destruct (ascii_units x) as (Ha & _). destruct (Ha Hx) as (_ & _ & Hu).
  change (Utf16.of_string (String x t)) with (N_of_ascii x :: Utf16.of_string t).
  unfold Plain.toUpperCase. cbn [map concat]. rewrite Hu.
  change (concat (map Plain.upper_unit (Utf16.of_string t)))
    with (Plain.toUpperCase (Utf16.of_string t)).
  rewrite (IH Ht). reflexivity.
Qed.

(** C6.  The text ["ß"] is the one code unit U+00DF: not white space,
    not ['='], and no symbol of the Base32 alphabet in either case, so
    that nothing is removed from it and the claim has the decoder
    fail.  [toUpperCase] makes ["SS"] of it, as the case mappings of
    Unicode have it, and the decoder returns the one byte 0x94. *)
Theorem base32DecodeToBytes_sharp_s (toUpperCase : list N -> list N) :
  toUpperCase [223%N] = [83%N; 83%N] ->
  Utf16.is_space 223 = false
  /\ N.eqb 61 223 = false
  /\ ~ In 223%N
       (Utf16.of_string "ABCDEFGHIJKLMNOPQRSTUVWXYZ234567abcdefghijklmnopqrstuvwxyz")
  /\ Otpauth.lookup_utf16 !! 223%N = None
  /\ Otpauth.strip_utf16 [223%N] = [223%N]
  /\ Otpauth.base32DecodeToBytes_utf16 toUpperCase [223%N] = Utf16.Returns [Byte.x94].
Proof.
  intros Hup. split; [reflexivity |]. split; [reflexivity |].
  split; [vm_compute; intuition discriminate |]. split; [reflexivity |].
  split; [reflexivity |].
  unfold Otpauth.base32DecodeToBytes_utf16. cbv zeta.
  change (Otpauth.strip_utf16 [223%N]) with [223%N]. rewrite Hup. reflexivity.
Qed.

Lemma base32DecodeToBytes_sharp_s_witness :
  Plain.toUpperCase [223%N] = [83%N; 83%N]
  /\ Otpauth.base32DecodeToBytes_utf16 Plain.toUpperCase [223%N]
     = Utf16.Returns [Byte.x94].
Proof.
  split; [reflexivity |].
  apply (base32DecodeToBytes_sharp_s Plain.toUpperCase). reflexivity.
Defined.

(** A no-break space, U+00A0, is white space of [\s] and is removed
    with the rest. *)
Example base32_no_break_space :
  Otpauth.base32DecodeToBytes_utf16 Plain.toUpperCase
    (Utf16.of_string "JBSW" ++ [160%N] ++ Utf16.of_string "Y3DP")
  = Utf16.Returns [Byte.x48; Byte.x65; Byte.x6c; Byte.x6c; Byte.x6f].
Proof. reflexivity. Qed.

(** ** The label of an otpauth URI *)

(** *** Strings: [take], [drop], [slice], [indexOf] and [trim] *)

Lemma take_all (s : string) (k : nat) : (String.length s <= k)%nat -> JS.take k s = s.
Proof.
  revert k. induction s as [| x s IH]; intros [| k] H; cbn in *; try reflexivity; try lia.
  f_equal. apply IH. lia.
Qed.

Lemma drop_length (s : string) (k : nat) :
  String.length (JS.drop k s) = (String.length s - k)%nat.
Proof.
  revert k. induction s as [| x s IH]; intros [| k]; cbn; try reflexivity. apply IH.
Qed.

Lemma take_append (a t : string) (k : nat) :
  (k <= String.length a)%nat -> JS.take k (a +:+ t) = JS.take k a.
Proof.
  revert k. induction a as [| x a IH]; intros [| k] H; cbn in H; try lia.
  - reflexivity.
  - destruct t; reflexivity.
  - change (String x (JS.take k (a +:+ t)) = String x (JS.take k a)).
    f_equal. apply IH. lia.
Qed.

Lemma drop_append (a t : string) (k : nat) :
  (k <= String.length a)%nat -> JS.drop k (a +:+ t) = JS.drop k a +:+ t.
Proof.
  revert k. induction a as [| x a IH]; intros [| k] H; cbn in H; try lia.
  - reflexivity.
  - reflexivity.
  - change (JS.drop k (a +:+ t) = JS.drop k a +:+ t). apply IH. lia.
Qed.

(** [s.slice(0, i)] and [s.slice(b)] for indices that are not negative. *)
Lemma slice_prefix (s : string) (i : Z) :
  0 <= i -> JS.slice s 0 (Some i) = JS.take (Z.to_nat i) s.
Proof.
  intros Hi. unfold JS.slice, JS.len. cbv zeta.
  destruct (Z.ltb_spec i 0); [lia |]. cbn [Z.ltb Z.compare].
  rewrite (Z.min_l 0) by lia. change (JS.drop (Z.to_nat 0) s) with s. rewrite Z.sub_0_r.
  destruct (Z.le_ge_cases i (Z.of_nat (String.length s))) as [Hle | Hge].
  - rewrite Z.min_l by lia. reflexivity.
  - rewrite Z.min_r by lia. rewrite Nat2Z.id.
    rewrite !take_all by lia. reflexivity.
Qed.

Lemma slice_suffix (s : string) (b : Z) :
  0 <= b -> JS.slice s b None = JS.drop (Z.to_nat b) s.
Proof.
  intros Hb. unfold JS.slice, JS.len. cbv zeta.
  destruct (Z.ltb_spec b 0); [lia |].
  destruct (Z.ltb_spec (Z.of_nat (String.length s)) 0); [lia |].
  rewrite (Z.min_l (Z.of_nat _) (Z.of_nat _)) by lia.
  destruct (Z.le_ge_cases b (Z.of_nat (String.length s))) as [Hle | Hge].
  - rewrite Z.min_l by lia. apply take_all. rewrite drop_length. lia.
  - rewrite Z.min_r by lia. rewrite Z.sub_diag, Nat2Z.id. cbn [Z.to_nat JS.take].
    assert (Hd0 : String.length (JS.drop (Z.to_nat b) s) = 0%nat)
      by (rewrite drop_length; lia).
    assert (Hd1 : String.length (JS.drop (String.length s) s) = 0%nat)
      by (rewrite drop_length; lia).
    destruct (JS.drop (Z.to_nat b) s); [| discriminate Hd0].
    destruct (JS.drop (String.length s) s); [| discriminate Hd1].
    reflexivity.
Qed.

(** A found index lies within the string. *)
Lemma indexOf_from_bounds (c : ascii) (s : string) (n : Z) :
  0 <= n ->
  JS.indexOf_from c s n = -1
  \/ n <= JS.indexOf_from c s n < n + JS.len s.
Proof.
  revert n. induction s as [| x s IH]; intros n Hn; [left; reflexivity |].
  cbn [JS.indexOf_from]. unfold JS.len. cbn [String.length].
  destruct (Ascii.eqb x c); [right; lia |].
  destruct (IH (n + 1)) as [H | H]; [lia | left; exact H | right].
  unfold JS.len in H. lia.
Qed.

Lemma indexOf_from_absent (c : ascii) (t : string) (n : Z) :
  (forall x, In x (list_ascii_of_string t) -> Ascii.eqb x c = false) ->
  JS.indexOf_from c t n = -1.
Proof.
  revert n. induction t as [| x t IH]; intros n H; [reflexivity |].
  cbn [JS.indexOf_from]. rewrite (H x) by (left; reflexivity).
  apply IH. intros y Hy. apply H. right. exact Hy.
Qed.

Lemma indexOf_from_append (c : ascii) (a t : string) (n : Z) :
  (forall x, In x (list_ascii_of_string t) -> Ascii.eqb x c = false) ->
  JS.indexOf_from c (a +:+ t) n = JS.indexOf_from c a n.
Proof.
  intros Ht. revert n. induction a as [| x a IH]; intros n.
  - apply indexOf_from_absent. exact Ht.
  - change (JS.indexOf_from c (String x (a +:+ t)) n = JS.indexOf_from c (String x a) n).
    cbn [JS.indexOf_from]. destruct (Ascii.eqb x c); [reflexivity | apply IH].
Qed.

Lemma dropWhileEnd_all (p : ascii -> bool) (t : string) :
  (forall c, In c (list_ascii_of_string t) -> p c = true) ->
  JS.dropWhileEnd p t = EmptyString.
Proof.
  induction t as [| x t IH]; intros H; [reflexivity |].
  cbn [JS.dropWhileEnd]. rewrite IH by (intros c Hc; apply H; right; exact Hc).
  rewrite (H x) by (left; reflexivity). reflexivity.
Qed.

Lemma dropWhileEnd_append (p : ascii -> bool) (a t : string) :
  (forall c, In c (list_ascii_of_string t) -> p c = true) ->
  JS.dropWhileEnd p (a +:+ t) = JS.dropWhileEnd p a.
Proof.
  intros Ht. induction a as [| x a IH].
  - apply dropWhileEnd_all. exact Ht.
  - change (JS.dropWhileEnd p (String x (a +:+ t)) = JS.dropWhileEnd p (String x a)).
    cbn [JS.dropWhileEnd]. rewrite IH. reflexivity.
Qed.

Lemma dropWhile_all (p : ascii -> bool) (t : string) :
  (forall c, In c (list_ascii_of_string t) -> p c = true) ->
  JS.dropWhile p t = EmptyString.
Proof.
  induction t as [| x t IH]; intros H; [reflexivity |].
  cbn [JS.dropWhile]. rewrite (H x) by (left; reflexivity).
  apply IH. intros c Hc. apply H. right. exact Hc.
Qed.

(** White space at the end does not change what [trim] returns. *)
Lemma trim_append_spaces (a t : string) :
  (forall c, In c (list_ascii_of_string t) -> JS.is_space c = true) ->
  JS.trim (a +:+ t) = JS.trim a.
Proof.
  intros Ht. unfold JS.trim. induction a as [| x a IH].
  - change (EmptyString +:+ t) with t. rewrite dropWhile_all by exact Ht. reflexivity.
  - change (String x a +:+ t) with (String x (a +:+ t)).
    cbn [JS.dropWhile]. destruct (JS.is_space x); [exact IH |].
    change (String x (a +:+ t)) with (String x a +:+ t).
    apply dropWhileEnd_append. exact Ht.
Qed.

Lemma dropWhileEnd_head (p : ascii -> bool) (x : ascii) (s : string) :
  p x = false -> exists r, JS.dropWhileEnd p (String x s) = String x r.
Proof.
  intros Hx. cbn [JS.dropWhileEnd].
  destruct (JS.dropWhileEnd p s); [rewrite Hx |]; eexists; reflexivity.
Qed.

Lemma indexOf_from_shift (c : ascii) (s : string) (n : Z) :
  JS.indexOf_from c s n
  = if JS.indexOf_from c s 0 =? -1 then -1 else n + JS.indexOf_from c s 0.
Proof.
  revert n. induction s as [| x s IH]; intros n; [reflexivity |].
  cbn [JS.indexOf_from]. destruct (Ascii.eqb x c).
  - cbn. lia.
  - rewrite (IH (n + 1)), (IH (0 + 1)).
    destruct (Z.eqb_spec (JS.indexOf_from c s 0) (-1)) as [E | E]; [reflexivity |].
    destruct (indexOf_from_bounds c s 0) as [H | H]; [lia | congruence |].
    destruct (Z.eqb_spec (0 + 1 + JS.indexOf_from c s 0) (-1)); lia.
Qed.

Lemma space_not_colon (c : ascii) : JS.is_space c = true -> Ascii.eqb c ":" = false.
Proof.
  intros H. destruct (Ascii.eqb_spec c ":") as [-> |]; [discriminate H | reflexivity].
Qed.

(** A path that starts with a character other than white space. *)
Lemma splitLabel_body (cl t : string) (x : ascii) (r : string) :
  cl = String x r -> JS.is_space x = false ->
  JS.dropWhileEnd JS.is_space cl = cl ->
  (forall c, In c (list_ascii_of_string t) -> JS.is_space c = true) ->
  0 < JS.indexOf (cl +:+ t) ":" ->
  Otpauth.splitLabel (cl +:+ t) = OtpauthSpec.label_of_path (cl +:+ t).
Proof.
  intros Hcl Hx Hend Ht Hi.
  assert (Htrim : JS.trim (cl +:+ t) = cl).
  { rewrite trim_append_spaces by exact Ht. unfold JS.trim.
    rewrite Hcl. cbn [JS.dropWhile]. rewrite Hx. rewrite <- Hcl. exact Hend. }
  assert (Hidx : JS.indexOf (cl +:+ t) ":" = JS.indexOf cl ":").
  { apply indexOf_from_append. intros c Hc. apply space_not_colon, Ht, Hc. }
  unfold Otpauth.splitLabel, OtpauthSpec.label_of_path. cbv zeta.
  rewrite Htrim, Hidx in *.
  set (i := JS.indexOf cl ":") in *.
  destruct (indexOf_from_bounds ":" cl 0) as [Hb | Hb]; [lia | fold (JS.indexOf cl ":") in Hb; lia |].
  fold (JS.indexOf cl ":") in Hb. fold i in Hb. unfold JS.len in Hb.
  destruct (Z.ltb_spec 0 i) as [_ |]; [| lia].
  rewrite !slice_prefix by lia. rewrite !slice_suffix by lia.
  rewrite take_append by lia. rewrite drop_append by lia.
  rewrite (trim_append_spaces (JS.drop _ cl)) by exact Ht.
  assert (Hcand : exists r', JS.trim (JS.take (Z.to_nat i) cl) = String x r').
  { rewrite Hcl. destruct (Z.to_nat i) as [| k] eqn:Hk; [lia |].
    cbn [JS.take]. unfold JS.trim. cbn [JS.dropWhile]. rewrite Hx.
    apply dropWhileEnd_head. exact Hx. }
  destruct Hcand as (r' & ->). reflexivity.
Qed.

(** The label and the candidate issuer, from the path as decoded: the
    text before the first colon, trimmed, is the candidate and the
    remainder, trimmed, the label; the whole trimmed path stays the
    label when the candidate is empty or the remainder is. *)
Lemma splitLabel_path (path : string) :
  0 < JS.indexOf path ":" -> Otpauth.splitLabel path = OtpauthSpec.label_of_path path.
Proof.
  induction path as [| x s IH]; intros Hi; [discriminate Hi |].
  destruct (JS.is_space x) eqn:Hx.
  - (* a leading white space is not part of the label *)
    assert (Hxc : Ascii.eqb x ":" = false) by (apply space_not_colon; exact Hx).
    assert (Htrim : JS.trim (String x s) = JS.trim s)
      by (unfold JS.trim; cbn [JS.dropWhile]; rewrite Hx; reflexivity).
    assert (Hsplit : Otpauth.splitLabel (String x s) = Otpauth.splitLabel s)
      by (unfold Otpauth.splitLabel; rewrite Htrim; reflexivity).
    assert (Hidx : JS.indexOf (String x s) ":" = JS.indexOf s ":" + 1
                   /\ 0 <= JS.indexOf s ":").
    { unfold JS.indexOf in *. cbn [JS.indexOf_from] in *. rewrite Hxc in *.
      rewrite indexOf_from_shift in *.
      destruct (Z.eqb_spec (JS.indexOf_from ":" s 0) (-1)); [lia |].
      destruct (indexOf_from_bounds ":" s 0); lia. }
    destruct Hidx as (Hidx & Hj).
    rewrite Hsplit. unfold OtpauthSpec.label_of_path. cbv zeta. rewrite Htrim, Hidx.
    set (j := JS.indexOf s ":") in *.
    rewrite (slice_prefix (String x s)), (slice_suffix (String x s)) by lia.
    replace (Z.to_nat (j + 1)) with (S (Z.to_nat j)) by lia.
    replace (Z.to_nat (j + 1 + 1)) with (S (Z.to_nat (j + 1))) by lia.
    cbn [JS.take JS.drop].
    assert (Hcand : JS.trim (String x (JS.take (Z.to_nat j) s))
                    = JS.trim (JS.take (Z.to_nat j) s))
      by (unfold JS.trim; cbn [JS.dropWhile]; rewrite Hx; reflexivity).
    rewrite Hcand.
    destruct (Z.eq_dec j 0) as [Hj0 | Hj0].
    + rewrite Hj0. cbn [Z.to_nat JS.take].
      replace (JS.trim (JS.take (Z.to_nat 0) s)) with EmptyString
        by (destruct s; reflexivity).
      destruct s as [| y s']; [discriminate Hj0 |].
      unfold j, JS.indexOf in Hj0. cbn [JS.indexOf_from] in Hj0.
      destruct (Ascii.eqb_spec y ":") as [-> | Hy].
      * unfold Otpauth.splitLabel. cbv zeta.
        destruct (dropWhileEnd_head JS.is_space ":" s' eq_refl) as (r & Hr).
        unfold JS.trim. change (JS.dropWhile JS.is_space (String ":" s')) with (String ":" s').
        rewrite Hr. reflexivity.
      * rewrite indexOf_from_shift in Hj0.
        destruct (Z.eqb_spec (JS.indexOf_from ":" s' 0) (-1)); [lia |].
        destruct (indexOf_from_bounds ":" s' 0); lia.
    + rewrite IH by lia. unfold OtpauthSpec.label_of_path. cbv zeta. fold j.
      rewrite slice_prefix, slice_suffix by lia. reflexivity.
  - (* the path starts with the label *)
    destruct (dropWhileEnd_spec JS.is_space (String x s)) as (t & Hs & Ht & _).
    destruct (dropWhileEnd_head JS.is_space x s Hx) as (r & Hr).
    rewrite Hr in Hs.
    assert (Hend : JS.dropWhileEnd JS.is_space (String x r) = String x r).
    { rewrite <- (dropWhileEnd_append JS.is_space (String x r) t Ht).
      rewrite <- Hs. exact Hr. }
    rewrite Hs in *.
    exact (splitLabel_body (String x r) t x r eq_refl Hx Hend Ht Hi).
Qed.

Section Parse.

Variable URL_new : string -> option Otpauth.URL.
Variable decodeURIComponent : string -> option string.

Local Abbreviation parseOtpauthUri := (Otpauth.parseOtpauthUri URL_new decodeURIComponent).

(** What a successful parse took from the path and the query. *)
Lemma parseOtpauthUri_ok (uri : string) (url : Otpauth.URL) (path : string)
    (e : Otpauth.ParsedTOTPEntry) :
  URL_new (JS.trim uri) = Some url ->
  decodeURIComponent (JS.dropWhile (Ascii.eqb "/") (Otpauth.pathname url)) = Some path ->
  parseOtpauthUri uri = Ok e ->
  Otpauth.label e = fst (Otpauth.splitLabel path)
  /\ Otpauth.issuer e
     = match Otpauth.truthy (Otpauth.searchParams_get (Otpauth.searchParams url) "issuer") with
       | Some i => Some i
       | None => snd (Otpauth.splitLabel path)
       end
  /\ exists secretParam,
       Otpauth.searchParams_get (Otpauth.searchParams url) "secret" = Some secretParam
       /\ secretParam <> EmptyString
       /\ Otpauth.base32DecodeToBytes secretParam = Ok (Otpauth.secretBytes e).
Proof.
  intros Hurl Hpath. unfold Otpauth.parseOtpauthUri. cbv zeta.
  rewrite Hurl.
  destruct (negb (Otpauth.protocol url =? "otpauth:")%string); [discriminate |].
  destruct (negb (JS.toLowerCase (Otpauth.hostname url) =? "totp")%string); [discriminate |].
  rewrite Hpath. destruct (Otpauth.splitLabel path) as [label issuerFromLabel].
  destruct (Otpauth.searchParams_get (Otpauth.searchParams url) "secret")
    as [[| c secretParam] |]; cbn [Otpauth.truthy Otpauth.nonempty]; try discriminate.
  destruct (Otpauth.base32DecodeToBytes (String c secretParam)) as [bytes | err] eqn:Hb;
    cbn [mbind result_bind]; [| discriminate].
  intros [= <-]. cbn [Otpauth.label Otpauth.issuer Otpauth.secretBytes fst snd].
  split; [reflexivity |]. split; [reflexivity |].
  exists (String c secretParam). split; [reflexivity |]. split; [discriminate | exact Hb].
Qed.

(** C4, amended.  When the decoded path, without its leading slashes,
    has its first colon after at least one character, a successful
    parse takes the text before that colon, trimmed, as the candidate
    issuer, and the remainder, trimmed, as the label; the whole
    trimmed path stays the label when the candidate issuer is empty,
    and also when the trimmed remainder is empty.  The candidate is
    the issuer unless the query gives one. *)
Theorem parseOtpauthUri_label (uri : string) (url : Otpauth.URL) (path : string)
    (e : Otpauth.ParsedTOTPEntry) :
  URL_new (JS.trim uri) = Some url ->
  decodeURIComponent (JS.dropWhile (Ascii.eqb "/") (Otpauth.pathname url)) = Some path ->
  0 < JS.indexOf path ":" ->
  parseOtpauthUri uri = Ok e ->
  let i := JS.indexOf path ":" in
  let candidate := JS.trim (JS.slice path 0 (Some i)) in
  let remainder := JS.trim (JS.slice path (i + 1) None) in
  Otpauth.label e
  = (if decide (candidate = EmptyString \/ remainder = EmptyString)
     then JS.trim path else remainder)
  /\ Otpauth.issuer e
     = match Otpauth.truthy (Otpauth.searchParams_get (Otpauth.searchParams url) "issuer") with
       | Some i => Some i
       | None => Otpauth.nonempty candidate
       end.
Proof.
  intros Hurl Hpath Hi Hok. cbv zeta.
  destruct (parseOtpauthUri_ok uri url path e Hurl Hpath Hok) as (Hl & Hiss & _).
  rewrite Hl, Hiss, (splitLabel_path path Hi).
  unfold OtpauthSpec.label_of_path. cbv zeta.
  destruct (JS.trim (JS.slice path 0 (Some (JS.indexOf path ":")))) as [| c cand].
  - split; [| reflexivity]. cbn [fst]. destruct (decide _) as [_ | N]; [reflexivity |].
    exfalso. apply N. left. reflexivity.
  - split; [| reflexivity]. cbn [fst].
    destruct (JS.trim (JS.slice path (JS.indexOf path ":" + 1) None)) as [| c' rem].
    + destruct (decide _) as [_ | N]; [reflexivity |].
      exfalso. apply N. right. reflexivity.
    + destruct (decide _) as [[H | H] | _]; [discriminate H | discriminate H | reflexivity].
Qed.


End Parse.

(** C4 as stated fails on [otpauth://totp/Issuer:?secret=JBSWY3DP].  The
    decoded path ["Issuer:"] has its first colon at index 6, the
    candidate issuer ["Issuer"] is not empty and the remainder after the
    colon is empty; the parse succeeds and its label is ["Issuer:"], the
    whole path, not the empty remainder. *)
Lemma parseOtpauthUri_empty_remainder :
  let uri := "otpauth://totp/Issuer:?secret=JBSWY3DP" in
  let path := "Issuer:" in
  (exists url,
     Plain.URL_new (JS.trim uri) = Some url
     /\ Plain.decodeURIComponent (JS.dropWhile (Ascii.eqb "/") (Otpauth.pathname url))
        = Some path)
  /\ JS.indexOf path ":" = 6
  /\ JS.trim (JS.slice path 0 (Some 6)) = "Issuer"
  /\ JS.trim (JS.slice path (6 + 1) None) = EmptyString
  /\ exists e,
       Otpauth.parseOtpauthUri Plain.URL_new Plain.decodeURIComponent uri = Ok e
       /\ Otpauth.label e = "Issuer:"
       /\ Otpauth.issuer e = Some "Issuer"
       /\ Otpauth.label e <> JS.trim (JS.slice path (6 + 1) None).
Proof.
  cbv zeta. split; [eexists; split; reflexivity |].
  repeat (split; [reflexivity |]).
  eexists. split; [reflexivity |]. repeat (split; [reflexivity |]).
  discriminate.
Qed.

(** On [otpauth://totp/Example:alice@example.com?secret=JBSWY3DP] the
    label is ["alice@example.com"] and the issuer ["Example"]. *)
Lemma parseOtpauthUri_label_witness :
  let path := "Example:alice@example.com" in
  let e := {| Otpauth.label := "alice@example.com";
              Otpauth.issuer := Some "Example";
              Otpauth.secretBytes := [Byte.x48; Byte.x65; Byte.x6c; Byte.x6c; Byte.x6f];
              Otpauth.algorithm := Totp.SHA1;
              Otpauth.digits := 6;
              Otpauth.period := 30 |} in
  Otpauth.label e
  = (if decide (JS.trim (JS.slice path 0 (Some (JS.indexOf path ":"))) = EmptyString
                \/ JS.trim (JS.slice path (JS.indexOf path ":" + 1) None) = EmptyString)
     then JS.trim path
     else JS.trim (JS.slice path (JS.indexOf path ":" + 1) None))
  /\ Otpauth.issuer e
     = match Otpauth.truthy (Otpauth.searchParams_get [("secret", "JBSWY3DP")] "issuer") with
       | Some i => Some i
       | None => Otpauth.nonempty (JS.trim (JS.slice path 0 (Some (JS.indexOf path ":"))))
       end.
Proof.
  exact (parseOtpauthUri_label Plain.URL_new Plain.decodeURIComponent
           "otpauth://totp/Example:alice@example.com?secret=JBSWY3DP"
           {| Otpauth.protocol := "otpauth:";
              Otpauth.hostname := "totp";
              Otpauth.pathname := "/Example:alice@example.com";
              Otpauth.searchParams := [("secret", "JBSWY3DP")] |}
           "Example:alice@example.com"
           _ eq_refl eq_refl eq_refl eq_refl).
Defined.



(** ** The vault store *)

Lemma sort_insert_perm {A} (cmp : A -> A -> Z) (x : A) (l : list A) :
  Permutation (x :: l) (JS.sort_insert cmp x l).
Proof.
  induction l as [| y l IH]; cbn [JS.sort_insert]; [reflexivity |].
  destruct (cmp x y <=? 0); [reflexivity |].
  rewrite perm_swap. apply perm_skip. exact IH.
Qed.

Lemma sort_perm {A} (cmp : A -> A -> Z) (l : list A) : Permutation l (JS.sort cmp l).
Proof.
  unfold JS.sort. induction l as [| x l IH]; [reflexivity |].
  cbn [foldr]. rewrite <- sort_insert_perm. apply perm_skip. exact IH.
Qed.

Section SortByKey.

Context {A : Type} (key : A -> Z).

Let le (a b : A) : Prop := key a <= key b.
Let cmp (a b : A) : Z := key a - key b.

Lemma sort_insert_sorted (x : A) (l : list A) :
  StronglySorted le l -> StronglySorted le (JS.sort_insert cmp x l).
Proof.
  induction 1 as [| y l Hl IH Hy]; cbn [JS.sort_insert].
  - repeat constructor.
  - subst cmp. cbv beta. destruct (Z.leb_spec (key x - key y) 0) as [Hle | Hgt].
    + constructor; [constructor; assumption |].
      constructor; [unfold le; lia |].
      eapply Forall_impl; [exact Hy |]. unfold le. cbv beta. intros z Hz. lia.
    + constructor; [exact IH |].
      eapply Permutation_Forall; [apply sort_insert_perm |].
      constructor; [unfold le; lia | exact Hy].
Qed.

Lemma sort_sorted (l : list A) : StronglySorted le (JS.sort cmp l).
Proof.
  unfold JS.sort. induction l as [| x l IH]; [constructor |].
  cbn [foldr]. apply sort_insert_sorted. exact IH.
Qed.

End SortByKey.

(** [listSecrets] returns every record of the store, in ascending
    order of [order]. *)
Lemma listSecrets_sorted (db : Db.DB) :
  Permutation (Db.secrets db) (Db.listSecrets db)
  /\ StronglySorted (fun r s => Db.order r <= Db.order s) (Db.listSecrets db).
Proof.
  split; [apply sort_perm |]. apply (sort_sorted Db.order).
Qed.

Lemma Math_max_spec (xs : list Z) :
  forall x,
    (forall y, In y (x :: xs) -> y <= JS.Math_max x xs)
    /\ In (JS.Math_max x xs) (x :: xs).
Proof.
  unfold JS.Math_max. induction xs as [| z xs IH]; intros x.
  - cbn. split; [intros y [<- | []]; lia | left; reflexivity].
  - cbn [fold_left]. destruct (IH (Z.max x z)) as (Hub & Hin). split.
    + intros y [Hy | [Hy | Hy]].
      * specialize (Hub (Z.max x z) (or_introl eq_refl)). lia.
      * specialize (Hub (Z.max x z) (or_introl eq_refl)). lia.
      * apply Hub. right. exact Hy.
    + destruct Hin as [Hin | Hin]; [| right; right; exact Hin].
      rewrite <- Hin. destruct (Z.max_spec x z) as [[_ ->] | [_ ->]];
        [right; left | left]; reflexivity.
Qed.

(** The order that [addSecret] assigns: 1 in an empty store, and
    otherwise one more than the greatest order of the store. *)
Lemma addSecret_order (now : Z) (rnd : list byte) (input : Db.NewSecretInput)
    (db db' : Db.DB) (rec : Db.DBSecretRecord) :
  Db.addSecret now rnd input db = (db', Ok rec) ->
  (Db.secrets db = [] -> Db.order rec = 1)
  /\ (Db.secrets db <> [] ->
      (forall r, In r (Db.secrets db) -> Db.order r < Db.order rec)
      /\ exists r, In r (Db.secrets db) /\ Db.order rec = Db.order r + 1).
Proof.
  unfold Db.addSecret. cbv zeta.
  destruct (Db.store_add _ _) as [s |]; [| discriminate].
  intros [= _ <-]. cbn [Db.order].
  pose proof (sort_perm (fun a b => Db.order a - Db.order b) (Db.secrets db)) as Hperm.
  fold (Db.listSecrets db) in Hperm.
  destruct (Db.listSecrets db) as [| s0 rest] eqn:Hl.
  - symmetry in Hperm. apply Permutation_nil in Hperm. split; [reflexivity | congruence].
  - split; [intros Hnil; rewrite Hnil in Hperm; apply Permutation_nil in Hperm; discriminate |].
    intros _. destruct (Math_max_spec (map Db.order rest) (Db.order s0)) as (Hub & Hin).
    change (Db.order s0 :: map Db.order rest) with (map Db.order (s0 :: rest)) in Hub, Hin.
    split.
    + intros r Hr.
      assert (Db.order r <= JS.Math_max (Db.order s0) (map Db.order rest)); [| lia].
      apply Hub. apply in_map. eapply Permutation_in; [exact Hperm | exact Hr].
    + apply in_map_iff in Hin as (r & Hr & Hin). exists r. split.
      * eapply Permutation_in; [symmetry; exact Hperm | exact Hin].
      * rewrite Hr. reflexivity.
Qed.

Lemma String_compare_refl (s : string) : String.compare s s = Eq.
Proof.
  induction s as [| c s IH]; [reflexivity |]. cbn [String.compare].
  unfold Ascii.compare. rewrite N.compare_refl. exact IH.
Qed.

Lemma String_compare_neq (s t : string) : s <> t -> String.compare s t <> Eq.
Proof. intros H E. apply H. apply String.compare_eq_iff. exact E. Qed.

(** Runs the store on records whose ids are compared by the equations
    of the context. *)
Ltac store_run :=
  repeat (cbn [Db.secrets Db.meta Db.store_get Db.store_put JS.sort foldr
               JS.sort_insert Db.id Db.order Db.set_order map JS.Math_max
               fold_left Db.reorder_loop Z.add Z.sub Z.leb Z.compare Z.opp Z.max
               Z.pos_sub Pos.add Pos.succ Pos.compare Pos.compare_cont
               Pos.pred_double Z.succ_double Z.pred_double Z.double];
          repeat match goal with
                 | H : String.eqb _ _ = _ |- _ => rewrite H
                 | H : String.compare _ _ = _ |- _ => rewrite H
                 end);
  reflexivity.

(** C7.  From an empty store, three additions (their ids distinct) give
    the records the orders 1, 2 and 3, and [listSecrets] returns them in
    the order of their addition; after [reorderSecrets] with the one
    pair (id of the third, 0), [listSecrets] returns the third record,
    its order now 0, then the first and the second. *)
Theorem add_list_reorder (db0 : Db.DB) (t1 t2 t3 : Z) (clock : nat -> Z)
    (rA rB rC : list byte) (iA iB iC : Db.NewSecretInput) :
  Db.secrets db0 = [] ->
  Db.generateId rA <> Db.generateId rB ->
  Db.generateId rA <> Db.generateId rC ->
  Db.generateId rB <> Db.generateId rC ->
  exists A B C db1 db2 db3,
    Db.addSecret t1 rA iA db0 = (db1, Ok A)
    /\ Db.addSecret t2 rB iB db1 = (db2, Ok B)
    /\ Db.addSecret t3 rC iC db2 = (db3, Ok C)
    /\ (Db.order A = 1 /\ Db.order B = 2 /\ Db.order C = 3)
    /\ Db.listSecrets db3 = [A; B; C]
    /\ Db.listSecrets (Db.reorderSecrets clock [(Db.id C, 0)] db3)
       = [Db.set_order C 0 (clock 0%nat); A; B].
Proof.
  destruct db0 as [s0 m0]. cbn [Db.secrets]. intros -> Hab Hac Hbc.
  remember (Db.generateId rA) as a eqn:Ha.
  remember (Db.generateId rB) as b eqn:Hb.
  remember (Db.generateId rC) as c eqn:Hc.
  assert (Eab : String.eqb a b = false) by (apply String.eqb_neq; exact Hab).
  assert (Eac : String.eqb a c = false) by (apply String.eqb_neq; exact Hac).
  assert (Ebc : String.eqb b c = false) by (apply String.eqb_neq; exact Hbc).
  assert (Ecc : String.eqb c c = true) by apply String.eqb_refl.
  pose proof (String_compare_refl c) as Ccc.
  assert (Cba : String.compare b a <> Eq) by (apply String_compare_neq; congruence).
  assert (Cca : String.compare c a <> Eq) by (apply String_compare_neq; congruence).
  assert (Ccb : String.compare c b <> Eq) by (apply String_compare_neq; congruence).
  destruct (String.compare b a) eqn:Hba; [congruence | |];
    destruct (String.compare c a) eqn:Hca; try congruence;
    destruct (String.compare c b) eqn:Hcb; try congruence;
    do 6 eexists;
    unfold Db.addSecret, Db.store_add, Db.listSecrets, Db.reorderSecrets, Db.set_secrets;
    rewrite <- Ha, <- Hb, <- Hc;
    (split; [store_run | split; [store_run | split; [store_run |]]]);
    (split; [split; [store_run | split; store_run] | split; store_run]).
Qed.

(** Three additions to the store of a fresh database, under the ids
    ["01"], ["02"] and ["03"]. *)
Lemma add_list_reorder_witness :
  let input l := {| Db.n_label := l; Db.n_issuer := None; Db.n_alg := Totp.SHA1;
                    Db.n_digits := 6; Db.n_period := 30;
                    Db.n_encSecret := [Byte.x2a]; Db.n_iv := [Byte.x07] |} in
  exists A B C db1 db2 db3,
    Db.addSecret 1000 [Byte.x01] (input "a") Db.fresh = (db1, Ok A)
    /\ Db.addSecret 2000 [Byte.x02] (input "b") db1 = (db2, Ok B)
    /\ Db.addSecret 3000 [Byte.x03] (input "c") db2 = (db3, Ok C)
    /\ (Db.order A = 1 /\ Db.order B = 2 /\ Db.order C = 3)
    /\ Db.listSecrets db3 = [A; B; C]
    /\ Db.listSecrets (Db.reorderSecrets (fun _ => 4000) [(Db.id C, 0)] db3)
       = [Db.set_order C 0 4000; A; B].
Proof.
  cbv zeta.
  apply (add_list_reorder Db.fresh 1000 2000 3000 (fun _ => 4000)
           [Byte.x01] [Byte.x02] [Byte.x03]).
  - reflexivity.
  - vm_compute. discriminate.
  - vm_compute. discriminate.
  - vm_compute. discriminate.
Defined.

(** ** The vault bootstrap *)

Section Unlock.

Variable hmac : list byte -> list byte -> Totp.TOTPHashAlg -> list byte.
Variable aes_gcm_decrypt :
  Crypto.CryptoKey -> list byte -> list byte -> option (list byte).

Local Abbreviation decrypts key r :=
  (aes_gcm_decrypt key (Db.iv r) (Db.encSecret r)).

(** The loop stops at the first record that does not authenticate:
    the cache has received the records before it and nothing else. *)
Lemma unlock_loop_stops (key : Crypto.CryptoKey) (bad : Db.DBSecretRecord)
    (post : list Db.DBSecretRecord) (pre : list Db.DBSecretRecord) :
  forall cache : gmap string Main.DecryptedEntry,
    (forall r, In r pre -> decrypts key r <> None) ->
    decrypts key bad = None ->
    NoDup (map Db.id pre) ->
    exists cache',
      Main.unlock_loop aes_gcm_decrypt key (pre ++ bad :: post) cache
      = (cache', Err OperationError)
      /\ (forall r, In r pre ->
            exists pt, decrypts key r = Some pt
                       /\ cache' !! Db.id r = Some (Main.entry_of r pt))
      /\ (forall k, ~ In k (map Db.id pre) -> cache' !! k = cache !! k).
Proof.
  induction pre as [| r pre IH]; intros cache Hpre Hbad Hnd.
  - exists cache. cbn [app Main.unlock_loop]. unfold Crypto.decryptAESGCM.
    rewrite Hbad. split; [reflexivity |]. split; [intros r [] | reflexivity].
  - cbn [app Main.unlock_loop]. unfold Crypto.decryptAESGCM.
    destruct (decrypts key r) as [pt |] eqn:Hr;
      [| exfalso; apply (Hpre r); [left; reflexivity | exact Hr]].
    cbn [map] in Hnd. apply NoDup_cons in Hnd as (Hnotin & Hnd).
    rewrite list_elem_of_In in Hnotin.
    destruct (IH (<[Db.id r := Main.entry_of r pt]> cache)) as (cache' & Hrun & Hin & Hout);
      [intros r' Hr'; apply Hpre; right; exact Hr' | exact Hbad | exact Hnd |].
    exists cache'. split; [exact Hrun |]. split.
    + intros r' [<- | Hr'].
      * exists pt. split; [exact Hr |].
        rewrite (Hout _ Hnotin). apply lookup_insert_eq.
      * apply Hin. exact Hr'.
    + intros k Hk. cbn [map] in Hk.
      rewrite Hout by (intros H; apply Hk; right; exact H).
      apply lookup_insert_ne. intros E. apply Hk. left. exact E.
Qed.

(** When every record authenticates, the loop loads them all. *)
Lemma unlock_loop_all (key : Crypto.CryptoKey) (records : list Db.DBSecretRecord) :
  forall cache : gmap string Main.DecryptedEntry,
    (forall r, In r records -> decrypts key r <> None) ->
    NoDup (map Db.id records) ->
    exists cache',
      Main.unlock_loop aes_gcm_decrypt key records cache = (cache', Ok ())
      /\ (forall r, In r records ->
            exists pt, decrypts key r = Some pt
                       /\ cache' !! Db.id r = Some (Main.entry_of r pt))
      /\ (forall k, ~ In k (map Db.id records) -> cache' !! k = cache !! k).
Proof.
  induction records as [| r records IH]; intros cache Hall Hnd.
  - exists cache. split; [reflexivity |]. split; [intros r [] | reflexivity].
  - cbn [Main.unlock_loop]. unfold Crypto.decryptAESGCM.
    destruct (decrypts key r) as [pt |] eqn:Hr;
      [| exfalso; apply (Hall r); [left; reflexivity | exact Hr]].
    cbn [map] in Hnd. apply NoDup_cons in Hnd as (Hnotin & Hnd).
    rewrite list_elem_of_In in Hnotin.
    destruct (IH (<[Db.id r := Main.entry_of r pt]> cache)) as (cache' & Hrun & Hin & Hout);
      [intros r' Hr'; apply Hall; right; exact Hr' | exact Hnd |].
    exists cache'. split; [exact Hrun |]. split.
    + intros r' [<- | Hr'].
      * exists pt. split; [exact Hr |].
        rewrite (Hout _ Hnotin). apply lookup_insert_eq.
      * apply Hin. exact Hr'.
    + intros k Hk. cbn [map] in Hk.
      rewrite Hout by (intros H; apply Hk; right; exact H).
      apply lookup_insert_ne. intros E. apply Hk. left. exact E.
Qed.

(** When the session key is there and the listed records are
    [pre ++ bad :: post], where the records of [pre] authenticate and
    [bad] does not, [unlock] fails with the error of the decryption
    before it draws anything: the cache holds the records of [pre]
    only, neither [bad] nor any record of [post], and the ticker is
    not started by [unlock]. *)
Lemma unlock_stops_at_first_failure (rnd : list byte) (clock : nat -> Z)
    (a a1 : Main.App) (key : Crypto.CryptoKey) (pre post : list Db.DBSecretRecord)
    (bad : Db.DBSecretRecord) :
  Main.ensureSessionKey rnd a = (a1, Ok ()) ->
  Main.sessionKey a1 = Some key ->
  Db.listSecrets (Main.db a1) = pre ++ bad :: post ->
  NoDup (map Db.id (pre ++ bad :: post)) ->
  (forall r, In r pre -> decrypts key r <> None) ->
  decrypts key bad = None ->
  exists a',
    Main.unlock hmac aes_gcm_decrypt rnd clock a = (a', Err OperationError)
    /\ (forall r, In r pre ->
          exists pt, decrypts key r = Some pt
                     /\ Main.decryptedCache a' !! Db.id r = Some (Main.entry_of r pt))
    /\ (forall r, In r (bad :: post) -> Main.decryptedCache a' !! Db.id r = None)
    /\ Main.tickTimer a' = Main.tickTimer a1.
Proof.
  intros Hkey Hk Hlist Hnd Hpre Hbad.
  rewrite map_app in Hnd. apply NoDup_app in Hnd as (Hnd_pre & Hdisj & _).
  destruct (unlock_loop_stops key bad post pre ∅ Hpre Hbad Hnd_pre)
    as (cache & Hrun & Hin & Hout).
  exists (Main.set_decryptedCache a1 cache).
  unfold Main.unlock. rewrite Hkey, Hk, Hlist, Hrun.
  split; [reflexivity |]. split; [exact Hin |]. split; [| reflexivity].
  intros r Hr. cbn [Main.set_decryptedCache Main.decryptedCache].
  rewrite Hout; [apply lookup_empty |].
  intros Hc. apply (Hdisj (Db.id r)); apply list_elem_of_In;
    [exact Hc | apply in_map; exact Hr].
Qed.

End Unlock.

(** After [ensureSessionKey] has succeeded there is a session key. *)
Lemma ensureSessionKey_key (rnd : list byte) (a a1 : Main.App) :
  Main.ensureSessionKey rnd a = (a1, Ok ()) ->
  exists key, Main.sessionKey a1 = Some key.
Proof.
  unfold Main.ensureSessionKey.
  destruct (Main.sessionKey a) as [k |] eqn:Hk.
  - intros [= <-]. exists k. exact Hk.
  - destruct (match Db.metaGet "appKey" (Main.db a) with
              | Some v => _
              | None => _
              end) as [keyBytes a0].
    destruct (Main.importKey keyBytes) as [k | e]; [| discriminate].
    intros [= <-]. exists k. reflexivity.
Qed.

(** C1.  The vault holds the three records ["00"], ["01"] and ["02"],
    listed in that order; the second does not authenticate, the first
    and the third do.  [unlock] fails with the error of the decryption
    at the second record: the first record is in the cache, and the
    third is not, although it authenticates: the bad record has kept
    it from loading.  [init] announces the failure, draws the one card
    of the first record and starts the ticker. *)
Theorem unlock_leaves_later_record_out :
  let a := Sample.vault [Sample.first; Sample.bad; Sample.last] in
  let clock := fun _ : nat => 59000 in
  let decrypts r :=
    Plain.aes_gcm_decrypt Sample.key (Db.iv r) (Db.encSecret r) in
  Db.listSecrets (Main.db a) = [Sample.first; Sample.bad; Sample.last]
  /\ decrypts Sample.first = Some [Byte.x48; Byte.x69]
  /\ decrypts Sample.bad = None
  /\ decrypts Sample.last = Some [Byte.x48; Byte.x69]
  /\ (exists a',
        Main.unlock Plain.hmac Plain.aes_gcm_decrypt [] clock a
        = (a', Err OperationError)
        /\ Main.decryptedCache a' !! Db.id Sample.first
           = Some (Main.entry_of Sample.first [Byte.x48; Byte.x69])
        /\ Main.decryptedCache a' !! Db.id Sample.bad = None
        /\ Main.decryptedCache a' !! Db.id Sample.last = None
        /\ Main.tickTimer a' = false)
  /\ exists a'' drawn,
       Main.init Plain.hmac Plain.aes_gcm_decrypt [] clock clock a
       = (a'', Some Main.load_failed, Ok ())
       /\ Main.refreshList Plain.hmac clock a'' = Ok drawn
       /\ map (fun c => Main.id (fst c)) drawn = ["00"]
       /\ Main.decryptedCache a'' !! Db.id Sample.last = None
       /\ Main.tickTimer a'' = true.
Proof.
  cbv zeta. split; [reflexivity |]. split; [reflexivity |]. split; [reflexivity |].
  split; [reflexivity |]. split.
  - eexists. split; [vm_compute; reflexivity |]. repeat split.
  - eexists. eexists. split; [vm_compute; reflexivity |].
    split; [vm_compute; reflexivity |]. repeat split.
Qed.

(** ** Test vectors *)

(** RFC 4226, appendix D: the codes of the counters 0 to 9. *)
Example rfc4226_appendix_D :
  map (fun c => Totp.generateTOTPForStep Plain.hmac Sample.rfc_secret c 6 Totp.SHA1)
      [0; 1; 2; 3; 4; 5; 6; 7; 8; 9]
  = ["755224"; "287082"; "359152"; "969429"; "338314";
     "254676"; "287922"; "162583"; "399871"; "520489"].
Proof. vm_compute. reflexivity. Qed.

(** RFC 6238, appendix B: 8 digits at 59 s, 1111111109 s and
    20000000000 s, SHA-1 and SHA-256. *)
Example rfc6238_appendix_B :
  let at_ secret alg t :=
    Totp.generateTOTP Plain.hmac 0
      {| Totp.secret := secret; Totp.period := Some (JS.of_Z 30);
         Totp.digits := Some (JS.of_Z 8); Totp.algorithm := Some alg;
         Totp.timestamp := Some (1000 * t) |} in
  at_ Sample.rfc_secret "SHA1" 59 = "94287082"
  /\ at_ Sample.rfc_secret "SHA1" 1111111109 = "07081804"
  /\ at_ Sample.rfc_secret "SHA1" 20000000000 = "65353130"
  /\ at_ (list_byte_of_string "12345678901234567890123456789012") "SHA256" 59
     = "46119246".
Proof. vm_compute. repeat split. Qed.

(** The window at 59 s with the defaults: step 1, no second left. *)
Example window_at_59 :
  Totp.generateTOTPWindow Plain.hmac 0
    {| Totp.secret := Sample.rfc_secret; Totp.period := None; Totp.digits := None;
       Totp.algorithm := None; Totp.timestamp := Some 59000 |}
  = {| Totp.prev := "755224"; Totp.current := "287082"; Totp.next := "359152";
       Totp.remainingSeconds := 0; Totp.step := 1; Totp.w_period := 30;
       Totp.w_digits := 6; Totp.w_algorithm := Totp.SHA1 |}.
Proof. vm_compute. reflexivity. Qed.

(** Manual input of the Base32 secret JBSWY3DPEHPK3PXP, SHA-1, 6
    digits, period 30, at 1700000000 s. *)
Example manual_input_code :
  (e ← Otpauth.fromManualInput "  alice " (Some "Example") "JBSWY3DPEHPK3PXP"
         (Some "SHA-1") (Some (JS.of_Z 6)) (Some (JS.of_Z 30));
   Ok (Otpauth.label e,
       Totp.generateTOTP Plain.hmac 0
         {| Totp.secret := Otpauth.secretBytes e;
            Totp.period := Some (JS.of_Z (Otpauth.period e));
            Totp.digits := Some (JS.of_Z (Otpauth.digits e));
            Totp.algorithm := Some (Totp.alg_name (Otpauth.algorithm e));
            Totp.timestamp := Some 1700000000000 |}))
  = Ok ("alice", "324550").
Proof. vm_compute. reflexivity. Qed.

(* ================================================================= *)
(** * Further properties *)

(** ** The time step *)

(** X1.  For a positive period the step does not decrease when the
    timestamp grows. *)
Theorem stepAt_monotone (t1 t2 period : Z) :
  0 < period -> t1 <= t2 -> Totp.stepAt t1 period <= Totp.stepAt t2 period.
Proof.
  intros Hp Ht. unfold Totp.stepAt.
  apply Z.div_le_mono; [exact Hp |]. apply Z.div_le_mono; lia.
Qed.

Lemma stepAt_monotone_witness : Totp.stepAt 29999 30 <= Totp.stepAt 30000 30.
Proof. apply stepAt_monotone; lia. Defined.

(** X2.  From the epoch on, the step and the seconds remaining
    determine the second of the timestamp: it is the step times the
    period plus the seconds elapsed, [period - 1 - remaining], and the
    remaining seconds lie in [0, period - 1]. *)
Theorem step_and_remaining (t period : Z) :
  0 <= t -> 0 < period ->
  t / 1000
  = Totp.stepAt t period * period + (period - 1 - Totp.secondsRemaining t period)
  /\ 0 <= Totp.secondsRemaining t period <= period - 1.
Proof.
  intros Ht Hp. unfold Totp.stepAt, Totp.secondsRemaining.
  assert (Hs : 0 <= t / 1000) by (apply Z.div_pos; lia).
  rewrite Z.rem_mod_nonneg by lia.
  pose proof (Z.mod_pos_bound (t / 1000) period Hp) as Hm.
  pose proof (Z.div_mod (t / 1000) period ltac:(lia)) as Hd.
  split; lia.
Qed.

Lemma step_and_remaining_witness :
  59999 / 1000
  = Totp.stepAt 59999 30 * 30 + (30 - 1 - Totp.secondsRemaining 59999 30)
  /\ 0 <= Totp.secondsRemaining 59999 30 <= 30 - 1.
Proof. apply step_and_remaining; lia. Defined.

Lemma stepAt_next_period (t period : Z) :
  0 < period -> Totp.stepAt (t + 1000 * period) period = Totp.stepAt t period + 1.
Proof.
  intros Hp. unfold Totp.stepAt.
  replace (t + 1000 * period) with (t + period * 1000) by lia.
  rewrite Z.div_add by lia.
  replace (t / 1000 + period) with (t / 1000 + 1 * period) by lia.
  rewrite Z.div_add by lia. reflexivity.
Qed.

(** X3.  One period after a timestamp that is not negative, the step
    is the next one and as many seconds remain. *)
Theorem one_period_later (t period : Z) :
  0 < period -> 0 <= t ->
  Totp.stepAt (t + 1000 * period) period = Totp.stepAt t period + 1
  /\ Totp.secondsRemaining (t + 1000 * period) period = Totp.secondsRemaining t period.
Proof.
  intros Hp Ht. split; [apply stepAt_next_period; exact Hp |].
  unfold Totp.secondsRemaining.
  replace (t + 1000 * period) with (t + period * 1000) by lia.
  rewrite Z.div_add by lia.
  assert (Hs : 0 <= t / 1000) by (apply Z.div_pos; lia).
  rewrite !Z.rem_mod_nonneg by lia.
  replace (t / 1000 + period) with (t / 1000 + 1 * period) by lia.
  rewrite Z.mod_add by lia. reflexivity.
Qed.

Lemma one_period_later_witness :
  Totp.stepAt (59000 + 1000 * 30) 30 = Totp.stepAt 59000 30 + 1
  /\ Totp.secondsRemaining (59000 + 1000 * 30) 30 = Totp.secondsRemaining 59000 30.
Proof. apply one_period_later; lia. Defined.

(** ** The counter of HOTP *)

Lemma big_endian_app (l : list byte) (b : byte) :
  Rfc4226.big_endian (l ++ [b]) = 256 * Rfc4226.big_endian l + byte.unsigned b.
Proof. unfold Rfc4226.big_endian. rewrite fold_left_app. reflexivity. Qed.

(** X4.  The counter has 8 bytes, and read as a big-endian number they
    give the step modulo [2^64]: the step itself from 0 up to
    [2^64 - 1], its two's complement below 0. *)
Theorem numberTo8ByteBE_value (n : Z) :
  length (Totp.numberTo8ByteBE n) = 8%nat
  /\ Rfc4226.big_endian (Totp.numberTo8ByteBE n) = n mod 2 ^ 64.
Proof.
  rewrite numberTo8ByteBE_refines. split; [reflexivity |].
  unfold Rfc4226.counter_bytes, Rfc4226.big_endian.
  cbn [seq map fold_left]. rewrite !byte.unsigned_of_Z. unfold byte.wrap.
  cbn [Z.of_nat Pos.of_succ_nat Pos.succ Z.sub Z.opp Z.add Z.pos_sub Pos.pred_double
       Z.succ_double Z.pred_double Z.double].
  change (2 ^ 8) with 256. change (2 ^ 64) with (256 ^ 8).
  change (256 ^ 0) with 1. rewrite Z.div_1_r.
  change (256 ^ 7) with (256 * 256 ^ 6). change (256 ^ 6) with (256 * 256 ^ 5).
  change (256 ^ 5) with (256 * 256 ^ 4). change (256 ^ 4) with (256 * 256 ^ 3).
  change (256 ^ 3) with (256 * 256 ^ 2). change (256 ^ 2) with (256 * 256 ^ 1).
  change (256 ^ 1) with 256. change (256 ^ 8) with 18446744073709551616.
  Z.div_mod_to_equations. lia.
Qed.

(** ** The window and its display *)

Lemma normalizeDigits_range (d : option JS.number) :
  Totp.normalizeDigits d = 6 \/ Totp.normalizeDigits d = 8.
Proof.
  unfold Totp.normalizeDigits. destruct d as [[| | | q] |]; try (left; reflexivity).
  destruct (Qeq_bool q (inject_Z 8)); [right | left]; reflexivity.
Qed.

Lemma normalizePeriod_range (p : option JS.number) :
  5 <= Totp.normalizePeriod p <= 300.
Proof. unfold Totp.normalizePeriod. lia. Qed.

Section WindowFacts.

Variable hmac : list byte -> list byte -> Totp.TOTPHashAlg -> list byte.

Lemma code_length (secret : list byte) (step digits : Z) (alg : Totp.TOTPHashAlg) :
  digits = 6 \/ digits = 8 ->
  JS.len (Totp.generateTOTPForStep hmac secret step digits alg) = digits.
Proof.
  intros Hd. unfold Totp.generateTOTPForStep. cbv zeta.
  rewrite padDigits_refines by (try apply dynamicTruncate_range; assumption).
  unfold JS.len. rewrite zero_padded_length. lia.
Qed.

(** X5.  Whatever the options, the window is built on a period of
    [5, 300] and on 6 or 8 digits, its three codes have that many
    characters, and its current code is the one [generateTOTP] returns
    for the same options. *)
Theorem window_invariants (now : Z) (opts : Totp.TOTPOptions) :
  let w := Totp.generateTOTPWindow hmac now opts in
  5 <= Totp.w_period w <= 300
  /\ (Totp.w_digits w = 6 \/ Totp.w_digits w = 8)
  /\ JS.len (Totp.prev w) = Totp.w_digits w
  /\ JS.len (Totp.current w) = Totp.w_digits w
  /\ JS.len (Totp.next w) = Totp.w_digits w
  /\ Totp.current w = Totp.generateTOTP hmac now opts.
Proof.
  cbv zeta. unfold Totp.generateTOTPWindow, Totp.generateTOTP.
  cbn [Totp.w_period Totp.w_digits Totp.prev Totp.current Totp.next].
  pose proof (normalizeDigits_range (Totp.digits opts)) as Hd.
  split; [apply normalizePeriod_range |]. split; [exact Hd |].
  repeat (split; [apply code_length; exact Hd |]). reflexivity.
Qed.

(** X6.  One period after a window, the window has moved by one step:
    its previous code is the current code of before, and its current
    code the next code of before. *)
Theorem window_one_period_later (now : Z) (secret : list byte)
    (p d : option JS.number) (a : option string) (t : Z) :
  let opts ts := {| Totp.secret := secret; Totp.period := p; Totp.digits := d;
                    Totp.algorithm := a; Totp.timestamp := Some ts |} in
  let w := Totp.generateTOTPWindow hmac now (opts t) in
  let w' := Totp.generateTOTPWindow hmac now (opts (t + 1000 * Totp.w_period w)) in
  Totp.step w' = Totp.step w + 1
  /\ Totp.prev w' = Totp.current w
  /\ Totp.current w' = Totp.next w.
Proof.
  cbv zeta. unfold Totp.generateTOTPWindow.
  cbn [Totp.w_period Totp.step Totp.prev Totp.current Totp.next Totp.secret
       Totp.period Totp.digits Totp.algorithm Totp.timestamp].
  pose proof (normalizePeriod_range p) as Hp.
  rewrite (stepAt_next_period t (Totp.normalizePeriod p)) by lia.
  split; [reflexivity |]. split; [| reflexivity].
  f_equal. lia.
Qed.

End WindowFacts.

(** The display of a string of digits of length [2 k], [k] being 3 or
    4: two groups of [k] digits. *)
Lemma formatCodeGroupings_digits (code : string) (k : nat) :
  (k = 3 \/ k = 4)%nat -> String.length code = (2 * k)%nat ->
  (forall c, In c (list_ascii_of_string code) -> JS.is_digit c = true) ->
  Totp.formatCodeGroupings code
  = JS.take k code +:+ String " " (JS.drop k code)
  /\ JS.filter_chars (fun c => negb (Ascii.eqb c " ")) (Totp.formatCodeGroupings code) = code
  /\ JS.indexOf (Totp.formatCodeGroupings code) " " = Z.of_nat k
  /\ JS.len (Totp.formatCodeGroupings code) = Z.of_nat (2 * k) + 1.
Proof.
  intros Hk Hlen Hdig.
  assert (Hc : forall c, In c (list_ascii_of_string code) -> Ascii.eqb c " " = false).
  { intros c Hin. specialize (Hdig c Hin).
    destruct (Ascii.eqb_spec c " ") as [-> |]; [discriminate Hdig | reflexivity]. }
  destruct Hk as [-> | ->];
    repeat (destruct code as [| ? code]; [discriminate Hlen |]);
    (destruct code; [| discriminate Hlen]);
    cbn [list_ascii_of_string] in Hc;
    (split; [reflexivity |]);
    match goal with
    | |- context [Totp.formatCodeGroupings ?s] =>
        let v := eval vm_compute in (Totp.formatCodeGroupings s) in
        change (Totp.formatCodeGroupings s) with v
    end;
    unfold JS.indexOf;
    repeat first [ rewrite Hc by (cbn; tauto)
                 | progress change (Ascii.eqb " " " ") with true
                 | progress cbn [negb JS.filter_chars JS.indexOf_from] ];
    (split; [reflexivity | split; reflexivity]).
Qed.

(** X7.  The display of a code of 6 or 8 digits is the code in two
    halves with one space between them: the space is at index
    [digits / 2], the display has [digits + 1] characters, and without
    the space it is the code. *)
Theorem formatCodeGroupings_code
    (hmac : list byte -> list byte -> Totp.TOTPHashAlg -> list byte)
    (secret : list byte) (step digits : Z) (alg : Totp.TOTPHashAlg) :
  digits = 6 \/ digits = 8 ->
  let code := Totp.generateTOTPForStep hmac secret step digits alg in
  let shown := Totp.formatCodeGroupings code in
  shown = JS.take (Z.to_nat (digits / 2)) code
          +:+ String " " (JS.drop (Z.to_nat (digits / 2)) code)
  /\ JS.filter_chars (fun c => negb (Ascii.eqb c " ")) shown = code
  /\ JS.indexOf shown " " = digits / 2
  /\ JS.len shown = digits + 1.
Proof.
  intros Hd. cbv zeta.
  assert (Hlen : JS.len (Totp.generateTOTPForStep hmac secret step digits alg) = digits)
    by (apply code_length; exact Hd).
  assert (Hdig : forall c,
             In c (list_ascii_of_string
                     (Totp.generateTOTPForStep hmac secret step digits alg)) ->
             JS.is_digit c = true).
  { unfold Totp.generateTOTPForStep. cbv zeta.
    rewrite padDigits_refines by (try apply dynamicTruncate_range; assumption).
    intros c. apply zero_padded_digits. }
  unfold JS.len in Hlen.
  destruct Hd as [-> | ->].
  - assert (Hl : String.length
                   (Totp.generateTOTPForStep hmac secret step 6 alg) = (2 * 3)%nat)
      by lia.
    destruct (formatCodeGroupings_digits _ 3%nat (or_introl eq_refl) Hl Hdig)
      as (H1 & H2 & H3 & H4).
    repeat split; assumption.
  - assert (Hl : String.length
                   (Totp.generateTOTPForStep hmac secret step 8 alg) = (2 * 4)%nat)
      by lia.
    destruct (formatCodeGroupings_digits _ 4%nat (or_intror eq_refl) Hl Hdig)
      as (H1 & H2 & H3 & H4).
    repeat split; assumption.
Qed.

Lemma formatCodeGroupings_code_witness :
  let code := Totp.generateTOTPForStep Plain.hmac Sample.rfc_secret 1 6 Totp.SHA1 in
  let shown := Totp.formatCodeGroupings code in
  shown = JS.take (Z.to_nat (6 / 2)) code +:+ String " " (JS.drop (Z.to_nat (6 / 2)) code)
  /\ JS.filter_chars (fun c => negb (Ascii.eqb c " ")) shown = code
  /\ JS.indexOf shown " " = 6 / 2
  /\ JS.len shown = 6 + 1.
Proof.
  apply (formatCodeGroupings_code Plain.hmac Sample.rfc_secret 1 6 Totp.SHA1).
  left. reflexivity.
Defined.

Example formatCodeGroupings_287082 :
  Totp.formatCodeGroupings
    (Totp.generateTOTPForStep Plain.hmac Sample.rfc_secret 1 6 Totp.SHA1)
  = "287 082".
Proof. vm_compute. reflexivity. Qed.

(** ** Comparison of byte arrays *)

Lemma lor_byte (a b : Z) : 0 <= a < 256 -> 0 <= b < 256 -> 0 <= Z.lor a b < 256.
Proof.
  intros Ha Hb. split; [apply Z.lor_nonneg; lia |].
  destruct (Z.eq_dec (Z.lor a b) 0) as [-> | Hn]; [lia |].
  assert (0 <= Z.lor a b) by (apply Z.lor_nonneg; lia).
  change 256 with (2 ^ 8). apply Z.log2_lt_pow2; [lia |].
  rewrite Z.log2_lor by lia.
  assert (Z.log2 a < 8)
    by (destruct (Z.eq_dec a 0) as [-> | ?];
        [reflexivity | apply Z.log2_lt_pow2; [lia | change (2 ^ 8) with 256; lia]]).
  assert (Z.log2 b < 8)
    by (destruct (Z.eq_dec b 0) as [-> | ?];
        [reflexivity | apply Z.log2_lt_pow2; [lia | change (2 ^ 8) with 256; lia]]).
  lia.
Qed.

Lemma lxor_byte (a b : Z) : 0 <= a < 256 -> 0 <= b < 256 -> 0 <= Z.lxor a b < 256.
Proof.
  intros Ha Hb. split; [apply Z.lxor_nonneg; lia |].
  destruct (Z.eq_dec (Z.lxor a b) 0) as [-> | Hn]; [lia |].
  assert (0 <= Z.lxor a b) by (apply Z.lxor_nonneg; lia).
  change 256 with (2 ^ 8). apply Z.log2_lt_pow2; [lia |].
  pose proof (Z.log2_lxor a b ltac:(lia) ltac:(lia)).
  assert (Z.log2 a < 8)
    by (destruct (Z.eq_dec a 0) as [-> | ?];
        [reflexivity | apply Z.log2_lt_pow2; [lia | change (2 ^ 8) with 256; lia]]).
  assert (Z.log2 b < 8)
    by (destruct (Z.eq_dec b 0) as [-> | ?];
        [reflexivity | apply Z.log2_lt_pow2; [lia | change (2 ^ 8) with 256; lia]]).
  lia.
Qed.

(** One round of the loop, on a running [diff] and two cells that are
    bytes. *)
Lemma diff_round (diff x y : Z) :
  0 <= diff < 256 -> 0 <= x < 256 -> 0 <= y < 256 ->
  0 <= JS.or diff (JS.xor x y) < 256
  /\ (JS.or diff (JS.xor x y) = 0 <-> diff = 0 /\ x = y).
Proof.
  intros Hd Hx Hy. unfold JS.or, JS.xor.
  pose proof (lxor_byte x y Hx Hy) as Hxy.
  pose proof (lor_byte diff (Z.lxor x y) Hd Hxy) as Hor.
  rewrite (ToInt32_small x), (ToInt32_small y) by lia.
  rewrite !(ToInt32_small (Z.lxor x y)) by lia.
  rewrite (ToInt32_small diff) by lia.
  rewrite (ToInt32_small (Z.lor diff (Z.lxor x y))) by lia.
  split; [exact Hor |].
  rewrite Z.lor_eq_0_iff, Z.lxor_eq_0_iff. reflexivity.
Qed.

Lemma at_cons (x : byte) (a : list byte) (i : nat) :
  JS.at_ (x :: a) (Z.of_nat (S i)) = JS.at_ a (Z.of_nat i).
Proof.
  unfold JS.at_. rewrite !Nat2Z.id. cbn [length nth].
  destruct (Z.leb_spec 0 (Z.of_nat (S i))), (Z.leb_spec 0 (Z.of_nat i)); try lia.
  destruct (Z.ltb_spec (Z.of_nat (S i)) (Z.of_nat (S (length a)))),
    (Z.ltb_spec (Z.of_nat i) (Z.of_nat (length a))); try lia; reflexivity.
Qed.

Lemma diff_loop_shift (x y : byte) (a b : list byte) (n : nat) :
  forall (s : nat) (diff : Z),
    fold_left (fun diff i => JS.or diff (JS.xor (JS.at_ (x :: a) i) (JS.at_ (y :: b) i)))
      (map Z.of_nat (seq (S s) n)) diff
    = fold_left (fun diff i => JS.or diff (JS.xor (JS.at_ a i) (JS.at_ b i)))
        (map Z.of_nat (seq s n)) diff.
Proof.
  induction n as [| n IH]; intros s diff; [reflexivity |].
  cbn [seq map fold_left]. rewrite !at_cons. apply IH.
Qed.

Lemma diff_loop (a : list byte) :
  forall (b : list byte) (diff : Z),
    length a = length b -> 0 <= diff < 256 ->
    (fold_left (fun diff i => JS.or diff (JS.xor (JS.at_ a i) (JS.at_ b i)))
       (map Z.of_nat (seq 0 (length a))) diff = 0
     <-> diff = 0 /\ a = b).
Proof.
  induction a as [| x a IH]; intros [| y b] diff Hlen Hd; try discriminate Hlen.
  - cbn. tauto.
  - cbn [length seq map fold_left]. rewrite diff_loop_shift.
    change (JS.at_ (x :: a) (Z.of_nat 0)) with (byte.unsigned x).
    change (JS.at_ (y :: b) (Z.of_nat 0)) with (byte.unsigned y).
    destruct (diff_round diff (byte.unsigned x) (byte.unsigned y) Hd
                (byte.unsigned_range x) (byte.unsigned_range y)) as (Hr & Hz).
    rewrite (IH b _ ltac:(cbn in Hlen; lia) Hr), Hz.
    split.
    + intros ((-> & Hxy) & ->). apply byte.unsigned_inj in Hxy. subst y. tauto.
    + intros (-> & [= -> ->]). tauto.
Qed.

(** X8.  [timingSafeEqual] answers [true] on equal arrays and on no
    others: arrays of different lengths are told apart before the loop,
    and after the loop [diff] is 0 exactly when no index differs. *)
Theorem timingSafeEqual_spec (a b : list byte) :
  Crypto.timingSafeEqual a b = true <-> a = b.
Proof.
  unfold Crypto.timingSafeEqual.
  destruct (Z.eqb_spec (Z.of_nat (length a)) (Z.of_nat (length b))) as [Hlen | Hlen];
    cbn [negb].
  - rewrite Z.eqb_eq, (diff_loop a b 0) by lia. tauto.
  - split; [discriminate | intros ->; lia].
Qed.

(** ** The bytes of a Base32 text *)

Lemma lookup_index (c : ascii) :
  Rfc4648.symbol c = true ->
  Otpauth.lookup !! JS.toUpperCase_char c = Some (Rfc4648.index c)
  /\ 0 <= Rfc4648.index c < 32.
Proof.
  destruct c as [[] [] [] [] [] [] [] []]; vm_compute; intros H;
    first [discriminate H | split; [reflexivity | split; [discriminate | reflexivity]]].
Qed.

Lemma ToUint32_ToInt32 (z : Z) : JS.ToUint32 (JS.ToInt32 z) = z mod 2 ^ 32.
Proof.
  unfold JS.ToUint32, JS.ToInt32. change (2 ^ 31) with 2147483648.
  change (2 ^ 32) with 4294967296. Z.div_mod_to_equations. lia.
Qed.

Lemma ToUint32_shl5 (value : Z) : JS.ToUint32 (JS.shl value 5) = (32 * value) mod 2 ^ 32.
Proof.
  unfold JS.shl. change (Z.land (JS.ToUint32 5) 31) with 5.
  rewrite ToUint32_ToInt32, Z.shiftl_mul_pow2 by lia.
  unfold JS.ToInt32. change (2 ^ 31) with 2147483648.
  change (2 ^ 32) with 4294967296. change (2 ^ 5) with 32.
  Z.div_mod_to_equations. lia.
Qed.

(** A symbol enters below the 5 bits that the shift has freed, also
    when the accumulator has wrapped around. *)
Lemma ToUint32_or5 (x v M : Z) :
  JS.ToUint32 x = (32 * M) mod 2 ^ 32 -> 0 <= v < 32 ->
  JS.ToUint32 (JS.or x v) = (32 * M + v) mod 2 ^ 32.
Proof.
  intros Hx Hv. unfold JS.or. rewrite ToUint32_ToInt32.
  rewrite (ToInt32_small v) by lia.
  assert (Hy : exists y, JS.ToInt32 x = y * 2 ^ 5 /\ (y * 32) mod 2 ^ 32 = (32 * M) mod 2 ^ 32).
  { exists (JS.ToInt32 x / 32). rewrite <- Hx. unfold JS.ToUint32 in *. unfold JS.ToInt32.
    change (2 ^ 31) with 2147483648 in *. change (2 ^ 32) with 4294967296 in *.
    change (2 ^ 5) with 32. Z.div_mod_to_equations. lia. }
  destruct Hy as (y & -> & Hy).
  rewrite lor_disjoint by (change (2 ^ 5) with 32; lia).
  change (2 ^ 5) with 32. change (2 ^ 32) with 4294967296 in *.
  Z.div_mod_to_equations. lia.
Qed.

(** The byte that the loop emits: 8 bits of the accumulator from bit
    [bits] on, whatever lies above them. *)
Lemma emitted_byte (value bits N : Z) :
  JS.ToUint32 value = N mod 2 ^ 32 -> 0 <= bits < 8 ->
  JS.and (JS.shru value bits) 255 = (N / 2 ^ bits) mod 256.
Proof.
  intros Hv Hb. unfold JS.and, JS.shru. rewrite Hv.
  assert (Hk : Z.land (JS.ToUint32 bits) 31 = bits).
  { unfold JS.ToUint32. rewrite (Z.mod_small bits) by lia.
    change 31 with (Z.ones 5). rewrite Z.land_ones by lia.
    apply Z.mod_small. change (2 ^ 5) with 32. lia. }
  rewrite Hk, Z.shiftr_div_pow2 by lia.
  change (JS.ToInt32 255) with (Z.ones 8). rewrite Z.land_ones by lia.
  assert (Hm : JS.ToInt32 (N mod 2 ^ 32 / 2 ^ bits) mod 2 ^ 8 = (N / 2 ^ bits) mod 256).
  { unfold JS.ToInt32. change (2 ^ 31) with 2147483648.
    change (2 ^ 32) with 4294967296. change (2 ^ 8) with 256.
    assert (Hc : bits = 0 \/ bits = 1 \/ bits = 2 \/ bits = 3 \/ bits = 4
                 \/ bits = 5 \/ bits = 6 \/ bits = 7) by lia.
    destruct Hc as [-> | [-> | [-> | [-> | [-> | [-> | [-> | ->]]]]]]];
      match goal with
      | |- context [2 ^ ?k] => let v := eval cbv in (2 ^ k) in change (2 ^ k) with v
      end; Z.div_mod_to_equations; lia. }
  rewrite Hm. apply ToInt32_small.
  pose proof (Z.mod_pos_bound (N / 2 ^ bits) 256 eq_refl). lia.
Qed.

Lemma number_from_cons (acc : Z) (c : ascii) (s : string) :
  Rfc4648.number_from acc (String c s)
  = Rfc4648.number_from (32 * acc + Rfc4648.index c) s.
Proof. reflexivity. Qed.

Lemma decode_loop_value (s : string) :
  forall bits value out N,
    (forall c, In c (list_ascii_of_string s) -> Rfc4648.symbol c = true) ->
    0 <= bits < 8 -> 0 <= N ->
    JS.ToUint32 value = N mod 2 ^ 32 ->
    Rfc4226.big_endian out = N / 2 ^ bits ->
    exists out',
      Otpauth.decode_loop (JS.toUpperCase s) bits value out = Ok out'
      /\ Rfc4226.big_endian out'
         = Rfc4648.number_from N s / 2 ^ ((bits + 5 * JS.len s) mod 8).
Proof.
  induction s as [| x s IH]; intros bits value out N Hall Hb HN Hv Hout.
  - exists out. split; [reflexivity |].
    unfold JS.len. cbn [String.length]. rewrite Z.mod_small by lia.
    replace (bits + 5 * Z.of_nat 0) with bits by lia. exact Hout.
  - change (JS.toUpperCase (String x s))
      with (String (JS.toUpperCase_char x) (JS.toUpperCase s)).
    cbn [Otpauth.decode_loop].
    destruct (lookup_index x (Hall x (or_introl eq_refl))) as (-> & Hi).
    assert (Hs : forall c, In c (list_ascii_of_string s) -> Rfc4648.symbol c = true)
      by (intros c Hc; apply Hall; right; exact Hc).
    assert (Hlen : JS.len (String x s) = JS.len s + 1)
      by (unfold JS.len; cbn [String.length]; lia).
    rewrite number_from_cons, Hlen. cbv zeta.
    set (N' := 32 * N + Rfc4648.index x).
    set (value' := JS.or (JS.shl value 5) (Rfc4648.index x)).
    assert (Hv' : JS.ToUint32 value' = N' mod 2 ^ 32).
    { unfold value', N'. apply ToUint32_or5; [| exact Hi].
      rewrite ToUint32_shl5. rewrite <- Z.mul_mod_idemp_r by discriminate.
      unfold JS.ToUint32 in Hv. rewrite Hv.
      rewrite Z.mul_mod_idemp_r by discriminate. reflexivity. }
    assert (HN' : 0 <= N') by (unfold N'; lia).
    assert (Hc : bits = 0 \/ bits = 1 \/ bits = 2 \/ bits = 3 \/ bits = 4
                 \/ bits = 5 \/ bits = 6 \/ bits = 7) by lia.
    destruct (Z.leb_spec 8 (bits + 5)) as [Hge | Hlt].
    + destruct (IH (bits + 5 - 8) value'
                  (out ++ [byte.of_Z (JS.and (JS.shru value' (bits + 5 - 8)) 255)])
                  N' Hs ltac:(lia) HN' Hv') as (out' & Hrun & Hval).
      * rewrite big_endian_app, byte.unsigned_of_Z, Hout.
        rewrite (emitted_byte value' (bits + 5 - 8) N' Hv') by lia.
        unfold byte.wrap. rewrite Z.mod_mod by discriminate.
        unfold N'. clear - Hc Hi HN Hge.
        destruct Hc as [-> | [-> | [-> | [-> | [-> | [-> | [-> | ->]]]]]]]; try lia;
          repeat match goal with
                 | |- context [2 ^ ?k] =>
                     let v := eval cbv in (2 ^ k) in change (2 ^ k) with v
                 end; Z.div_mod_to_equations; lia.
      * exists out'. split; [exact Hrun |]. rewrite Hval. f_equal. f_equal.
        replace (bits + 5 * (JS.len s + 1)) with (bits + 5 - 8 + 5 * JS.len s + 1 * 8) by lia.
        rewrite Z.mod_add by discriminate. reflexivity.
    + destruct (IH (bits + 5) value' out N' Hs ltac:(lia) HN' Hv') as (out' & Hrun & Hval).
      * rewrite Hout. unfold N'. clear - Hc Hi HN Hlt.
        destruct Hc as [-> | [-> | [-> | [-> | [-> | [-> | [-> | ->]]]]]]]; try lia;
          repeat match goal with
                 | |- context [2 ^ ?k] =>
                     let v := eval cbv in (2 ^ k) in change (2 ^ k) with v
                 end; Z.div_mod_to_equations; lia.
      * exists out'. split; [exact Hrun |]. rewrite Hval. f_equal. f_equal. f_equal. lia.
Qed.

(** X9.  On a text of symbols the decoder gives the bytes of RFC 4648:
    read as one big-endian number they are the number that the symbols
    write in base 32, without the bits of the final group of fewer
    than 8.  The accumulator of the loop is never masked and wraps
    around as a 32-bit integer; no bit of the output is lost to that. *)
Theorem base32DecodeToBytes_value (input : string) :
  let rest := Otpauth.strip input in
  (forall c, In c (list_ascii_of_string rest) -> Rfc4648.symbol c = true) ->
  exists out,
    Otpauth.base32DecodeToBytes input = Ok out
    /\ Z.of_nat (length out) = 5 * JS.len rest / 8
    /\ Rfc4226.big_endian out = Rfc4648.number rest / 2 ^ ((5 * JS.len rest) mod 8).
Proof.
  cbv zeta. intros Hall.
  destruct (base32_valid input Hall) as (out & Hout & Hlen).
  exists out. split; [exact Hout |]. split; [exact Hlen |].
  unfold Otpauth.base32DecodeToBytes in Hout. cbv zeta in Hout.
  destruct (Z.eqb_spec (JS.len (JS.toUpperCase (Otpauth.strip input))) 0) as [Hz | _].
  - injection Hout as <-. unfold JS.len, JS.toUpperCase in Hz.
    rewrite map_chars_length in Hz.
    destruct (Otpauth.strip input); [reflexivity | discriminate Hz].
  - destruct (decode_loop_value (Otpauth.strip input) 0 0 [] 0 Hall)
      as (out' & Hrun & Hval); [lia | lia | reflexivity | reflexivity |].
    rewrite Hrun in Hout. injection Hout as <-. exact Hval.
Qed.

Lemma base32DecodeToBytes_value_witness :
  exists out,
    Otpauth.base32DecodeToBytes "jbswy3dp==" = Ok out
    /\ Z.of_nat (length out) = 5 * JS.len (Otpauth.strip "jbswy3dp==") / 8
    /\ Rfc4226.big_endian out
       = Rfc4648.number (Otpauth.strip "jbswy3dp==")
         / 2 ^ ((5 * JS.len (Otpauth.strip "jbswy3dp==")) mod 8).
Proof.
  apply (base32DecodeToBytes_value "jbswy3dp==").
  intros c Hin. vm_compute in Hin.
  repeat (destruct Hin as [<- | Hin]; [reflexivity |]). destruct Hin.
Defined.

(** ** The spellings of a Base32 text *)

Lemma filter_chars_append (keep : ascii -> bool) (a b : string) :
  JS.filter_chars keep (a +:+ b) = JS.filter_chars keep a +:+ JS.filter_chars keep b.
Proof.
  induction a as [| x a IH]; [reflexivity |].
  change (String x a +:+ b) with (String x (a +:+ b)). cbn [JS.filter_chars].
  destruct (keep x); [| exact IH].
  change (String x (JS.filter_chars keep a) +:+ JS.filter_chars keep b)
    with (String x (JS.filter_chars keep a +:+ JS.filter_chars keep b)).
  f_equal. exact IH.
Qed.

Lemma filter_chars_map_chars (keep : ascii -> bool) (f : ascii -> ascii) (s : string) :
  (forall c, keep (f c) = keep c) ->
  JS.filter_chars keep (JS.map_chars f s) = JS.map_chars f (JS.filter_chars keep s).
Proof.
  intros H. induction s as [| x s IH]; [reflexivity |].
  cbn [JS.map_chars JS.filter_chars]. rewrite H.
  destruct (keep x); [cbn [JS.map_chars]; f_equal |]; exact IH.
Qed.

Lemma dropWhileEnd_map_chars (p : ascii -> bool) (f : ascii -> ascii) (s : string) :
  (forall c, p (f c) = p c) ->
  JS.dropWhileEnd p (JS.map_chars f s) = JS.map_chars f (JS.dropWhileEnd p s).
Proof.
  intros H. induction s as [| x s IH]; [reflexivity |].
  cbn [JS.map_chars JS.dropWhileEnd]. rewrite IH, H.
  destruct (JS.dropWhileEnd p s); cbn [JS.map_chars]; [destruct (p x) |]; reflexivity.
Qed.

Lemma map_chars_compose (f g : ascii -> ascii) (s : string) :
  JS.map_chars f (JS.map_chars g s) = JS.map_chars (fun c => f (g c)) s.
Proof.
  induction s as [| x s IH]; [reflexivity |]. cbn [JS.map_chars]. f_equal. exact IH.
Qed.

Lemma map_chars_ext (f g : ascii -> ascii) (s : string) :
  (forall c, f c = g c) -> JS.map_chars f s = JS.map_chars g s.
Proof.
  intros H. induction s as [| x s IH]; [reflexivity |].
  cbn [JS.map_chars]. rewrite H, IH. reflexivity.
Qed.

Lemma case_chars (c : ascii) :
  JS.is_space (JS.toLowerCase_char c) = JS.is_space c
  /\ JS.is_space (JS.toUpperCase_char c) = JS.is_space c
  /\ Ascii.eqb "=" (JS.toLowerCase_char c) = Ascii.eqb "=" c
  /\ Ascii.eqb "=" (JS.toUpperCase_char c) = Ascii.eqb "=" c
  /\ JS.toUpperCase_char (JS.toLowerCase_char c) = JS.toUpperCase_char c
  /\ JS.toUpperCase_char (JS.toUpperCase_char c) = JS.toUpperCase_char c.
Proof. destruct c as [[] [] [] [] [] [] [] []]; vm_compute; repeat split. Qed.

(** What reaches the loop of the decoder: the text without white space
    and final padding, in upper case. *)
Lemma cleaned_lower (s : string) :
  JS.toUpperCase (Otpauth.strip (JS.toLowerCase s)) = JS.toUpperCase (Otpauth.strip s).
Proof.
  unfold Otpauth.strip, JS.toLowerCase, JS.toUpperCase.
  rewrite filter_chars_map_chars
    by (intros c; f_equal; apply (proj1 (case_chars c))).
  rewrite dropWhileEnd_map_chars
    by (intros c; apply (proj1 (proj2 (proj2 (case_chars c))))).
  rewrite map_chars_compose. apply map_chars_ext.
  intros c. apply (case_chars c).
Qed.

Lemma cleaned_upper (s : string) :
  JS.toUpperCase (Otpauth.strip (JS.toUpperCase s)) = JS.toUpperCase (Otpauth.strip s).
Proof.
  unfold Otpauth.strip, JS.toUpperCase.
  rewrite filter_chars_map_chars
    by (intros c; f_equal; apply (case_chars c)).
  rewrite dropWhileEnd_map_chars
    by (intros c; apply (case_chars c)).
  rewrite map_chars_compose. apply map_chars_ext.
  intros c. apply (case_chars c).
Qed.

Lemma filter_chars_repeat_eq (n : nat) :
  JS.filter_chars (fun c => negb (JS.is_space c)) (JS.repeat_char "=" n)
  = JS.repeat_char "=" n.
Proof. induction n as [| n IH]; [reflexivity |]. cbn [JS.repeat_char JS.filter_chars].
  change (negb (JS.is_space "=")) with true. cbv iota. f_equal. exact IH.
Qed.

Lemma repeat_char_chars (c x : ascii) (n : nat) :
  In x (list_ascii_of_string (JS.repeat_char c n)) -> x = c.
Proof.
  induction n as [| n IH]; [intros [] |]. cbn [JS.repeat_char list_ascii_of_string].
  intros [<- | H]; [reflexivity | exact (IH H)].
Qed.

Lemma filter_chars_idem (keep : ascii -> bool) (s : string) :
  JS.filter_chars keep (JS.filter_chars keep s) = JS.filter_chars keep s.
Proof.
  induction s as [| x s IH]; [reflexivity |]. cbn [JS.filter_chars].
  destruct (keep x) eqn:Hx; [| exact IH].
  cbn [JS.filter_chars]. rewrite Hx. f_equal. exact IH.
Qed.

(** X10.  On an ASCII text the decoder does not tell the spellings
    apart: the case of the letters, the white space of the text,
    wherever it is, and ['='] signs at its end change neither the bytes
    nor the error. *)
Theorem base32DecodeToBytes_spellings (s : string) (n : nat) :
  JS.is_ascii s = true ->
  Otpauth.base32DecodeToBytes (JS.toLowerCase s) = Otpauth.base32DecodeToBytes s
  /\ Otpauth.base32DecodeToBytes (JS.toUpperCase s) = Otpauth.base32DecodeToBytes s
  /\ Otpauth.base32DecodeToBytes (s +:+ JS.repeat_char "=" n)
     = Otpauth.base32DecodeToBytes s
  /\ Otpauth.base32DecodeToBytes (JS.filter_chars (fun c => negb (JS.is_space c)) s)
     = Otpauth.base32DecodeToBytes s.
Proof.
  intros _. unfold Otpauth.base32DecodeToBytes. cbv zeta.
  split; [rewrite cleaned_lower; reflexivity |].
  split; [rewrite cleaned_upper; reflexivity |].
  split.
  - assert (E : Otpauth.strip (s +:+ JS.repeat_char "=" n) = Otpauth.strip s).
    { unfold Otpauth.strip. rewrite filter_chars_append, filter_chars_repeat_eq.
      apply dropWhileEnd_append. intros x Hx.
      apply repeat_char_chars in Hx. subst x. reflexivity. }
    rewrite E. reflexivity.
  - unfold Otpauth.strip. rewrite filter_chars_idem. reflexivity.
Qed.

Lemma base32DecodeToBytes_spellings_witness :
  Otpauth.base32DecodeToBytes (JS.toLowerCase "JBSW Y3DP")
  = Otpauth.base32DecodeToBytes "JBSW Y3DP"
  /\ Otpauth.base32DecodeToBytes (JS.toUpperCase "JBSW Y3DP")
     = Otpauth.base32DecodeToBytes "JBSW Y3DP"
  /\ Otpauth.base32DecodeToBytes ("JBSW Y3DP" +:+ JS.repeat_char "=" 2)
     = Otpauth.base32DecodeToBytes "JBSW Y3DP"
  /\ Otpauth.base32DecodeToBytes
       (JS.filter_chars (fun c => negb (JS.is_space c)) "JBSW Y3DP")
     = Otpauth.base32DecodeToBytes "JBSW Y3DP".
Proof. apply (base32DecodeToBytes_spellings "JBSW Y3DP" 2). reflexivity. Defined.

(** ** The descriptor of a parsed URI *)

Lemma dropWhileEnd_idem (p : ascii -> bool) (s : string) :
  JS.dropWhileEnd p (JS.dropWhileEnd p s) = JS.dropWhileEnd p s.
Proof.
  induction s as [| x s IH]; [reflexivity |]. cbn [JS.dropWhileEnd].
  destruct (JS.dropWhileEnd p s) as [| y r] eqn:Hd.
  - destruct (p x) eqn:Hx; [reflexivity |]. cbn [JS.dropWhileEnd]. rewrite Hx. reflexivity.
  - cbn [JS.dropWhileEnd]. cbn [JS.dropWhileEnd] in IH.
    destruct (JS.dropWhileEnd p r) as [| z r'].
    + destruct (p y); [discriminate IH | rewrite IH; reflexivity].
    + rewrite IH. reflexivity.
Qed.

Lemma dropWhile_head (p : ascii -> bool) (s : string) :
  JS.dropWhile p s = EmptyString
  \/ exists x r, JS.dropWhile p s = String x r /\ p x = false.
Proof.
  induction s as [| x s IH]; [left; reflexivity |]. cbn [JS.dropWhile].
  destruct (p x) eqn:Hx; [exact IH |]. right. exists x, s. split; [reflexivity | exact Hx].
Qed.

(** What [trim] returns has no white space left at either end. *)
Lemma trim_idem (s : string) : JS.trim (JS.trim s) = JS.trim s.
Proof.
  unfold JS.trim.
  destruct (dropWhile_head JS.is_space s) as [-> | (x & r & -> & Hx)]; [reflexivity |].
  destruct (dropWhileEnd_head JS.is_space x r Hx) as (r' & Hr).
  rewrite Hr at 1. cbn [JS.dropWhile]. rewrite Hx, <- Hr. apply dropWhileEnd_idem.
Qed.

Lemma nonempty_some (s t : string) : Otpauth.nonempty s = Some t -> t = s /\ s <> EmptyString.
Proof. destruct s; [discriminate |]. intros [= <-]. split; [reflexivity | discriminate]. Qed.

(** The label that [splitLabel] returns is trimmed, and so is the
    issuer, which is never the empty string. *)
Lemma splitLabel_shape (labelRaw : string) :
  JS.trim (fst (Otpauth.splitLabel labelRaw)) = fst (Otpauth.splitLabel labelRaw)
  /\ (fst (Otpauth.splitLabel labelRaw) = EmptyString <-> JS.trim labelRaw = EmptyString)
  /\ forall i, snd (Otpauth.splitLabel labelRaw) = Some i ->
               i <> EmptyString /\ JS.trim i = i.
Proof.
  unfold Otpauth.splitLabel. cbv zeta.
  destruct (Z.ltb_spec 0 (JS.indexOf (JS.trim labelRaw) ":")) as [Hi | Hi]; cbn [fst snd].
  - assert (Hne : JS.trim labelRaw <> EmptyString).
    { intros E. rewrite E in Hi. cbn in Hi. lia. }
    split; [| split].
    + destruct (JS.trim (JS.slice (JS.trim labelRaw)
                           (JS.indexOf (JS.trim labelRaw) ":" + 1) None)) eqn:E.
      * apply trim_idem.
      * rewrite <- E. apply trim_idem.
    + destruct (JS.trim (JS.slice (JS.trim labelRaw)
                           (JS.indexOf (JS.trim labelRaw) ":" + 1) None)) eqn:E.
      * tauto.
      * split; [discriminate | intros H; contradiction].
    + intros i H. apply nonempty_some in H as (-> & H).
      split; [exact H | apply trim_idem].
  - split; [apply trim_idem |]. split; [tauto | discriminate].
Qed.

Lemma truthy_some (o : option string) (t : string) :
  Otpauth.truthy o = Some t -> o = Some t /\ t <> EmptyString.
Proof.
  destruct o as [s |]; [| discriminate]. cbn [Otpauth.truthy].
  intros H. apply nonempty_some in H as (-> & H). split; [reflexivity | exact H].
Qed.

Section Descriptor.

Variable URL_new : string -> option Otpauth.URL.
Variable decodeURIComponent : string -> option string.

Local Abbreviation parseOtpauthUri := (Otpauth.parseOtpauthUri URL_new decodeURIComponent).

(** X11.  A descriptor comes only from a URL of protocol [otpauth:]
    whose host is [totp] in some case.  Its label is trimmed, its
    issuer is not the empty string, its digits are 6 or 8, its period
    is in [5, 300], and its secret is what the decoder makes of a
    non-empty parameter [secret]. *)
Theorem parseOtpauthUri_descriptor (uri : string) (e : Otpauth.ParsedTOTPEntry) :
  parseOtpauthUri uri = Ok e ->
  (exists url secretParam,
     URL_new (JS.trim uri) = Some url
     /\ Otpauth.protocol url = "otpauth:"
     /\ JS.toLowerCase (Otpauth.hostname url) = "totp"
     /\ Otpauth.searchParams_get (Otpauth.searchParams url) "secret" = Some secretParam
     /\ secretParam <> EmptyString
     /\ Otpauth.base32DecodeToBytes secretParam = Ok (Otpauth.secretBytes e))
  /\ JS.trim (Otpauth.label e) = Otpauth.label e
  /\ Otpauth.issuer e <> Some EmptyString
  /\ (Otpauth.digits e = 6 \/ Otpauth.digits e = 8)
  /\ 5 <= Otpauth.period e <= 300.
Proof.
  unfold Otpauth.parseOtpauthUri. cbv zeta.
  destruct (URL_new (JS.trim uri)) as [url |]; [| discriminate].
  destruct (String.eqb_spec (Otpauth.protocol url) "otpauth:") as [Hp | _];
    cbn [negb]; [| discriminate].
  destruct (String.eqb_spec (JS.toLowerCase (Otpauth.hostname url)) "totp") as [Hh | _];
    cbn [negb]; [| discriminate].
  destruct (decodeURIComponent _) as [labelRaw |]; [| discriminate].
  pose proof (splitLabel_shape labelRaw) as (Hl & _ & Hi).
  destruct (Otpauth.splitLabel labelRaw) as [label issuerFromLabel]. cbn [fst snd] in Hl, Hi.
  destruct (Otpauth.truthy (Otpauth.searchParams_get (Otpauth.searchParams url) "secret"))
    as [secretParam |] eqn:Hs; [| discriminate].
  apply truthy_some in Hs as (Hs & Hne).
  destruct (Otpauth.base32DecodeToBytes secretParam) as [bytes | err] eqn:Hb;
    cbn [mbind result_bind]; [| discriminate].
  intros [= <-].
  cbn [Otpauth.label Otpauth.issuer Otpauth.secretBytes Otpauth.digits Otpauth.period].
  split; [exists url, secretParam; repeat split; assumption |].
  split; [exact Hl |]. split.
  - destruct (Otpauth.truthy (Otpauth.searchParams_get (Otpauth.searchParams url) "issuer"))
      as [i |] eqn:Hq.
    + apply truthy_some in Hq as (_ & Hq). congruence.
    + destruct issuerFromLabel as [i |]; [| discriminate].
      destruct (Hi i eq_refl) as (Hq' & _). congruence.
  - split; [apply normalizeDigits_range | apply normalizePeriod_range].
Qed.

Lemma decode_loop_error (s : string) :
  forall bits value out err,
    Otpauth.decode_loop s bits value out = Err err ->
    exists ch, err = Otpauth.invalid_character ch
               /\ In ch (list_ascii_of_string s) /\ Otpauth.lookup !! ch = None.
Proof.
  induction s as [| x s IH]; intros bits value out err; [discriminate |].
  cbn [Otpauth.decode_loop].
  destruct (Otpauth.lookup !! x) as [v |] eqn:Hx.
  - cbv zeta. intros H.
    assert (Hs : exists ch, err = Otpauth.invalid_character ch
                            /\ In ch (list_ascii_of_string s) /\ Otpauth.lookup !! ch = None)
      by (destruct (8 <=? bits + 5); exact (IH _ _ _ _ H)).
    destruct Hs as (ch & He & Hin & Hch). exists ch. repeat split; [exact He | | exact Hch].
    right. exact Hin.
  - intros [= <-]. exists x. repeat split; [left; reflexivity | exact Hx].
Qed.

Lemma base32_error (input : string) (err : exn) :
  Otpauth.base32DecodeToBytes input = Err err ->
  exists ch, err = Otpauth.invalid_character ch /\ Otpauth.lookup !! ch = None.
Proof.
  unfold Otpauth.base32DecodeToBytes. cbv zeta.
  destruct (JS.len _ =? 0); [discriminate |]. intros H.
  apply decode_loop_error in H as (ch & He & _ & Hch). exists ch. split; assumption.
Qed.


End Descriptor.

Lemma parseOtpauthUri_descriptor_witness :
  exists e,
    Otpauth.parseOtpauthUri Plain.URL_new Plain.decodeURIComponent
      "otpauth://TOTP/Example:%20alice?secret=JBSWY3DP&digits=8&period=1" = Ok e
    /\ JS.trim (Otpauth.label e) = Otpauth.label e
    /\ Otpauth.issuer e <> Some EmptyString
    /\ (Otpauth.digits e = 6 \/ Otpauth.digits e = 8)
    /\ 5 <= Otpauth.period e <= 300.
Proof.
  eexists. split; [vm_compute; reflexivity |].
  eapply (parseOtpauthUri_descriptor Plain.URL_new Plain.decodeURIComponent
            "otpauth://TOTP/Example:%20alice?secret=JBSWY3DP&digits=8&period=1").
  vm_compute. reflexivity.
Defined.


(** ** The object store *)

Lemma compare_lt_trans (a b c : string) :
  String.compare a b = Lt -> String.compare b c = Lt -> String.compare a c = Lt.
Proof.
  revert b c. induction a as [| x a IH]; intros [| y b] [| z c];
    cbn [String.compare]; try discriminate; try reflexivity.
  unfold Ascii.compare.
  destruct (N.compare_spec (N_of_ascii x) (N_of_ascii y)) as [E1 | L1 | G1];
    try discriminate;
    destruct (N.compare_spec (N_of_ascii y) (N_of_ascii z)) as [E2 | L2 | G2];
    try discriminate;
    destruct (N.compare_spec (N_of_ascii x) (N_of_ascii z)) as [E3 | L3 | G3];
    try lia; try reflexivity; try (intros; reflexivity).
  apply IH.
Qed.

Lemma compare_gt_lt (a b : string) : String.compare a b = Gt -> String.compare b a = Lt.
Proof.
  intros H. rewrite String.compare_antisym in H.
  destruct (String.compare b a); cbn in H; congruence.
Qed.

Lemma store_get_id (k : string) (s : list Db.DBSecretRecord) (r : Db.DBSecretRecord) :
  Db.store_get k s = Some r -> Db.id r = k /\ In r s.
Proof.
  induction s as [| x s IH]; [discriminate |]. cbn [Db.store_get].
  destruct (String.eqb_spec (Db.id x) k) as [E | _].
  - intros [= <-]. split; [exact E | left; reflexivity].
  - intros H. destruct (IH H) as (Hid & Hin). split; [exact Hid | right; exact Hin].
Qed.

Lemma store_get_none (k : string) (s : list Db.DBSecretRecord) :
  Db.store_get k s = None <-> forall r, In r s -> Db.id r <> k.
Proof.
  induction s as [| x s IH]; cbn [Db.store_get].
  - split; [intros _ r [] | reflexivity].
  - destruct (String.eqb_spec (Db.id x) k) as [E | E].
    + split; [discriminate |]. intros H. exfalso. exact (H x (or_introl eq_refl) E).
    + rewrite IH. split.
      * intros H r [<- | Hr]; [exact E | exact (H r Hr)].
      * intros H r Hr. apply H. right. exact Hr.
Qed.

(** [get] after [put]: the record that was put under its key, and
    under any other key what was there. *)
Lemma store_get_put (rec : Db.DBSecretRecord) (s : list Db.DBSecretRecord) (k : string) :
  Db.store_get k (Db.store_put rec s)
  = if String.eqb (Db.id rec) k then Some rec else Db.store_get k s.
Proof.
  induction s as [| r s IH]; [reflexivity |].
  cbn [Db.store_put Db.store_get].
  destruct (String.compare (Db.id rec) (Db.id r)) eqn:C; cbn [Db.store_get].
  - apply String.compare_eq_iff in C. rewrite <- C.
    destruct (String.eqb (Db.id rec) k); reflexivity.
  - reflexivity.
  - rewrite IH. destruct (String.eqb_spec (Db.id r) k) as [E | E]; [| reflexivity].
    destruct (String.eqb_spec (Db.id rec) k) as [E' | E']; [| reflexivity].
    exfalso. rewrite <- E' in E. rewrite E, String_compare_refl in C. discriminate C.
Qed.

Lemma store_get_delete (k' : string) (s : list Db.DBSecretRecord) (k : string) :
  Db.store_get k (Db.store_delete k' s)
  = if String.eqb k' k then None else Db.store_get k s.
Proof.
  unfold Db.store_delete. induction s as [| r s IH].
  - cbn. destruct (String.eqb k' k); reflexivity.
  - rewrite filter_cons. destruct (decide _) as [Hk | Hk]; cbn [Db.store_get].
    + rewrite IH. destruct (String.eqb_spec k' k) as [E | E]; [| reflexivity].
      destruct (String.eqb_spec (Db.id r) k) as [E' | E']; [| reflexivity].
      exfalso. rewrite <- E in E'. rewrite E', String.eqb_refl in Hk. exact Hk.
    + rewrite IH. destruct (String.eqb_spec k' k) as [E | E]; [reflexivity |].
      destruct (String.eqb_spec (Db.id r) k) as [E' | E']; [| reflexivity].
      exfalso. apply Hk. destruct (String.eqb_spec (Db.id r) k'); [congruence | exact I].
Qed.

(** X13.  [updateSecret] on an id that the store does not hold changes
    nothing and fails with the not-found error.  On an id that it
    holds, the record under that id becomes the returned one, which
    keeps the id and the creation time and takes the clock as its
    update time.  The records under the other ids and the store [meta]
    stay as they are. *)
Theorem updateSecret_outcome (now : Z) (input : Db.UpdateSecretInput) (db : Db.DB) :
  let db' := fst (Db.updateSecret now input db) in
  Db.meta db' = Db.meta db
  /\ (forall k, k <> Db.u_id input -> Db.getSecret k db' = Db.getSecret k db)
  /\ match Db.getSecret (Db.u_id input) db with
     | None => Db.updateSecret now input db = (db, Err Db.not_found)
     | Some existing =>
         exists rec,
           snd (Db.updateSecret now input db) = Ok rec
           /\ Db.getSecret (Db.u_id input) db' = Some rec
           /\ Db.id rec = Db.u_id input
           /\ Db.createdAt rec = Db.createdAt existing
           /\ Db.updatedAt rec = now
     end.
Proof.
  cbv zeta. unfold Db.updateSecret.
  destruct (Db.getSecret (Db.u_id input) db) as [existing |] eqn:Hg; cbn [fst snd].
  - apply store_get_id in Hg as (Hid & _).
    split; [reflexivity |]. split.
    + intros k Hk. unfold Db.getSecret, Db.set_secrets. cbn [Db.secrets].
      rewrite store_get_put. cbn [Db.id]. rewrite Hid.
      destruct (String.eqb_spec (Db.u_id input) k); [congruence | reflexivity].
    + eexists. split; [reflexivity |].
      unfold Db.getSecret, Db.set_secrets. cbn [Db.secrets].
      rewrite store_get_put. cbn [Db.id Db.createdAt Db.updatedAt].
      rewrite Hid, String.eqb_refl. repeat split.
  - repeat split.
Qed.

Lemma filter_idem_delete (k : string) (s : list Db.DBSecretRecord) :
  Db.store_delete k (Db.store_delete k s) = Db.store_delete k s.
Proof.
  unfold Db.store_delete. induction s as [| r s IH]; [reflexivity |].
  rewrite filter_cons. destruct (decide _) as [Hk | Hk]; [| exact IH].
  rewrite filter_cons. destruct (decide _) as [_ | Hn]; [| contradiction].
  f_equal. exact IH.
Qed.

Section SortLaws.

Context {A : Type} (key : A -> Z).

Let cmp (a b : A) : Z := key a - key b.

Lemma sort_insert_first (x : A) (l : list A) :
  (forall z, In z l -> key x <= key z) -> JS.sort_insert cmp x l = x :: l.
Proof.
  destruct l as [| y l]; [reflexivity |]. intros H. cbn [JS.sort_insert].
  change (cmp x y) with (key x - key y). specialize (H y (or_introl eq_refl)).
  destruct (Z.leb_spec (key x - key y) 0); [reflexivity | lia].
Qed.

Lemma sort_insert_last (x : A) (l : list A) :
  (forall z, In z l -> key z < key x) -> JS.sort_insert cmp x l = l ++ [x].
Proof.
  induction l as [| y l IH]; [reflexivity |]. intros H. cbn [JS.sort_insert].
  change (cmp x y) with (key x - key y). pose proof (H y (or_introl eq_refl)).
  destruct (Z.leb_spec (key x - key y) 0); [lia |].
  cbn [app]. f_equal. apply IH. intros z Hz. apply H. right. exact Hz.
Qed.

Lemma sort_insert_before_last (x y : A) (l : list A) :
  key x <= key y -> JS.sort_insert cmp x (l ++ [y]) = JS.sort_insert cmp x l ++ [y].
Proof.
  intros H. induction l as [| z l IH]; cbn [app JS.sort_insert].
  - change (cmp x y) with (key x - key y).
    destruct (Z.leb_spec (key x - key y) 0); [reflexivity | lia].
  - destruct (cmp x z <=? 0); [reflexivity |]. cbn [app]. f_equal. exact IH.
Qed.

(** A stable sort commutes with the removal of elements. *)
Lemma sort_filter (P : A -> Prop) `{!forall x, Decision (P x)} (l : list A) :
  filter P (JS.sort cmp l) = JS.sort cmp (filter P l).
Proof.
  unfold JS.sort. induction l as [| x l IH]; [reflexivity |].
  cbn [foldr]. rewrite filter_cons.
  pose proof (sort_sorted key l) as Hs. unfold JS.sort in Hs. fold cmp in Hs.
  assert (Hins : forall L, StronglySorted (fun a b => key a <= key b) L ->
            filter P (JS.sort_insert cmp x L)
            = if decide (P x) then JS.sort_insert cmp x (filter P L) else filter P L).
  { induction 1 as [| y L HL IHL Hy]; cbn [JS.sort_insert].
    - rewrite filter_cons, filter_nil. destruct (decide (P x)); reflexivity.
    - change (cmp x y) with (key x - key y). destruct (Z.leb_spec (key x - key y) 0) as [Hle | Hgt].
      + rewrite filter_cons. destruct (decide (P x)); [| reflexivity].
        symmetry. apply sort_insert_first. intros z Hz.
        apply list_elem_of_In, list_elem_of_filter in Hz as (_ & Hz).
        apply list_elem_of_In in Hz. destruct Hz as [<- | Hz]; [lia |].
        rewrite Forall_forall in Hy. specialize (Hy z (proj2 (list_elem_of_In _ _) Hz)).
        cbv beta in Hy. lia.
      + rewrite !(filter_cons _ y). destruct (decide (P y)).
        * rewrite IHL. destruct (decide (P x)); [| reflexivity].
          cbn [JS.sort_insert]. change (cmp x y) with (key x - key y).
          destruct (Z.leb_spec (key x - key y) 0); [lia | reflexivity].
        * exact IHL. }
  rewrite (Hins _ Hs), IH. destruct (decide (P x)); reflexivity.
Qed.

Lemma sort_same_key (l : list A) (o : Z) :
  (forall z, In z l -> key z = o) -> JS.sort cmp l = l.
Proof.
  unfold JS.sort. induction l as [| x l IH]; [reflexivity |]. intros H.
  cbn [foldr]. rewrite IH by (intros z Hz; apply H; right; exact Hz).
  apply sort_insert_first. intros z Hz.
  rewrite (H x (or_introl eq_refl)), (H z (or_intror Hz)). lia.
Qed.

Lemma sort_app_last (l : list A) (x : A) :
  (forall z, In z l -> key z < key x) ->
  forall pre, (forall z, In z pre -> key z <= key x) ->
    foldr (JS.sort_insert cmp) (l ++ [x]) pre = foldr (JS.sort_insert cmp) l pre ++ [x].
Proof.
  intros Hl pre. induction pre as [| z pre IH]; intros Hpre; [reflexivity |].
  cbn [foldr]. rewrite IH by (intros w Hw; apply Hpre; right; exact Hw).
  apply sort_insert_before_last. apply Hpre. left. reflexivity.
Qed.

End SortLaws.

(** X14.  [listSecrets] returns the records of the store, each once,
    in ascending order of [order]; records of equal [order] come in the
    order of the store, that is of their ids. *)
Theorem listSecrets_stable (db : Db.DB) (o : Z) :
  Permutation (Db.secrets db) (Db.listSecrets db)
  /\ StronglySorted (fun r s => Db.order r <= Db.order s) (Db.listSecrets db)
  /\ filter (fun r => Db.order r = o) (Db.listSecrets db)
     = filter (fun r => Db.order r = o) (Db.secrets db).
Proof.
  split; [apply sort_perm |]. split; [apply (sort_sorted Db.order) |].
  unfold Db.listSecrets.
  rewrite (sort_filter Db.order (fun r => Db.order r = o)).
  apply (sort_same_key Db.order _ o).
  intros z Hz. apply list_elem_of_In, list_elem_of_filter in Hz as (Hz & _). exact Hz.
Qed.

(** X15.  [deleteSecret] removes the record of the id and no other:
    the id is no longer found, the other ids are found as before, the
    list is the former list without that record, the store [meta] is
    untouched, and a second deletion changes nothing. *)
Theorem deleteSecret_outcome (key : string) (db : Db.DB) :
  let db' := Db.deleteSecret key db in
  Db.getSecret key db' = None
  /\ (forall k, k <> key -> Db.getSecret k db' = Db.getSecret k db)
  /\ Db.listSecrets db' = Db.store_delete key (Db.listSecrets db)
  /\ Db.meta db' = Db.meta db
  /\ Db.deleteSecret key db' = db'.
Proof.
  cbv zeta. unfold Db.deleteSecret, Db.getSecret, Db.set_secrets, Db.listSecrets.
  cbn [Db.secrets Db.meta].
  split; [rewrite store_get_delete, String.eqb_refl; reflexivity |].
  split.
  - intros k Hk. rewrite store_get_delete.
    destruct (String.eqb_spec key k); [congruence | reflexivity].
  - split; [| split; [reflexivity | rewrite filter_idem_delete; reflexivity]].
    unfold Db.store_delete. symmetry. apply (sort_filter Db.order).
Qed.

Lemma store_put_split (rec : Db.DBSecretRecord) (s : list Db.DBSecretRecord) :
  Db.store_get (Db.id rec) s = None ->
  exists s1 s2, s = s1 ++ s2 /\ Db.store_put rec s = s1 ++ rec :: s2.
Proof.
  induction s as [| r s IH]; intros H.
  - exists [], []. split; reflexivity.
  - cbn [Db.store_get] in H. destruct (String.eqb_spec (Db.id r) (Db.id rec)) as [E | E];
      [discriminate H |].
    cbn [Db.store_put]. destruct (String.compare (Db.id rec) (Db.id r)) eqn:C.
    + apply String.compare_eq_iff in C. congruence.
    + exists [], (r :: s). split; reflexivity.
    + destruct (IH H) as (s1 & s2 & -> & ->). exists (r :: s1), s2. split; reflexivity.
Qed.

(** What a successful [addSecret] has done. *)
Lemma addSecret_ok (now : Z) (rnd : list byte) (input : Db.NewSecretInput)
    (db db' : Db.DB) (rec : Db.DBSecretRecord) :
  Db.addSecret now rnd input db = (db', Ok rec) ->
  Db.getSecret (Db.generateId rnd) db = None
  /\ rec = {| Db.id := Db.generateId rnd;
              Db.label := JS.trim (Db.n_label input);
              Db.issuer := Otpauth.truthy (JS.trim <$> Db.n_issuer input);
              Db.alg := Db.n_alg input;
              Db.digits := Db.n_digits input;
              Db.period := Db.n_period input;
              Db.encSecret := Db.n_encSecret input;
              Db.iv := Db.n_iv input;
              Db.createdAt := now;
              Db.updatedAt := now;
              Db.order := Db.order rec |}
  /\ Db.getSecret (Db.generateId rnd) db' = Some rec
  /\ (forall k, k <> Db.generateId rnd -> Db.getSecret k db' = Db.getSecret k db)
  /\ Db.listSecrets db' = Db.listSecrets db ++ [rec]
  /\ Db.meta db' = Db.meta db.
Proof.
  intros Hadd.
  pose proof (addSecret_order now rnd input db db' rec Hadd) as (_ & Hord).
  revert Hadd Hord. unfold Db.addSecret, Db.store_add, Db.getSecret. cbv zeta. cbn [Db.id].
  destruct (Db.store_get (Db.generateId rnd) (Db.secrets db)) eqn:Hg; [discriminate |].
  set (record := {| Db.id := Db.generateId rnd |}).
  intros [= <- <-] Hord.
  unfold Db.set_secrets, Db.listSecrets. cbn [Db.secrets Db.meta].
  split; [reflexivity |]. split; [reflexivity |].
  split; [rewrite store_get_put; change (Db.id record) with (Db.generateId rnd);
          rewrite String.eqb_refl; reflexivity |].
  split.
  { intros k Hk. rewrite store_get_put. change (Db.id record) with (Db.generateId rnd).
    destruct (String.eqb_spec (Db.generateId rnd) k); [congruence | reflexivity]. }
  split; [| reflexivity].
  destruct (store_put_split record (Db.secrets db) Hg) as (s1 & s2 & Hs & Hput).
  rewrite Hput, Hs. unfold JS.sort. rewrite !foldr_app. cbn [foldr].
  assert (Hlt : forall z, In z (s1 ++ s2) -> Db.order z < Db.order record).
  { destruct (Db.secrets db) as [| r0 s0] eqn:Hsec.
    - destruct s1; [| discriminate Hs]. destruct s2; [| discriminate Hs]. intros z [].
    - rewrite <- Hs. apply Hord. discriminate. }
  rewrite (sort_insert_last Db.order).
  - apply (sort_app_last Db.order).
    + intros z Hz. apply Hlt. apply in_or_app. right.
      eapply Permutation_in; [symmetry; apply sort_perm | exact Hz].
    + intros z Hz. apply Z.lt_le_incl, Hlt. apply in_or_app. left. exact Hz.
  - intros z Hz. apply Hlt. apply in_or_app. right.
    eapply Permutation_in; [symmetry; apply sort_perm | exact Hz].
Qed.

(** X16.  [addSecret] under an id that the store holds changes nothing
    and fails with the constraint error of the store.  Under a new id
    it stores the returned record: the record is found under its id,
    the other ids are found as before, and the list is the former list
    followed by the new record. *)
Theorem addSecret_outcome (now : Z) (rnd : list byte) (input : Db.NewSecretInput)
    (db : Db.DB) :
  match Db.getSecret (Db.generateId rnd) db with
  | Some _ => Db.addSecret now rnd input db = (db, Err ConstraintError)
  | None =>
      exists rec db',
        Db.addSecret now rnd input db = (db', Ok rec)
        /\ Db.id rec = Db.generateId rnd
        /\ Db.getSecret (Db.generateId rnd) db' = Some rec
        /\ (forall k, k <> Db.generateId rnd -> Db.getSecret k db' = Db.getSecret k db)
        /\ Db.listSecrets db' = Db.listSecrets db ++ [rec]
        /\ Db.meta db' = Db.meta db
  end.
Proof.
  destruct (Db.getSecret (Db.generateId rnd) db) as [old |] eqn:Hg.
  - unfold Db.addSecret, Db.store_add. cbv zeta. cbn [Db.id].
    unfold Db.getSecret in Hg. rewrite Hg. reflexivity.
  - destruct (Db.addSecret now rnd input db) as [db' [rec | e]] eqn:Hadd.
    + destruct (addSecret_ok now rnd input db db' rec Hadd)
        as (_ & Hrec & Hget & Hothers & Hlist & Hmeta).
      exists rec, db'. split; [reflexivity |].
      split; [rewrite Hrec; reflexivity |].
      split; [exact Hget |]. split; [exact Hothers |]. split; [exact Hlist | exact Hmeta].
    + exfalso. revert Hadd. unfold Db.addSecret, Db.store_add. cbv zeta. cbn [Db.id].
      unfold Db.getSecret in Hg. rewrite Hg. discriminate.
Qed.

(** ** Reordering *)

Lemma reorder_step_get (s : list Db.DBSecretRecord) (key k : string) (o t : Z) :
  Db.store_get k
    (match Db.store_get key s with
     | Some rec => Db.store_put (Db.set_order rec o t) s
     | None => s
     end)
  = if String.eqb key k
    then (fun rec => Db.set_order rec o t) <$> Db.store_get k s
    else Db.store_get k s.
Proof.
  destruct (Db.store_get key s) as [rec |] eqn:Hg.
  - pose proof (store_get_id _ _ _ Hg) as (Hid & _).
    rewrite store_get_put. cbn [Db.set_order Db.id]. rewrite Hid.
    destruct (String.eqb_spec key k) as [<- |]; [rewrite Hg |]; reflexivity.
  - destruct (String.eqb_spec key k) as [<- |]; [rewrite Hg |]; reflexivity.
Qed.

Lemma reorder_loop_other (now : nat -> Z) (newOrder : list (string * Z)) (k : string) :
  forall (i : nat) (s : list Db.DBSecretRecord),
    ~ In k (map fst newOrder) ->
    Db.store_get k (Db.reorder_loop now i newOrder s) = Db.store_get k s.
Proof.
  induction newOrder as [| [key o] rest IH]; intros i s Hk; [reflexivity |].
  cbn [Db.reorder_loop]. cbv zeta.
  rewrite IH by (intros H; apply Hk; right; exact H).
  rewrite reorder_step_get.
  destruct (String.eqb_spec key k) as [E |]; [| reflexivity].
  exfalso. apply Hk. left. exact E.
Qed.

Lemma reorder_loop_named (now : nat -> Z) (newOrder : list (string * Z)) (k : string)
    (o : Z) :
  forall (j i : nat) (s : list Db.DBSecretRecord),
    NoDup (map fst newOrder) ->
    newOrder !! j = Some (k, o) ->
    Db.store_get k (Db.reorder_loop now i newOrder s)
    = (fun rec => Db.set_order rec o (now (i + j)%nat)) <$> Db.store_get k s.
Proof.
  induction newOrder as [| [key o'] rest IH]; intros j i s Hnd Hj; [discriminate Hj |].
  cbn [map fst] in Hnd. apply NoDup_cons in Hnd as (Hnotin & Hnd).
  rewrite list_elem_of_In in Hnotin.
  cbn [Db.reorder_loop]. cbv zeta. destruct j as [| j].
  - injection Hj as -> ->.
    rewrite reorder_loop_other by exact Hnotin.
    rewrite reorder_step_get, String.eqb_refl, Nat.add_0_r. reflexivity.
  - cbn in Hj. rewrite (IH j (S i) _ Hnd Hj), reorder_step_get.
    destruct (String.eqb_spec key k) as [-> |].
    + exfalso. apply Hnotin. apply in_map_iff. exists (k, o). split; [reflexivity |].
      apply list_elem_of_In. eapply list_elem_of_lookup_2. exact Hj.
    + replace (S i + j)%nat with (i + S j)%nat by lia. reflexivity.
Qed.

(** X17.  [reorderSecrets] with a batch that names no id twice: a
    record that the batch names takes the order of its pair and the
    clock as its update time, and keeps every other field; a pair whose
    id the store does not hold is skipped; the records that the batch
    does not name and the store [meta] stay as they are. *)
Theorem reorderSecrets_outcome (now : nat -> Z) (newOrder : list (string * Z))
    (db : Db.DB) :
  NoDup (map fst newOrder) ->
  let db' := Db.reorderSecrets now newOrder db in
  Db.meta db' = Db.meta db
  /\ (forall j k o, newOrder !! j = Some (k, o) ->
        Db.getSecret k db'
        = (fun rec => Db.set_order rec o (now j)) <$> Db.getSecret k db)
  /\ (forall k, ~ In k (map fst newOrder) -> Db.getSecret k db' = Db.getSecret k db).
Proof.
  intros Hnd. cbv zeta. unfold Db.reorderSecrets, Db.getSecret.
  destruct newOrder as [| p rest] eqn:E.
  - split; [reflexivity |]. split; [intros j k o Hj; destruct j; discriminate Hj |].
    reflexivity.
  - rewrite <- E in *. clear E. cbn [Db.set_secrets Db.meta Db.secrets].
    split; [reflexivity |]. split.
    + intros j k o Hj. apply (reorder_loop_named now newOrder k o j 0 _ Hnd Hj).
    + intros k Hk. apply reorder_loop_other. exact Hk.
Qed.

Lemma reorderSecrets_outcome_witness :
  let db := {| Db.secrets := [Sample.first; Sample.last]; Db.meta := ∅ |} in
  let db' := Db.reorderSecrets (fun _ => 7) [("zz", 5); (Db.id Sample.last, 0)] db in
  Db.meta db' = Db.meta db
  /\ (forall j k o, [("zz", 5); (Db.id Sample.last, 0)] !! j = Some (k, o) ->
        Db.getSecret k db'
        = (fun rec => Db.set_order rec o 7) <$> Db.getSecret k db)
  /\ (forall k, ~ In k (map fst [("zz", 5); (Db.id Sample.last, 0)]) ->
        Db.getSecret k db' = Db.getSecret k db).
Proof.
  apply (reorderSecrets_outcome (fun _ => 7) [("zz", 5); (Db.id Sample.last, 0)]
           {| Db.secrets := [Sample.first; Sample.last]; Db.meta := ∅ |}).
  vm_compute. repeat constructor; rewrite list_elem_of_In; cbn; intuition discriminate.
Defined.

(** ** The keys of the store *)

Lemma Forall_store_put (P : Db.DBSecretRecord -> Prop) (rec : Db.DBSecretRecord)
    (s : list Db.DBSecretRecord) :
  P rec -> Forall P s -> Forall P (Db.store_put rec s).
Proof.
  intros Hrec. induction 1 as [| r s Hr Hs IH]; cbn [Db.store_put].
  - repeat constructor. exact Hrec.
  - destruct (String.compare (Db.id rec) (Db.id r)); repeat constructor; assumption.
Qed.

Lemma store_put_key_order (rec : Db.DBSecretRecord) (s : list Db.DBSecretRecord) :
  Db.key_order s -> Db.key_order (Db.store_put rec s).
Proof.
  unfold Db.key_order. induction 1 as [| r s Hs IH Hr]; cbn [Db.store_put].
  - repeat constructor.
  - destruct (String.compare (Db.id rec) (Db.id r)) eqn:C.
    + apply String.compare_eq_iff in C. constructor; [exact Hs |].
      rewrite C. exact Hr.
    + constructor; [constructor; assumption |]. constructor; [exact C |].
      eapply Forall_impl; [exact Hr |]. cbv beta. intros z Hz.
      exact (compare_lt_trans _ _ _ C Hz).
    + constructor; [exact IH |]. apply Forall_store_put; [| exact Hr].
      apply compare_gt_lt. exact C.
Qed.

Lemma store_delete_key_order (key : string) (s : list Db.DBSecretRecord) :
  Db.key_order s -> Db.key_order (Db.store_delete key s).
Proof.
  unfold Db.key_order, Db.store_delete. induction 1 as [| r s Hs IH Hr]; [constructor |].
  rewrite filter_cons. destruct (decide _); [| exact IH].
  constructor; [exact IH |]. apply Forall_forall. intros z Hz.
  apply list_elem_of_filter in Hz as (_ & Hz).
  rewrite Forall_forall in Hr. exact (Hr z Hz).
Qed.

Lemma reorder_loop_key_order (now : nat -> Z) (newOrder : list (string * Z)) :
  forall (i : nat) (s : list Db.DBSecretRecord),
    Db.key_order s -> Db.key_order (Db.reorder_loop now i newOrder s).
Proof.
  induction newOrder as [| [key o] rest IH]; intros i s Hs; [exact Hs |].
  cbn [Db.reorder_loop]. cbv zeta. apply IH.
  destruct (Db.store_get key s); [apply store_put_key_order |]; exact Hs.
Qed.

Lemma key_order_NoDup (s : list Db.DBSecretRecord) :
  Db.key_order s -> NoDup (map Db.id s).
Proof.
  unfold Db.key_order. induction 1 as [| r s Hs IH Hr]; cbn [map]; [constructor |].
  constructor; [| exact IH]. rewrite list_elem_of_In, in_map_iff.
  intros (z & Hid & Hz). rewrite Forall_forall in Hr.
  specialize (Hr z (proj2 (list_elem_of_In _ _) Hz)). cbv beta in Hr.
  rewrite Hid, String_compare_refl in Hr. discriminate Hr.
Qed.

(** X18.  The store keeps its records in strictly ascending order of
    their ids through every operation of the module, so that no two
    records ever share an id: the order holds in a fresh database and
    after [clearAll], and [addSecret], [updateSecret], [deleteSecret]
    and [reorderSecrets] preserve it. *)
Theorem key_order_preserved (db : Db.DB) :
  Db.key_order (Db.secrets db) ->
  NoDup (map Db.id (Db.listSecrets db))
  /\ (forall now rnd input,
        Db.key_order (Db.secrets (fst (Db.addSecret now rnd input db))))
  /\ (forall now input,
        Db.key_order (Db.secrets (fst (Db.updateSecret now input db))))
  /\ (forall key, Db.key_order (Db.secrets (Db.deleteSecret key db)))
  /\ (forall now newOrder,
        Db.key_order (Db.secrets (Db.reorderSecrets now newOrder db)))
  /\ Db.key_order (Db.secrets (Db.clearAll db))
  /\ Db.key_order (Db.secrets Db.fresh).
Proof.
  intros Hs. split; [| split; [| split; [| split; [| split; [| split]]]]].
  - assert (Hp : Permutation (map Db.id (Db.secrets db)) (map Db.id (Db.listSecrets db)))
      by (apply Permutation_map, sort_perm).
    rewrite <- Hp. apply key_order_NoDup. exact Hs.
  - intros now rnd input. unfold Db.addSecret, Db.store_add. cbv zeta.
    destruct (Db.store_get _ _); cbn [fst Db.set_secrets Db.secrets];
      [exact Hs | apply store_put_key_order; exact Hs].
  - intros now input. unfold Db.updateSecret.
    destruct (Db.getSecret _ _); cbn [fst Db.set_secrets Db.secrets];
      [apply store_put_key_order |]; exact Hs.
  - intros key. apply store_delete_key_order. exact Hs.
  - intros now newOrder. unfold Db.reorderSecrets.
    destruct newOrder; [exact Hs |]. apply reorder_loop_key_order. exact Hs.
  - constructor.
  - constructor.
Qed.

Lemma key_order_preserved_witness :
  let db := {| Db.secrets := [Sample.first; Sample.last]; Db.meta := ∅ |} in
  NoDup (map Db.id (Db.listSecrets db))
  /\ (forall now rnd input,
        Db.key_order (Db.secrets (fst (Db.addSecret now rnd input db))))
  /\ (forall now input,
        Db.key_order (Db.secrets (fst (Db.updateSecret now input db))))
  /\ (forall key, Db.key_order (Db.secrets (Db.deleteSecret key db)))
  /\ (forall now newOrder,
        Db.key_order (Db.secrets (Db.reorderSecrets now newOrder db)))
  /\ Db.key_order (Db.secrets (Db.clearAll db))
  /\ Db.key_order (Db.secrets Db.fresh).
Proof.
  apply (key_order_preserved {| Db.secrets := [Sample.first; Sample.last]; Db.meta := ∅ |}).
  repeat constructor.
Defined.

(** ** The ids of the records *)

Lemma byte_two_hex (b : byte) :
  JS.padStart (JS.byte_toString16 b) 2 "0"
  = String (JS.hex_char (byte.unsigned b / 16))
      (String (JS.hex_char (byte.unsigned b mod 16)) EmptyString).
Proof. destruct b; reflexivity. Qed.

Lemma hex_char_value (d : Z) :
  0 <= d < 16 ->
  Plain.hex_value (JS.hex_char d) = Some (Z.to_N d)
  /\ In (JS.hex_char d) (list_ascii_of_string "0123456789abcdef").
Proof.
  intros Hd.
  assert (Hc : d = 0 \/ d = 1 \/ d = 2 \/ d = 3 \/ d = 4 \/ d = 5 \/ d = 6 \/ d = 7
               \/ d = 8 \/ d = 9 \/ d = 10 \/ d = 11 \/ d = 12 \/ d = 13 \/ d = 14
               \/ d = 15) by lia.
  repeat (destruct Hc as [-> | Hc]; [split; [reflexivity | cbn; tauto] |]).
  subst d. split; [reflexivity | cbn; tauto].
Qed.

Lemma generateId_cons (b : byte) (bytes : list byte) :
  Db.generateId (b :: bytes)
  = String (JS.hex_char (byte.unsigned b / 16))
      (String (JS.hex_char (byte.unsigned b mod 16)) (Db.generateId bytes)).
Proof.
  unfold Db.generateId. cbn [fold_right]. rewrite byte_two_hex. reflexivity.
Qed.

Lemma hex_digits_of_byte (b : byte) :
  0 <= byte.unsigned b / 16 < 16 /\ 0 <= byte.unsigned b mod 16 < 16.
Proof. pose proof (byte.unsigned_range b). split; Z.div_mod_to_equations; lia. Qed.

(** X19.  The id made of [n] random bytes has [2 n] characters, all of
    them lower-case hexadecimal digits, and different bytes make
    different ids. *)
Theorem generateId_faithful (bytes bytes' : list byte) :
  JS.len (Db.generateId bytes) = 2 * Z.of_nat (length bytes)
  /\ (forall c, In c (list_ascii_of_string (Db.generateId bytes)) ->
                In c (list_ascii_of_string "0123456789abcdef"))
  /\ (Db.generateId bytes = Db.generateId bytes' <-> bytes = bytes').
Proof.
  split; [| split].
  - induction bytes as [| b bytes IH]; [reflexivity |].
    rewrite generateId_cons. unfold JS.len in *. cbn [String.length length]. lia.
  - induction bytes as [| b bytes IH]; [intros c [] |].
    rewrite generateId_cons. destruct (hex_digits_of_byte b) as (Hh & Hl).
    intros c [<- | [<- | Hc]];
      [apply (hex_char_value _ Hh) | apply (hex_char_value _ Hl) | exact (IH c Hc)].
  - split; [| intros ->; reflexivity].
    revert bytes'. induction bytes as [| b bytes IH]; intros [| b' bytes'].
    + reflexivity.
    + rewrite generateId_cons. discriminate.
    + rewrite generateId_cons. discriminate.
    + rewrite !generateId_cons. intros [= Hh Hl Ht].
      destruct (hex_digits_of_byte b) as (Hbh & Hbl).
      destruct (hex_digits_of_byte b') as (Hbh' & Hbl').
      apply (f_equal Plain.hex_value) in Hh, Hl.
      rewrite (proj1 (hex_char_value _ Hbh)), (proj1 (hex_char_value _ Hbh')) in Hh.
      rewrite (proj1 (hex_char_value _ Hbl)), (proj1 (hex_char_value _ Hbl')) in Hl.
      injection Hh as Hh. injection Hl as Hl.
      apply Z2N.inj in Hh; [| lia | lia]. apply Z2N.inj in Hl; [| lia | lia].
      f_equal; [| exact (IH _ Ht)].
      apply byte.unsigned_inj.
      rewrite (Z.div_mod (byte.unsigned b) 16), (Z.div_mod (byte.unsigned b') 16) by lia.
      rewrite Hh, Hl. reflexivity.
Qed.

(** ** The session key *)

(** X20.  When [ensureSessionKey] has made or read the key of a
    session that had none, every later session over the database it
    left reads the same key, whatever its random bytes, and leaves the
    database as it is. *)
Theorem ensureSessionKey_stable (rnd rnd' : list byte) (a a1 : Main.App) :
  Main.sessionKey a = None ->
  Main.ensureSessionKey rnd a = (a1, Ok ()) ->
  exists key,
    Main.sessionKey a1 = Some key
    /\ Db.secrets (Main.db a1) = Db.secrets (Main.db a)
    /\ Main.ensureSessionKey rnd' (Main.boot (Main.db a1))
       = (Main.set_sessionKey (Main.boot (Main.db a1)) (Some key), Ok ()).
Proof.
  intros Hnone. unfold Main.ensureSessionKey at 1. rewrite Hnone.
  destruct (Db.metaGet "appKey" (Main.db a)) as [v |] eqn:Hv.
  - destruct (Main.meta_truthy v) eqn:Ht.
    + destruct (Main.importKey (Main.Uint8Array_of v)) as [k | e] eqn:Hk; [| discriminate].
      intros [= <-]. exists k. split; [reflexivity |]. split; [reflexivity |].
      unfold Main.ensureSessionKey. cbn [Main.boot Main.sessionKey Main.set_sessionKey Main.db].
      rewrite Hv, Ht, Hk. reflexivity.
    + destruct (Main.importKey rnd) as [k | e] eqn:Hk; [| discriminate].
      intros [= <-]. exists k. split; [reflexivity |]. split; [reflexivity |].
      unfold Main.ensureSessionKey.
      cbn [Main.boot Main.sessionKey Main.set_sessionKey Main.set_db Main.db].
      unfold Db.metaGet, Db.metaPut. cbn [Db.meta]. rewrite lookup_insert_eq.
      cbn [Main.meta_truthy Main.Uint8Array_of]. rewrite Hk. reflexivity.
  - destruct (Main.importKey rnd) as [k | e] eqn:Hk; [| discriminate].
    intros [= <-]. exists k. split; [reflexivity |]. split; [reflexivity |].
    unfold Main.ensureSessionKey.
    cbn [Main.boot Main.sessionKey Main.set_sessionKey Main.set_db Main.db].
    unfold Db.metaGet, Db.metaPut. cbn [Db.meta]. rewrite lookup_insert_eq.
    cbn [Main.meta_truthy Main.Uint8Array_of]. rewrite Hk. reflexivity.
Qed.

Lemma ensureSessionKey_stable_witness :
  exists key,
    Main.sessionKey
      (fst (Main.ensureSessionKey (repeat Byte.x07 32) (Main.boot Db.fresh))) = Some key
    /\ Db.secrets (Main.db (fst (Main.ensureSessionKey (repeat Byte.x07 32)
                                    (Main.boot Db.fresh))))
       = Db.secrets (Main.db (Main.boot Db.fresh))
    /\ Main.ensureSessionKey (repeat Byte.x09 32)
         (Main.boot (Main.db (fst (Main.ensureSessionKey (repeat Byte.x07 32)
                                      (Main.boot Db.fresh)))))
       = (Main.set_sessionKey
            (Main.boot (Main.db (fst (Main.ensureSessionKey (repeat Byte.x07 32)
                                         (Main.boot Db.fresh)))))
            (Some key), Ok ()).
Proof.
  apply (ensureSessionKey_stable (repeat Byte.x07 32) (repeat Byte.x09 32)
           (Main.boot Db.fresh)
           (fst (Main.ensureSessionKey (repeat Byte.x07 32) (Main.boot Db.fresh)))).
  - reflexivity.
  - reflexivity.
Defined.

(** ** What the list shows *)

Lemma omap_all {A B} (f : A -> option B) (Q : A -> B -> Prop) (l : list A) :
  (forall x, In x l -> exists y, f x = Some y /\ Q x y) ->
  Forall2 Q l (omap f l).
Proof.
  induction l as [| x l IH]; intros H; [constructor |].
  cbn [omap list_omap]. destruct (H x (or_introl eq_refl)) as (y & -> & Hq).
  constructor; [exact Hq |]. apply IH. intros z Hz. apply H. right. exact Hz.
Qed.

Lemma omap_agree {A B} (f g : A -> option B) (l : list A) :
  (forall x, In x l -> f x = g x) -> omap f l = omap g l.
Proof.
  induction l as [| x l IH]; intros H; [reflexivity |].
  cbn [omap list_omap]. rewrite (H x (or_introl eq_refl)).
  rewrite IH by (intros z Hz; apply H; right; exact Hz). reflexivity.
Qed.

Section Cards.

Variable hmac : list byte -> list byte -> Totp.TOTPHashAlg -> list byte.

Lemma cards_fst (now : nat -> Z) (all : list Main.DecryptedEntry) :
  forall i drawn, Main.cards hmac now i all = Ok drawn -> map fst drawn = all.
Proof.
  induction all as [| e all IH]; intros i drawn; cbn [Main.cards].
  - intros [= <-]. reflexivity.
  - destruct (Main.awaitWindow hmac (now i) e) as [w | err]; cbn [mbind result_bind];
      [| discriminate].
    destruct (Main.cards hmac now (S i) all) as [cs | err] eqn:Hc;
      cbn [mbind result_bind]; [| discriminate].
    intros [= <-]. cbn [map fst]. f_equal. exact (IH _ _ Hc).
Qed.


Lemma cards_err (now : nat -> Z) (all : list Main.DecryptedEntry) :
  forall i err,
    Main.cards hmac now i all = Err err ->
    err = DataError /\ exists e, In e all /\ Main.secretBytes e = [].
Proof.
  induction all as [| x all IH]; intros i err; cbn [Main.cards]; [discriminate |].
  unfold Main.awaitWindow, Totp.hmac_importKey.
  destruct (Main.secretBytes x) as [| b bs] eqn:Hx; cbn [mbind result_bind].
  - intros [= <-]. split; [reflexivity |]. exists x. split; [left; reflexivity | exact Hx].
  - destruct (Main.cards hmac now (S i) all) as [cs | err'] eqn:Hc;
      cbn [mbind result_bind]; [discriminate |].
    intros [= <-]. destruct (IH _ _ Hc) as (-> & e & Hin & He).
    split; [reflexivity |]. exists e. split; [right; exact Hin | exact He].
Qed.

Lemma cards_drawn (now : nat -> Z) (all : list Main.DecryptedEntry) (i : nat) :
  (forall e, In e all -> Main.secretBytes e <> []) ->
  exists drawn, Main.cards hmac now i all = Ok drawn.
Proof.
  intros H. destruct (Main.cards hmac now i all) as [cs | err] eqn:Hc; [eauto |].
  destruct (cards_err _ _ _ _ Hc) as (_ & e & Hin & He). destruct (H e Hin He).
Qed.

Lemma cards_app (now : nat -> Z) (l1 l2 : list Main.DecryptedEntry) :
  forall i,
    Main.cards hmac now i (l1 ++ l2)
    = match Main.cards hmac now i l1 with
      | Err err => Err err
      | Ok c1 =>
          match Main.cards hmac now (i + length l1) l2 with
          | Err err => Err err
          | Ok c2 => Ok (c1 ++ c2)
          end
      end.
Proof.
  induction l1 as [| x l1 IH]; intros i; cbn [app Main.cards length].
  - rewrite Nat.add_0_r. destruct (Main.cards hmac now i l2); reflexivity.
  - destruct (Main.awaitWindow hmac (now i) x) as [w | err]; cbn [mbind result_bind];
      [| reflexivity].
    rewrite IH. replace (S i + length l1)%nat with (i + S (length l1))%nat by lia.
    destruct (Main.cards hmac now (S i) l1) as [c1 | err]; cbn [mbind result_bind];
      [| reflexivity].
    destruct (Main.cards hmac now (i + S (length l1)) l2); reflexivity.
Qed.


End Cards.

Lemma Forall2_right {A B} (Q : A -> B -> Prop) (P : B -> Prop) (l : list A) (k : list B) :
  Forall2 Q l k -> (forall x y, Q x y -> P y) -> forall y, In y k -> P y.
Proof.
  induction 1 as [| x y l k Hxy _ IH]; intros HQ z Hz; [destruct Hz |].
  destruct Hz as [<- | Hz]; [exact (HQ _ _ Hxy) | exact (IH HQ z Hz)].
Qed.

Lemma ensureSessionKey_frame (rnd : list byte) (a a1 : Main.App) (r : result unit) :
  Main.ensureSessionKey rnd a = (a1, r) ->
  Db.secrets (Main.db a1) = Db.secrets (Main.db a)
  /\ Main.decryptedCache a1 = Main.decryptedCache a
  /\ Main.tickTimer a1 = Main.tickTimer a.
Proof.
  unfold Main.ensureSessionKey.
  destruct (Main.sessionKey a); [intros [= <- _]; repeat split |].
  destruct (Db.metaGet "appKey" (Main.db a)) as [v |];
    [destruct (Main.meta_truthy v) |];
    match goal with
    | |- context [Main.importKey ?k] => destruct (Main.importKey k)
    end; intros [= <- _]; repeat split.
Qed.

Section Shown.

Variable hmac : list byte -> list byte -> Totp.TOTPHashAlg -> list byte.
Variable aes_gcm_encrypt :
  Crypto.CryptoKey -> list byte -> list byte -> list byte.
Variable aes_gcm_decrypt :
  Crypto.CryptoKey -> list byte -> list byte -> option (list byte).

Local Abbreviation decrypts key r :=
  (aes_gcm_decrypt key (Db.iv r) (Db.encSecret r)).




(** X22.  When every listed record authenticates and none decrypts to
    a secret of no byte, [unlock] succeeds with the ticker running, and
    the list it draws shows every record, in the order of
    [listSecrets], each with the secret that its ciphertext decrypts
    to. *)
Theorem unlock_shows_all (rnd : list byte) (clock : nat -> Z) (a a1 : Main.App)
    (key : Crypto.CryptoKey) :
  Main.ensureSessionKey rnd a = (a1, Ok ()) ->
  Main.sessionKey a1 = Some key ->
  NoDup (map Db.id (Db.listSecrets (Main.db a1))) ->
  (forall r, In r (Db.listSecrets (Main.db a1)) ->
     exists pt, decrypts key r = Some pt /\ pt <> []) ->
  exists a' drawn,
    Main.unlock hmac aes_gcm_decrypt rnd clock a = (a', Ok ())
    /\ Main.tickTimer a' = true
    /\ Main.db a' = Main.db a1
    /\ Main.refreshList hmac clock a' = Ok drawn
    /\ Forall2 (fun r e => exists pt, decrypts key r = Some pt /\ e = Main.entry_of r pt)
         (Db.listSecrets (Main.db a1)) (map fst drawn).
Proof.
  intros Hkey Hk Hnd Hall.
  assert (Hauth : forall r, In r (Db.listSecrets (Main.db a1)) -> decrypts key r <> None)
    by (intros r Hr; destruct (Hall r Hr) as (pt & -> & _); discriminate).
  destruct (unlock_loop_all aes_gcm_decrypt key (Db.listSecrets (Main.db a1)) ∅ Hauth Hnd)
    as (cache & Hrun & Hin & _).
  assert (Hshown : Forall2 (fun r e => exists pt, decrypts key r = Some pt
                                                  /\ pt <> [] /\ e = Main.entry_of r pt)
                     (Db.listSecrets (Main.db a1))
                     (omap (fun r => cache !! Db.id r) (Db.listSecrets (Main.db a1)))).
  { apply omap_all. intros r Hr. destruct (Hin r Hr) as (pt & Hd & Hc).
    exists (Main.entry_of r pt). split; [exact Hc |]. exists pt.
    split; [exact Hd |]. split; [| reflexivity].
    destruct (Hall r Hr) as (pt' & Hd' & Hne). congruence. }
  destruct (cards_drawn hmac clock
              (omap (fun r => cache !! Db.id r) (Db.listSecrets (Main.db a1))) 0)
    as (drawn & Hdrawn).
  { apply (Forall2_right _ _ _ _ Hshown). intros r e (pt & _ & Hne & ->). exact Hne. }
  exists (Main.startTicker (Main.set_decryptedCache a1 cache)), drawn.
  unfold Main.unlock. rewrite Hkey, Hk, Hrun. cbv zeta.
  unfold Main.refreshList. cbv zeta.
  cbn [Main.startTicker Main.set_tickTimer Main.set_decryptedCache Main.db
       Main.decryptedCache].
  rewrite Hdrawn. split; [reflexivity |]. split; [reflexivity |].
  split; [reflexivity |]. split; [reflexivity |].
  rewrite (cards_fst hmac _ _ _ _ Hdrawn).
  eapply Forall2_impl; [exact Hshown |]. cbv beta.
  intros r e (pt & Hd & _ & He). exists pt. split; assumption.
Qed.

(** What a successful [storeEntry] has done, [a1] being the
    application once the session key is there. *)
Lemma storeEntry_ok (now : Z) (rnd iv idrnd : list byte)
    (entry : Otpauth.ParsedTOTPEntry) (a a' : Main.App) :
  Main.storeEntry aes_gcm_encrypt now rnd iv idrnd entry a = (a', Ok ()) ->
  exists key rec,
    Main.sessionKey a' = Some key
    /\ Db.addSecret now idrnd
         {| Db.n_label := Otpauth.label entry;
            Db.n_issuer := Otpauth.issuer entry;
            Db.n_alg := Otpauth.algorithm entry;
            Db.n_digits := Otpauth.digits entry;
            Db.n_period := Otpauth.period entry;
            Db.n_encSecret := aes_gcm_encrypt key iv (Otpauth.secretBytes entry);
            Db.n_iv := iv |}
         {| Db.secrets := Db.secrets (Main.db a); Db.meta := Db.meta (Main.db a') |}
       = (Main.db a', Ok rec)
    /\ Main.decryptedCache a'
       = <[Db.id rec := Main.entry_of rec (Otpauth.secretBytes entry)]>
           (Main.decryptedCache a)
    /\ Main.tickTimer a' = Main.tickTimer a.
Proof.
  unfold Main.storeEntry.
  destruct (match Main.sessionKey a with
            | Some _ => (a, Ok ())
            | None => Main.ensureSessionKey rnd a
            end) as [a1 [[] | e]] eqn:H1; [| discriminate].
  assert (Hframe : Db.secrets (Main.db a1) = Db.secrets (Main.db a)
                   /\ Main.decryptedCache a1 = Main.decryptedCache a
                   /\ Main.tickTimer a1 = Main.tickTimer a).
  { destruct (Main.sessionKey a); [injection H1 as <-; repeat split |].
    exact (ensureSessionKey_frame _ _ _ _ H1). }
  destruct Hframe as (Hsec & Hcache & Htick).
  destruct (Main.sessionKey a1) as [key |] eqn:Hk; [| discriminate].
  unfold Crypto.encryptAESGCM. cbv zeta.
  destruct (Db.addSecret now idrnd _ (Main.db a1)) as [d [rec | e]] eqn:Hadd;
    [| discriminate].
  intros [= <-]. exists key, rec.
  cbn [Main.set_decryptedCache Main.set_db Main.sessionKey Main.db Main.decryptedCache
       Main.tickTimer].
  split; [exact Hk |]. split; [| split; [rewrite Hcache; reflexivity | exact Htick]].
  destruct (addSecret_ok _ _ _ _ _ _ Hadd) as (_ & _ & _ & _ & _ & Hmeta).
  rewrite Hmeta, <- Hsec. destruct (Main.db a1). exact Hadd.
Qed.

(** X23.  After a successful [storeEntry] the record is in the store
    under its new id, with the trimmed label and the parameters of the
    entry, and the entry is in the cache with the secret in clear.
    The list is the former list followed by the new record.  When the
    list could be drawn before, it is then drawn with the former cards
    followed by the card of the new entry, unless the secret of the
    entry has no byte: [storeEntry] accepts such an entry, and
    [refreshList] then fails with a [DataError]. *)
Theorem storeEntry_shown_last (now : Z) (clock : nat -> Z) (rnd iv idrnd : list byte)
    (entry : Otpauth.ParsedTOTPEntry) (a a' : Main.App) :
  Main.storeEntry aes_gcm_encrypt now rnd iv idrnd entry a = (a', Ok ()) ->
  exists rec,
    let e := Main.entry_of rec (Otpauth.secretBytes entry) in
    Db.getSecret (Db.generateId idrnd) (Main.db a') = Some rec
    /\ Main.decryptedCache a' !! Db.generateId idrnd = Some e
    /\ Main.label e = JS.trim (Otpauth.label entry)
    /\ Main.alg e = Otpauth.algorithm entry
    /\ Main.digits e = Otpauth.digits entry
    /\ Main.period e = Otpauth.period entry
    /\ Main.secretBytes e = Otpauth.secretBytes entry
    /\ Db.listSecrets (Main.db a') = Db.listSecrets (Main.db a) ++ [rec]
    /\ match Main.refreshList hmac clock a with
       | Err err => Main.refreshList hmac clock a' = Err err
       | Ok drawn =>
           Main.refreshList hmac clock a'
           = match Otpauth.secretBytes entry with
             | [] => Err DataError
             | _ :: _ =>
                 Ok (drawn ++ [(e, Main.windowData hmac (clock (length drawn)) e)])
             end
       end.
Proof.
  intros Hstore.
  destruct (storeEntry_ok _ _ _ _ _ _ _ Hstore) as (key & rec & _ & Hadd & Hcache & _).
  destruct (addSecret_ok _ _ _ _ _ _ Hadd) as (Hnew & Hrec & Hget & _ & Hlist & _).
  assert (Hid : Db.id rec = Db.generateId idrnd) by (rewrite Hrec; reflexivity).
  assert (Hl : Db.listSecrets (Main.db a') = Db.listSecrets (Main.db a) ++ [rec])
    by exact Hlist.
  exists rec. cbv zeta. split; [exact Hget |].
  split; [rewrite Hcache, Hid; apply lookup_insert_eq |].
  split; [rewrite Hrec; reflexivity |]. split; [rewrite Hrec; reflexivity |].
  split; [rewrite Hrec; reflexivity |]. split; [rewrite Hrec; reflexivity |].
  split; [reflexivity |]. split; [exact Hl |].
  unfold Main.refreshList. cbv zeta. rewrite Hl, omap_app, cards_app.
  assert (Hold : omap (fun r => Main.decryptedCache a' !! Db.id r)
                   (Db.listSecrets (Main.db a))
                 = omap (fun r => Main.decryptedCache a !! Db.id r)
                     (Db.listSecrets (Main.db a))).
  { apply omap_agree. intros r Hr. rewrite Hcache. apply lookup_insert_ne.
    rewrite Hid. intros E. unfold Db.getSecret in Hnew. cbn [Db.secrets] in Hnew.
    apply (proj1 (store_get_none _ _) Hnew r); [| symmetry; exact E].
    eapply Permutation_in; [symmetry; apply sort_perm | exact Hr]. }
  rewrite Hold.
  destruct (Main.cards hmac clock 0 _) as [drawn | err] eqn:Hc; [| reflexivity].
  pose proof (cards_fst hmac _ _ _ _ Hc) as Hfst.
  rewrite <- Hfst, length_map.
  cbn [omap list_omap]. rewrite Hcache, lookup_insert_eq.
  cbn [Main.cards]. unfold Main.awaitWindow, Totp.hmac_importKey.
  cbn [Main.entry_of Main.secretBytes Nat.add].
  destruct (Otpauth.secretBytes entry); reflexivity.
Qed.

End Shown.

Lemma unlock_shows_all_witness :
  let a := Sample.vault [Sample.first; Sample.last] in
  let a1 := fst (Main.ensureSessionKey [] a) in
  exists a' drawn,
    Main.unlock Plain.hmac Plain.aes_gcm_decrypt [] (fun _ => 59000) a = (a', Ok ())
    /\ Main.tickTimer a' = true
    /\ Main.db a' = Main.db a1
    /\ Main.refreshList Plain.hmac (fun _ => 59000) a' = Ok drawn
    /\ Forall2 (fun r e =>
                  exists pt,
                    Plain.aes_gcm_decrypt Sample.key (Db.iv r) (Db.encSecret r) = Some pt
                    /\ e = Main.entry_of r pt)
         (Db.listSecrets (Main.db a1)) (map fst drawn).
Proof.
  apply (unlock_shows_all Plain.hmac Plain.aes_gcm_decrypt [] (fun _ => 59000)
           (Sample.vault [Sample.first; Sample.last])
           (fst (Main.ensureSessionKey [] (Sample.vault [Sample.first; Sample.last])))
           Sample.key).
  - reflexivity.
  - reflexivity.
  - vm_compute. repeat constructor; rewrite list_elem_of_In; cbn; intuition discriminate.
  - intros r Hr. vm_compute in Hr.
    destruct Hr as [<- | [<- | []]]; exists [Byte.x48; Byte.x69];
      (split; [vm_compute; reflexivity | discriminate]).
Defined.

Lemma storeEntry_shown_last_witness :
  let entry := {| Otpauth.label := " alice ";
                  Otpauth.issuer := None;
                  Otpauth.secretBytes := Sample.rfc_secret;
                  Otpauth.algorithm := Totp.SHA1;
                  Otpauth.digits := 6;
                  Otpauth.period := 30 |} in
  let a := Sample.vault [Sample.first] in
  let a' := fst (Main.storeEntry Plain.aes_gcm_encrypt 5 [] (repeat Byte.x00 12)
                   [Byte.xab] entry a) in
  exists rec,
    let e := Main.entry_of rec (Otpauth.secretBytes entry) in
    Db.getSecret (Db.generateId [Byte.xab]) (Main.db a') = Some rec
    /\ Main.decryptedCache a' !! Db.generateId [Byte.xab] = Some e
    /\ Main.label e = JS.trim (Otpauth.label entry)
    /\ Main.alg e = Otpauth.algorithm entry
    /\ Main.digits e = Otpauth.digits entry
    /\ Main.period e = Otpauth.period entry
    /\ Main.secretBytes e = Otpauth.secretBytes entry
    /\ Db.listSecrets (Main.db a') = Db.listSecrets (Main.db a) ++ [rec]
    /\ match Main.refreshList Plain.hmac (fun _ => 59000) a with
       | Err err => Main.refreshList Plain.hmac (fun _ => 59000) a' = Err err
       | Ok drawn =>
           Main.refreshList Plain.hmac (fun _ => 59000) a'
           = match Otpauth.secretBytes entry with
             | [] => Err DataError
             | _ :: _ =>
                 Ok (drawn
                     ++ [(e, Main.windowData Plain.hmac
                               ((fun _ => 59000) (length drawn)) e)])
             end
       end.
Proof.
  apply (storeEntry_shown_last Plain.hmac Plain.aes_gcm_encrypt 5 (fun _ => 59000) []
           (repeat Byte.x00 12) [Byte.xab]).
  reflexivity.
Defined.

(** The URI [otpauth://totp/a?secret====] parses to a descriptor whose
    secret has no byte; it is stored, and the list can no longer be
    drawn. *)
Example empty_secret_stops_the_list :
  exists entry a',
    Otpauth.parseOtpauthUri Plain.URL_new Plain.decodeURIComponent
      "otpauth://totp/a?secret====" = Ok entry
    /\ Otpauth.secretBytes entry = []
    /\ Main.storeEntry Plain.aes_gcm_encrypt 5 (repeat Byte.x07 32) (repeat Byte.x00 12)
         [Byte.xab] entry (Main.boot Db.fresh) = (a', Ok ())
    /\ Main.refreshList Plain.hmac (fun _ => 59000) a' = Err DataError.
Proof.
  eexists. eexists. split; [vm_compute; reflexivity |]. split; [reflexivity |].
  split; [vm_compute; reflexivity |]. vm_compute. reflexivity.
Qed.

(** ** From a URI to its codes *)

Lemma plain_cipher_round_trip (key iv pt : list byte) :
  Plain.aes_gcm_decrypt key iv (Plain.aes_gcm_encrypt key iv pt) = Some pt.
Proof.
  unfold Plain.aes_gcm_decrypt, Plain.aes_gcm_encrypt. cbv zeta.
  assert (Ht : length (Plain.tag key) = 16%nat).
  { unfold Plain.tag. rewrite length_take, length_app, repeat_length. lia. }
  rewrite length_app, Ht.
  replace (length pt + 16 - 16)%nat with (length pt) by lia.
  rewrite drop_app_length, take_app_length.
  destruct (decide (16 <= length pt + 16)%nat); [| lia].
  destruct (decide (Plain.tag key = Plain.tag key)); [reflexivity | contradiction].
Qed.

Section Stored.

Variable hmac : list byte -> list byte -> Totp.TOTPHashAlg -> list byte.
Variable aes_gcm_encrypt :
  Crypto.CryptoKey -> list byte -> list byte -> list byte.
Variable aes_gcm_decrypt :
  Crypto.CryptoKey -> list byte -> list byte -> option (list byte).
Variable URL_new : string -> option Otpauth.URL.
Variable decodeURIComponent : string -> option string.

Lemma parsed_fields (uri : string) (e : Otpauth.ParsedTOTPEntry) :
  Otpauth.parseOtpauthUri URL_new decodeURIComponent uri = Ok e ->
  JS.trim (Otpauth.label e) = Otpauth.label e
  /\ (Otpauth.digits e = 6 \/ Otpauth.digits e = 8)
  /\ 5 <= Otpauth.period e <= 300.
Proof.
  unfold Otpauth.parseOtpauthUri. cbv zeta.
  destruct (URL_new (JS.trim uri)) as [url |]; [| discriminate].
  destruct (negb _); [discriminate |]. destruct (negb _); [discriminate |].
  destruct (decodeURIComponent _) as [labelRaw |]; [| discriminate].
  pose proof (splitLabel_shape labelRaw) as (Hl & _ & _).
  destruct (Otpauth.splitLabel labelRaw) as [label issuerFromLabel]. cbn [fst] in Hl.
  destruct (Otpauth.truthy _) as [secretParam |]; [| discriminate].
  destruct (Otpauth.base32DecodeToBytes secretParam) as [bytes | err];
    cbn [mbind result_bind]; [| discriminate].
  intros [= <-]. cbn [Otpauth.label Otpauth.digits Otpauth.period].
  split; [exact Hl |]. split; [apply normalizeDigits_range | apply normalizePeriod_range].
Qed.

(** X24.  From the URI to the codes: when a URI parses and its
    descriptor is stored, with a cipher that decrypts what it
    encrypts, the stored ciphertext decrypts under the session key to
    the secret of the URI, the label of the URI is stored as it is,
    and at every time the window of the cached entry holds as current
    code the code of the secret of the URI for the step of that time,
    with the period, the digits and the algorithm of the descriptor. *)
Theorem stored_uri_codes (uri : string) (entry : Otpauth.ParsedTOTPEntry)
    (now : Z) (rnd iv idrnd : list byte) (a a' : Main.App) :
  (forall k n pt, aes_gcm_decrypt k n (aes_gcm_encrypt k n pt) = Some pt) ->
  Otpauth.parseOtpauthUri URL_new decodeURIComponent uri = Ok entry ->
  Main.storeEntry aes_gcm_encrypt now rnd iv idrnd entry a = (a', Ok ()) ->
  exists key rec e,
    Main.sessionKey a' = Some key
    /\ Db.getSecret (Db.generateId idrnd) (Main.db a') = Some rec
    /\ Crypto.decryptAESGCM aes_gcm_decrypt key (Db.iv rec) (Db.encSecret rec)
       = Ok (Otpauth.secretBytes entry)
    /\ Main.decryptedCache a' !! Db.generateId idrnd = Some e
    /\ Main.label e = Otpauth.label entry
    /\ forall t,
         let w := Main.windowData hmac t e in
         Totp.current w
         = Totp.generateTOTPForStep hmac (Otpauth.secretBytes entry)
             (Totp.stepAt t (Otpauth.period entry)) (Otpauth.digits entry)
             (Otpauth.algorithm entry)
         /\ Totp.w_period w = Otpauth.period entry
         /\ Totp.w_digits w = Otpauth.digits entry
         /\ Totp.w_algorithm w = Otpauth.algorithm entry
         /\ JS.len (Totp.current w) = Otpauth.digits entry.
Proof.
  intros Hcipher Hparse Hstore.
  destruct (parsed_fields uri entry Hparse) as (Hlabel & Hd & Hp).
  destruct (storeEntry_ok _ _ _ _ _ _ _ _ Hstore) as (key & rec & Hk & Hadd & Hcache & _).
  destruct (addSecret_ok _ _ _ _ _ _ Hadd) as (_ & Hrec & Hget & _).
  exists key, rec, (Main.entry_of rec (Otpauth.secretBytes entry)).
  split; [exact Hk |]. split; [exact Hget |].
  split; [rewrite Hrec; cbn [Db.iv Db.encSecret Db.n_iv Db.n_encSecret];
          unfold Crypto.decryptAESGCM;
          rewrite Hcipher; reflexivity |].
  split; [rewrite Hcache; replace (Db.generateId idrnd) with (Db.id rec)
            by (rewrite Hrec; reflexivity); apply lookup_insert_eq |].
  split; [rewrite Hrec; cbn [Main.entry_of Main.label Db.label Db.n_label]; exact Hlabel |].
  intros t. cbv zeta. unfold Main.windowData, Totp.generateTOTPWindow.
  cbn [Totp.period Totp.digits Totp.algorithm Totp.timestamp Totp.secret
       Totp.current Totp.w_period Totp.w_digits Totp.w_algorithm].
  rewrite Hrec.
  cbn [Main.entry_of Main.period Main.digits Main.alg Main.secretBytes
       Db.period Db.digits Db.alg Db.n_period Db.n_digits Db.n_alg].
  rewrite (normalizePeriod_fixed _ Hp), (normalizeDigits_fixed _ Hd), normalizeAlg_fixed.
  repeat (split; [reflexivity |]). apply code_length. exact Hd.
Qed.

Lemma omap_filter {A B} (P : A -> Prop) `{!forall x, Decision (P x)}
    (f : A -> option B) (l : list A) :
  omap f (filter P l) = omap (fun x => if decide (P x) then f x else None) l.
Proof.
  induction l as [| x l IH]; [reflexivity |].
  rewrite filter_cons. cbn [omap list_omap].
  destruct (decide (P x)); [cbn [omap list_omap] |]; rewrite IH; reflexivity.
Qed.

(** X25.  The deletion of an entry takes its record out of the store
    and its entry out of the cache, and touches no other: the other
    ids are found as before in both, and the session key and the
    ticker stay.  When the list is drawn after it, it shows the entries
    that the cache held for the former list, in the same order, without
    the one of that id; it is not drawn when one of those entries has a
    secret of no byte, and [refreshList] then fails with a
    [DataError]. *)
Theorem deleteEntry_outcome (clock : nat -> Z) (key : string) (a : Main.App) :
  let a' := Main.deleteEntry key a in
  let shown :=
    omap (fun r => if String.eqb (Db.id r) key then None
                   else Main.decryptedCache a !! Db.id r)
      (Db.listSecrets (Main.db a)) in
  Db.getSecret key (Main.db a') = None
  /\ Main.decryptedCache a' !! key = None
  /\ (forall k, k <> key ->
        Db.getSecret k (Main.db a') = Db.getSecret k (Main.db a)
        /\ Main.decryptedCache a' !! k = Main.decryptedCache a !! k)
  /\ Main.sessionKey a' = Main.sessionKey a
  /\ Main.tickTimer a' = Main.tickTimer a
  /\ match Main.refreshList hmac clock a' with
     | Ok drawn => map fst drawn = shown
     | Err err =>
         err = DataError /\ exists e, In e shown /\ Main.secretBytes e = []
     end.
Proof.
  cbv zeta. unfold Main.deleteEntry. cbv zeta.
  cbn [Main.set_decryptedCache Main.set_db Main.db Main.decryptedCache Main.sessionKey
       Main.tickTimer].
  unfold Db.deleteSecret, Db.getSecret, Db.set_secrets. cbn [Db.secrets].
  split; [rewrite store_get_delete, String.eqb_refl; reflexivity |].
  split; [apply lookup_delete_eq |]. split.
  { intros k Hk. split.
    - rewrite store_get_delete. destruct (String.eqb_spec key k); [congruence | reflexivity].
    - apply lookup_delete_ne. congruence. }
  split; [reflexivity |]. split; [reflexivity |].
  unfold Main.refreshList. cbv zeta. unfold Db.listSecrets.
  cbn [Main.set_decryptedCache Main.set_db Main.db Main.decryptedCache Db.secrets].
  unfold Db.store_delete. rewrite <- (sort_filter Db.order), omap_filter.
  assert (Hshown :
            omap (fun x => if decide (negb (Db.id x =? key)%string)
                           then delete key (Main.decryptedCache a) !! Db.id x
                           else None)
              (JS.sort (fun a0 b => Db.order a0 - Db.order b) (Db.secrets (Main.db a)))
            = omap (fun r => if String.eqb (Db.id r) key then None
                             else Main.decryptedCache a !! Db.id r)
                (JS.sort (fun a0 b => Db.order a0 - Db.order b) (Db.secrets (Main.db a)))).
  { apply omap_agree. intros r _.
    destruct (String.eqb_spec (Db.id r) key) as [E | E]; cbn [negb].
    - destruct (decide _) as [H | _]; [destruct H | reflexivity].
    - destruct (decide _) as [_ | H]; [| exfalso; apply H; exact I].
      apply lookup_delete_ne. congruence. }
  rewrite Hshown.
  destruct (Main.cards hmac clock 0 _) as [drawn | err] eqn:Hc.
  - exact (cards_fst hmac _ _ _ _ Hc).
  - exact (cards_err hmac _ _ _ _ Hc).
Qed.

End Stored.

Lemma stored_uri_codes_witness :
  let uri := "otpauth://totp/Example:alice?secret=GEZDGNBVGY3TQOJQGEZDGNBVGY3TQOJQ" in
  let a := Main.boot Db.fresh in
  exists entry a',
    Otpauth.parseOtpauthUri Plain.URL_new Plain.decodeURIComponent uri = Ok entry
    /\ Main.storeEntry Plain.aes_gcm_encrypt 5 (repeat Byte.x07 32) (repeat Byte.x00 12)
         [Byte.xab] entry a = (a', Ok ())
    /\ exists key rec e,
         Main.sessionKey a' = Some key
         /\ Db.getSecret (Db.generateId [Byte.xab]) (Main.db a') = Some rec
         /\ Crypto.decryptAESGCM Plain.aes_gcm_decrypt key (Db.iv rec) (Db.encSecret rec)
            = Ok (Otpauth.secretBytes entry)
         /\ Main.decryptedCache a' !! Db.generateId [Byte.xab] = Some e
         /\ Main.label e = Otpauth.label entry
         /\ forall t,
              let w := Main.windowData Plain.hmac t e in
              Totp.current w
              = Totp.generateTOTPForStep Plain.hmac (Otpauth.secretBytes entry)
                  (Totp.stepAt t (Otpauth.period entry)) (Otpauth.digits entry)
                  (Otpauth.algorithm entry)
              /\ Totp.w_period w = Otpauth.period entry
              /\ Totp.w_digits w = Otpauth.digits entry
              /\ Totp.w_algorithm w = Otpauth.algorithm entry
              /\ JS.len (Totp.current w) = Otpauth.digits entry.
Proof.
  cbv zeta. eexists. eexists.
  split; [vm_compute; reflexivity |]. split; [vm_compute; reflexivity |].
  eapply (stored_uri_codes Plain.hmac Plain.aes_gcm_encrypt Plain.aes_gcm_decrypt
            Plain.URL_new Plain.decodeURIComponent
            "otpauth://totp/Example:alice?secret=GEZDGNBVGY3TQOJQGEZDGNBVGY3TQOJQ"
            _ 5 (repeat Byte.x07 32) (repeat Byte.x00 12) [Byte.xab] (Main.boot Db.fresh)).
  - exact plain_cipher_round_trip.
  - vm_compute. reflexivity.
  - vm_compute. reflexivity.
Defined.

(** ** Moving a record up or down *)

Lemma findIndex_middle {A} (p : A -> bool) (pre : list A) (x : A) (rest : list A) :
  (forall z, In z pre -> p z = false) -> p x = true ->
  JS.findIndex p (pre ++ x :: rest) = Some (length pre).
Proof.
  intros Hpre Hx. induction pre as [| z pre IH]; cbn [app JS.findIndex length].
  - rewrite Hx. reflexivity.
  - rewrite (Hpre z) by (left; reflexivity).
    rewrite IH by (intros w Hw; apply Hpre; right; exact Hw). reflexivity.
Qed.

Lemma findIndex_none {A} (p : A -> bool) (l : list A) :
  (forall z, In z l -> p z = false) -> JS.findIndex p l = None.
Proof.
  induction l as [| z l IH]; intros H; [reflexivity |]. cbn [JS.findIndex].
  rewrite (H z) by (left; reflexivity).
  rewrite IH by (intros w Hw; apply H; right; exact Hw). reflexivity.
Qed.

Lemma alter_at {A} (g : A -> A) (pre : list A) (x : A) (rest : list A) (n : nat) :
  n = length pre -> alter g n (pre ++ x :: rest) = pre ++ g x :: rest.
Proof.
  intros ->. induction pre as [| z pre IH]; [reflexivity |]. cbn. f_equal. exact IH.
Qed.

Lemma alter_at_next {A} (g : A -> A) (pre : list A) (x y : A) (rest : list A) (n : nat) :
  n = (length pre + 1)%nat -> alter g n (pre ++ x :: y :: rest) = pre ++ x :: g y :: rest.
Proof.
  intros ->. induction pre as [| z pre IH]; [reflexivity |]. cbn. f_equal. exact IH.
Qed.

Lemma store_put_ids (rec : Db.DBSecretRecord) (s : list Db.DBSecretRecord) :
  Db.key_order s -> Db.store_get (Db.id rec) s <> None ->
  map Db.id (Db.store_put rec s) = map Db.id s.
Proof.
  unfold Db.key_order. induction 1 as [| r s Hs IH Hr]; intros Hget.
  - exfalso. apply Hget. reflexivity.
  - cbn [Db.store_put]. destruct (String.compare (Db.id rec) (Db.id r)) eqn:C.
    + apply String.compare_eq_iff in C. cbn [map]. rewrite C. reflexivity.
    + exfalso. apply Hget. apply store_get_none. intros z [<- | Hz] E.
      * rewrite E, String_compare_refl in C. discriminate C.
      * rewrite Forall_forall in Hr.
        specialize (Hr z (proj2 (list_elem_of_In _ _) Hz)). cbv beta in Hr.
        pose proof (compare_lt_trans _ _ _ C Hr) as Ht.
        rewrite E, String_compare_refl in Ht. discriminate Ht.
    + cbn [map]. f_equal. apply IH. intros Hn. apply Hget. cbn [Db.store_get].
      destruct (String.eqb_spec (Db.id r) (Db.id rec)) as [E |]; [| exact Hn].
      rewrite E, String_compare_refl in C. discriminate C.
Qed.

Lemma reorder_loop_ids (now : nat -> Z) (newOrder : list (string * Z)) :
  forall (i : nat) (s : list Db.DBSecretRecord),
    Db.key_order s -> map Db.id (Db.reorder_loop now i newOrder s) = map Db.id s.
Proof.
  induction newOrder as [| [key o] rest IH]; intros i s Hs; [reflexivity |].
  cbn [Db.reorder_loop]. cbv zeta.
  destruct (Db.store_get key s) as [rec |] eqn:Hg; [| apply IH; exact Hs].
  pose proof (store_get_id _ _ _ Hg) as (Hid & _).
  rewrite IH by (apply store_put_key_order; exact Hs).
  apply store_put_ids; [exact Hs |]. cbn [Db.set_order Db.id]. rewrite Hid, Hg. discriminate.
Qed.

Lemma store_get_in (s : list Db.DBSecretRecord) (r : Db.DBSecretRecord) :
  NoDup (map Db.id s) -> In r s -> Db.store_get (Db.id r) s = Some r.
Proof.
  induction s as [| z s IH]; intros Hnd Hr; [destruct Hr |].
  cbn [map] in Hnd. apply NoDup_cons in Hnd as (Hz & Hnd). cbn [Db.store_get].
  destruct Hr as [-> | Hr]; [rewrite String.eqb_refl; reflexivity |].
  destruct (String.eqb_spec (Db.id z) (Db.id r)) as [E |]; [| exact (IH Hnd Hr)].
  exfalso. apply Hz. rewrite E. apply list_elem_of_In, in_map. exact Hr.
Qed.

(** Two stores with the same ids in the same places: the second is the
    first with each record replaced by the one of its id. *)
Lemma same_ids_map (s : list Db.DBSecretRecord) :
  forall s' : list Db.DBSecretRecord,
    NoDup (map Db.id s) -> map Db.id s' = map Db.id s ->
    s' = map (fun r => default r (Db.store_get (Db.id r) s')) s.
Proof.
  induction s as [| r s IH]; intros [| r' s'] Hnd Hids; try discriminate Hids.
  - reflexivity.
  - cbn [map] in Hnd, Hids. injection Hids as Hr Hids.
    apply NoDup_cons in Hnd as (Hnotin & Hnd).
    cbn [map Db.store_get]. rewrite Hr, String.eqb_refl. cbn [default]. f_equal.
    rewrite (IH s' Hnd Hids) at 1. apply map_ext_in. intros z Hz.
    destruct (String.eqb_spec (Db.id r) (Db.id z)) as [E |]; [| reflexivity].
    exfalso. apply Hnotin. rewrite E. apply list_elem_of_In, in_map. exact Hz.
Qed.

Section Unique.

Context {A : Type} (key : A -> Z).

Lemma sorted_unique (T : list A) :
  forall L : list A,
    StronglySorted (fun a b => key a < key b) T ->
    StronglySorted (fun a b => key a <= key b) L ->
    Permutation L T -> L = T.
Proof.
  induction T as [| t T IH]; intros L HT HL Hp.
  - apply Permutation_nil. symmetry. exact Hp.
  - destruct L as [| h L]; [apply Permutation_nil in Hp; discriminate Hp |].
    apply StronglySorted_inv in HT as (HT & Ht).
    apply StronglySorted_inv in HL as (HL & Hh).
    rewrite Forall_forall in Ht, Hh.
    assert (E : h = t).
    { assert (Hin : In h (t :: T)) by (eapply Permutation_in; [exact Hp | left; reflexivity]).
      destruct Hin as [E | Hin]; [symmetry; exact E |].
      assert (Hin' : In t (h :: L))
        by (eapply Permutation_in; [symmetry; exact Hp | left; reflexivity]).
      destruct Hin' as [E | Hin']; [exact E |].
      specialize (Ht h (proj2 (list_elem_of_In _ _) Hin)).
      specialize (Hh t (proj2 (list_elem_of_In _ _) Hin')).
      cbv beta in Ht, Hh. lia. }
    subst h. f_equal. apply IH; [exact HT | exact HL |].
    eapply Permutation_cons_inv. exact Hp.
Qed.

(** A list with distinct keys has one sorted arrangement. *)
Lemma sort_unique (l T : list A) :
  Permutation l T -> StronglySorted (fun a b => key a < key b) T ->
  JS.sort (fun a b => key a - key b) l = T.
Proof.
  intros Hp HT. apply sorted_unique; [exact HT | apply (sort_sorted key) |].
  etransitivity; [symmetry; apply sort_perm | exact Hp].
Qed.

Lemma Forall_same_keys (P : Z -> Prop) (l : list A) :
  forall l' : list A,
    map key l = map key l' ->
    Forall (fun z => P (key z)) l -> Forall (fun z => P (key z)) l'.
Proof.
  induction l as [| a l IH]; intros [| a' l'] Hk Hl; try discriminate Hk; [constructor |].
  injection Hk as Ha Hk. apply Forall_cons in Hl as (Hpa & Hl).
  constructor; [rewrite <- Ha; exact Hpa | exact (IH l' Hk Hl)].
Qed.

Lemma sorted_same_keys (l : list A) :
  forall l' : list A,
    map key l = map key l' ->
    StronglySorted (fun a b => key a < key b) l ->
    StronglySorted (fun a b => key a < key b) l'.
Proof.
  induction l as [| a l IH]; intros [| a' l'] Hk Hl; try discriminate Hk; [constructor |].
  injection Hk as Ha Hk. apply StronglySorted_inv in Hl as (Hl & Hal).
  constructor; [exact (IH l' Hk Hl) |].
  rewrite <- Ha. exact (Forall_same_keys (fun k => key a < k) l l' Hk Hal).
Qed.

End Unique.

Lemma reorder_get_in (now : nat -> Z) (newOrder : list (string * Z))
    (s : list Db.DBSecretRecord) (k : string) (o : Z) :
  NoDup (map fst newOrder) -> In (k, o) newOrder ->
  exists t,
    Db.store_get k (Db.reorder_loop now 0 newOrder s)
    = (fun rec => Db.set_order rec o t) <$> Db.store_get k s.
Proof.
  intros Hnd Hin. apply list_elem_of_In, list_elem_of_lookup in Hin as (j & Hj).
  exists (now j). exact (reorder_loop_named now newOrder k o j 0 s Hnd Hj).
Qed.

(** The batch that [moveSecret] hands over when it exchanges the
    records of index [length pre] and the next. *)
Lemma swapped_batch (pre : list Db.DBSecretRecord) (x y : Db.DBSecretRecord)
    (post : list Db.DBSecretRecord) :
  let f := fun r => (Db.id r, Db.order r) in
  let newOrder := map f (pre ++ x :: y :: post) in
  let batch := map f pre ++ (Db.id x, Db.order y) :: (Db.id y, Db.order x) :: map f post in
  alter (fun p => (fst p, default 0 (snd <$> newOrder !! length pre)))
    (length pre + 1)%nat
    (alter (fun p => (fst p, default 0 (snd <$> newOrder !! (length pre + 1)%nat)))
       (length pre) newOrder) = batch
  /\ alter (fun p => (fst p, default 0 (snd <$> newOrder !! (length pre + 1)%nat)))
       (length pre + 1 - 1)%nat
       (alter (fun p => (fst p, default 0 (snd <$> newOrder !! (length pre + 1 - 1)%nat)))
          (length pre + 1)%nat newOrder) = batch.
Proof.
  intros f newOrder batch. subst newOrder batch. rewrite map_app.
  change (map f (x :: y :: post)) with (f x :: f y :: map f post).
  assert (Hn : length (map f pre) = length pre) by apply length_map.
  assert (Hn1 : length (map f pre ++ [f x]) = (length pre + 1)%nat)
    by (rewrite length_app, Hn; reflexivity).
  assert (H0 : (map f pre ++ f x :: f y :: map f post) !! length pre = Some (f x))
    by (apply list_lookup_middle; symmetry; exact Hn).
  assert (H1 : (map f pre ++ f x :: f y :: map f post) !! (length pre + 1)%nat = Some (f y)).
  { change (map f pre ++ f x :: f y :: map f post)
      with (map f pre ++ [f x] ++ f y :: map f post).
    rewrite app_assoc. apply list_lookup_middle. symmetry. exact Hn1. }
  replace (length pre + 1 - 1)%nat with (length pre) by lia.
  rewrite H0, H1. cbn [fmap option_fmap option_map default].
  change (snd (f x)) with (Db.order x). change (snd (f y)) with (Db.order y).
  split.
  - rewrite (alter_at _ (map f pre) (f x) _ (length pre)) by (symmetry; exact Hn).
    rewrite (alter_at_next _ (map f pre) _ (f y) _ (length pre + 1)) by (rewrite Hn; reflexivity).
    reflexivity.
  - rewrite (alter_at_next _ (map f pre) (f x) (f y) _ (length pre + 1))
      by (rewrite Hn; reflexivity).
    rewrite (alter_at _ (map f pre) (f x) _ (length pre)) by (symmetry; exact Hn).
    reflexivity.
Qed.

Section Move.

Variable now : nat -> Z.

(** What [reorderSecrets] makes of the batch that exchanges the orders
    of two neighbours [x] and [y] of the list. *)
Lemma exchange_outcome (d : Db.DB) (pre : list Db.DBSecretRecord)
    (x y : Db.DBSecretRecord) (post : list Db.DBSecretRecord) :
  Db.key_order (Db.secrets d) ->
  Db.listSecrets d = pre ++ x :: y :: post ->
  StronglySorted (fun r s => Db.order r < Db.order s) (Db.listSecrets d) ->
  let f := fun r => (Db.id r, Db.order r) in
  let batch := map f pre ++ (Db.id x, Db.order y) :: (Db.id y, Db.order x) :: map f post in
  let d' := Db.reorderSecrets now batch d in
  map Db.id (Db.listSecrets d') = map Db.id (pre ++ y :: x :: post)
  /\ map Db.order (Db.listSecrets d') = map Db.order (Db.listSecrets d)
  /\ (forall k r, Db.getSecret k d = Some r ->
        exists o t, Db.getSecret k d' = Some (Db.set_order r o t))
  /\ Db.meta d' = Db.meta d.
Proof.
  intros Hko HL Hsorted f batch d'.
  pose proof (sort_perm (fun a b => Db.order a - Db.order b) (Db.secrets d)) as Hperm.
  fold (Db.listSecrets d) in Hperm. rewrite HL in Hperm, Hsorted.
  set (L := pre ++ x :: y :: post) in *.
  pose proof (key_order_NoDup _ Hko) as HndS.
  assert (HndL : NoDup (map Db.id L))
    by (rewrite <- (Permutation_map Db.id Hperm); exact HndS).
  assert (Hfst : map fst batch = map Db.id L).
  { subst batch L. rewrite !map_app. cbn [map fst]. rewrite !map_map. reflexivity. }
  assert (HndB : NoDup (map fst batch)) by (rewrite Hfst; exact HndL).
  set (s' := Db.reorder_loop now 0 batch (Db.secrets d)).
  assert (Hd' : d' = Db.set_secrets d s').
  { subst d' s'. unfold Db.reorderSecrets. destruct batch eqn:E; [| reflexivity].
    exfalso. subst batch. destruct (map f pre); discriminate E. }
  pose proof (reorder_loop_ids now batch 0 _ Hko) as Hids. fold s' in Hids.
  pose proof (same_ids_map (Db.secrets d) s' HndS Hids) as Hmap.
  set (upd := fun r => default r (Db.store_get (Db.id r) s')) in Hmap.
  assert (Hin : forall r, In r L -> Db.store_get (Db.id r) (Db.secrets d) = Some r).
  { intros r Hr. apply store_get_in; [exact HndS |].
    eapply Permutation_in; [symmetry; exact Hperm | exact Hr]. }
  assert (Hget : forall r o, In r L -> In (Db.id r, o) batch ->
                   exists t, Db.store_get (Db.id r) s' = Some (Db.set_order r o t)).
  { intros r o Hr Hb.
    destruct (reorder_get_in now batch (Db.secrets d) _ _ HndB Hb) as (t & Ht).
    exists t. fold s' in Ht. rewrite Ht, (Hin r Hr). reflexivity. }
  assert (Hord : forall r o, In r L -> In (Db.id r, o) batch -> Db.order (upd r) = o).
  { intros r o Hr Hb. destruct (Hget r o Hr Hb) as (t & Ht).
    unfold upd. rewrite Ht. reflexivity. }
  assert (Hupd_id : forall r, Db.id (upd r) = Db.id r).
  { intros r. unfold upd. destruct (Db.store_get (Db.id r) s') as [r' |] eqn:E;
      [exact (proj1 (store_get_id _ _ _ E)) | reflexivity]. }
  set (T := map upd (pre ++ y :: x :: post)).
  assert (HpermT : Permutation s' T).
  { rewrite Hmap. transitivity (map upd L); [apply Permutation_map; exact Hperm |].
    subst L T. rewrite !map_app. apply Permutation_app_head. cbn [map]. apply perm_swap. }
  assert (Hpre : forall r, In r pre -> In r L /\ In (Db.id r, Db.order r) batch).
  { intros r Hr. split; [apply in_or_app; left; exact Hr |].
    apply in_or_app. left. apply (in_map f). exact Hr. }
  assert (Hpost : forall r, In r post -> In r L /\ In (Db.id r, Db.order r) batch).
  { intros r Hr. split; [apply in_or_app; right; right; right; exact Hr |].
    apply in_or_app. right. right. right. apply (in_map f). exact Hr. }
  assert (Hx : In x L /\ In (Db.id x, Db.order y) batch).
  { split; apply in_or_app; right; left; reflexivity. }
  assert (Hy : In y L /\ In (Db.id y, Db.order x) batch).
  { split; apply in_or_app; right; right; left; reflexivity. }
  assert (Horders : map Db.order T = map Db.order L).
  { subst T L. rewrite !map_app. cbn [map]. rewrite !map_map.
    rewrite (Hord y _ (proj1 Hy) (proj2 Hy)), (Hord x _ (proj1 Hx) (proj2 Hx)).
    f_equal; [| f_equal; f_equal]; apply map_ext_in; intros r Hr;
      [destruct (Hpre r Hr) as (H1 & H2) | destruct (Hpost r Hr) as (H1 & H2)];
      exact (Hord r _ H1 H2). }
  assert (HsortedT : StronglySorted (fun a b => Db.order a < Db.order b) T)
    by (apply (sorted_same_keys Db.order L T); [symmetry; exact Horders | exact Hsorted]).
  assert (Hlist : Db.listSecrets d' = T).
  { rewrite Hd'. unfold Db.listSecrets, Db.set_secrets. cbn [Db.secrets].
    apply (sort_unique Db.order); assumption. }
  split; [| split; [| split]].
  - rewrite Hlist. subst T. rewrite map_map. apply map_ext. exact Hupd_id.
  - rewrite Hlist, HL. exact Horders.
  - intros k r Hk. unfold Db.getSecret in *.
    destruct (store_get_id _ _ _ Hk) as (<- & Hr).
    assert (HrL : In r L) by (eapply Permutation_in; [exact Hperm | exact Hr]).
    assert (Hb : In (Db.id r) (map fst batch)) by (rewrite Hfst; apply in_map; exact HrL).
    apply in_map_iff in Hb as ([k o] & Hko' & Hb). cbn [fst] in Hko'. subst k.
    destruct (Hget r o HrL Hb) as (t & Ht). exists o, t.
    rewrite Hd'. cbn [Db.set_secrets Db.secrets]. exact Ht.
  - rewrite Hd'. reflexivity.
Qed.

(** X26.  When the listed records have distinct orders, the button
    Down on a record, like the button Up on the record after it,
    exchanges the two in the list: the ids of the list are the former
    ones with the two neighbours exchanged, the orders of the list are
    the former ones in the same places, every record keeps its other
    fields but the update time, and the store [meta] is untouched. *)
Theorem moveSecret_swaps (d : Db.DB) (pre : list Db.DBSecretRecord)
    (x y : Db.DBSecretRecord) (post : list Db.DBSecretRecord) :
  Db.key_order (Db.secrets d) ->
  Db.listSecrets d = pre ++ x :: y :: post ->
  StronglySorted (fun r s => Db.order r < Db.order s) (Db.listSecrets d) ->
  let d' := Main.moveSecret now (Db.id x) Main.down d in
  Main.moveSecret now (Db.id y) Main.up d = d'
  /\ map Db.id (Db.listSecrets d') = map Db.id (pre ++ y :: x :: post)
  /\ map Db.order (Db.listSecrets d') = map Db.order (Db.listSecrets d)
  /\ (forall k r, Db.getSecret k d = Some r ->
        exists o t, Db.getSecret k d' = Some (Db.set_order r o t))
  /\ Db.meta d' = Db.meta d.
Proof.
  intros Hko HL Hsorted.
  pose proof (sort_perm (fun a b => Db.order a - Db.order b) (Db.secrets d)) as Hperm.
  fold (Db.listSecrets d) in Hperm.
  assert (Hnd : NoDup (map Db.id (pre ++ x :: y :: post))).
  { rewrite <- HL, <- (Permutation_map Db.id Hperm). apply key_order_NoDup. exact Hko. }
  rewrite map_app in Hnd. cbn [map] in Hnd.
  apply NoDup_app in Hnd as (_ & Hdisj & Hnd).
  apply NoDup_cons in Hnd as (Hxy & _).
  assert (Hprex : forall z, In z pre -> String.eqb (Db.id z) (Db.id x) = false).
  { intros z Hz. destruct (String.eqb_spec (Db.id z) (Db.id x)) as [E |]; [| reflexivity].
    exfalso. apply (Hdisj (Db.id z)); [apply list_elem_of_In, in_map; exact Hz |].
    rewrite E. left. }
  assert (Hprey : forall z, In z (pre ++ [x]) -> String.eqb (Db.id z) (Db.id y) = false).
  { intros z Hz. destruct (String.eqb_spec (Db.id z) (Db.id y)) as [E |]; [| reflexivity].
    exfalso. apply in_app_or in Hz as [Hz | [<- | []]].
    - apply (Hdisj (Db.id z)); [apply list_elem_of_In, in_map; exact Hz |].
      rewrite E. right. left.
    - apply Hxy. rewrite E. left. }
  pose proof (swapped_batch pre x y post) as (Hdown & Hup). cbv zeta in Hdown, Hup.
  assert (Edown : Main.moveSecret now (Db.id x) Main.down d
                  = Db.reorderSecrets now
                      (map (fun r => (Db.id r, Db.order r)) pre
                       ++ (Db.id x, Db.order y) :: (Db.id y, Db.order x)
                          :: map (fun r => (Db.id r, Db.order r)) post) d).
  { unfold Main.moveSecret. cbv zeta. rewrite HL.
    rewrite (findIndex_middle _ pre x (y :: post) Hprex (String.eqb_refl _)).
    assert (Hlast : (length pre =? length (pre ++ x :: y :: post) - 1)%nat = false)
      by (apply Nat.eqb_neq; rewrite length_app; cbn [length]; lia).
    rewrite Hlast, Hdown. reflexivity. }
  assert (Eup : Main.moveSecret now (Db.id y) Main.up d
                = Db.reorderSecrets now
                    (map (fun r => (Db.id r, Db.order r)) pre
                     ++ (Db.id x, Db.order y) :: (Db.id y, Db.order x)
                        :: map (fun r => (Db.id r, Db.order r)) post) d).
  { unfold Main.moveSecret. cbv zeta. rewrite HL.
    change (pre ++ x :: y :: post) with (pre ++ [x] ++ y :: post) at 1.
    rewrite app_assoc.
    rewrite (findIndex_middle _ (pre ++ [x]) y post Hprey (String.eqb_refl _)).
    replace (length (pre ++ [x])) with (length pre + 1)%nat
      by (rewrite length_app; reflexivity).
    destruct (length pre + 1)%nat as [| n] eqn:En; [lia |].
    rewrite Hup. reflexivity. }
  cbv zeta. rewrite Eup, Edown. split; [reflexivity |].
  exact (exchange_outcome d pre x y post Hko HL Hsorted).
Qed.

(** X27.  The buttons do nothing at the ends of the list and on an id
    that the list does not hold: Up on the first record, Down on the
    last one and either on an unknown id leave the database as it
    is. *)
Theorem moveSecret_at_the_ends (d : Db.DB) (first last : Db.DBSecretRecord)
    (rest front : list Db.DBSecretRecord) :
  Db.key_order (Db.secrets d) ->
  Db.listSecrets d = first :: rest ->
  Db.listSecrets d = front ++ [last] ->
  Main.moveSecret now (Db.id first) Main.up d = d
  /\ Main.moveSecret now (Db.id last) Main.down d = d
  /\ forall key dir,
       Db.getSecret key d = None -> Main.moveSecret now key dir d = d.
Proof.
  intros Hko Hfirst Hlast.
  pose proof (sort_perm (fun a b => Db.order a - Db.order b) (Db.secrets d)) as Hperm.
  fold (Db.listSecrets d) in Hperm.
  assert (Hnd : NoDup (map Db.id (Db.listSecrets d))).
  { rewrite <- (Permutation_map Db.id Hperm). apply key_order_NoDup. exact Hko. }
  split; [| split].
  - unfold Main.moveSecret. cbv zeta. rewrite Hfirst. cbn [JS.findIndex].
    rewrite String.eqb_refl. reflexivity.
  - unfold Main.moveSecret. cbv zeta. rewrite Hlast.
    rewrite Hlast, map_app in Hnd. apply NoDup_app in Hnd as (_ & Hdisj & _).
    rewrite findIndex_middle; [| | apply String.eqb_refl].
    + rewrite length_app. cbn [length].
      replace (length front + 1 - 1)%nat with (length front) by lia.
      rewrite Nat.eqb_refl. reflexivity.
    + intros z Hz. destruct (String.eqb_spec (Db.id z) (Db.id last)) as [E |];
        [| reflexivity].
      exfalso. apply (Hdisj (Db.id z)); [apply list_elem_of_In, in_map; exact Hz |].
      rewrite E. left.
  - intros key dir Hkey. unfold Main.moveSecret. cbv zeta.
    rewrite findIndex_none; [reflexivity |].
    intros z Hz. destruct (String.eqb_spec (Db.id z) key) as [E |]; [| reflexivity].
    exfalso. unfold Db.getSecret in Hkey.
    apply (proj1 (store_get_none _ _) Hkey z); [| exact E].
    eapply Permutation_in; [symmetry; exact Hperm | exact Hz].
Qed.

End Move.

Lemma moveSecret_swaps_witness :
  let d := {| Db.secrets := [Sample.first; Sample.bad; Sample.last]; Db.meta := ∅ |} in
  let d' := Main.moveSecret (fun _ => 7) (Db.id Sample.bad) Main.down d in
  Main.moveSecret (fun _ => 7) (Db.id Sample.last) Main.up d = d'
  /\ map Db.id (Db.listSecrets d')
     = map Db.id ([Sample.first] ++ Sample.last :: Sample.bad :: [])
  /\ map Db.order (Db.listSecrets d') = map Db.order (Db.listSecrets d)
  /\ (forall k r, Db.getSecret k d = Some r ->
        exists o t, Db.getSecret k d' = Some (Db.set_order r o t))
  /\ Db.meta d' = Db.meta d.
Proof.
  apply (moveSecret_swaps (fun _ => 7)
           {| Db.secrets := [Sample.first; Sample.bad; Sample.last]; Db.meta := ∅ |}
           [Sample.first] Sample.bad Sample.last []).
  - repeat constructor.
  - reflexivity.
  - vm_compute. repeat constructor.
Defined.

Lemma moveSecret_at_the_ends_witness :
  let d := {| Db.secrets := [Sample.first; Sample.bad; Sample.last]; Db.meta := ∅ |} in
  Main.moveSecret (fun _ => 7) (Db.id Sample.first) Main.up d = d
  /\ Main.moveSecret (fun _ => 7) (Db.id Sample.last) Main.down d = d
  /\ forall key dir,
       Db.getSecret key d = None -> Main.moveSecret (fun _ => 7) key dir d = d.
Proof.
  apply (moveSecret_at_the_ends (fun _ => 7)
           {| Db.secrets := [Sample.first; Sample.bad; Sample.last]; Db.meta := ∅ |}
           Sample.first Sample.last [Sample.bad; Sample.last] [Sample.first; Sample.bad]).
  - repeat constructor.
  - reflexivity.
  - reflexivity.
Defined.

Example moveSecret_down_then_list :
  map Db.id
    (Db.listSecrets
       (Main.moveSecret (fun _ => 7) "00" Main.down
          {| Db.secrets := [Sample.first; Sample.bad; Sample.last]; Db.meta := ∅ |}))
  = ["01"; "00"; "02"].
Proof. reflexivity. Qed.

(** ** The descriptor of a manual entry *)

(** X28.  [fromManualInput] fails exactly when the decoder fails on
    the secret, with the error of the decoder, which names a character
    that is no Base32 symbol.  Otherwise it returns a descriptor with
    the decoded secret, a trimmed label, an issuer that is trimmed and
    not empty when there is one, 6 or 8 digits and a period of
    [5, 300].  An empty secret text is not refused: it gives a
    descriptor whose secret has no byte. *)
Theorem fromManualInput_outcome (label : string) (issuer : option string)
    (secretBase32 : string) (algorithmInput : option string)
    (digitsInput periodInput : option JS.number) :
  match Otpauth.base32DecodeToBytes secretBase32 with
  | Err err =>
      Otpauth.fromManualInput label issuer secretBase32 algorithmInput
        digitsInput periodInput = Err err
      /\ exists ch, err = Otpauth.invalid_character ch /\ Otpauth.lookup !! ch = None
  | Ok bytes =>
      exists e,
        Otpauth.fromManualInput label issuer secretBase32 algorithmInput
          digitsInput periodInput = Ok e
        /\ Otpauth.secretBytes e = bytes
        /\ Otpauth.label e = JS.trim label
        /\ JS.trim (Otpauth.label e) = Otpauth.label e
        /\ (forall i, Otpauth.issuer e = Some i -> i <> EmptyString /\ JS.trim i = i)
        /\ (Otpauth.digits e = 6 \/ Otpauth.digits e = 8)
        /\ 5 <= Otpauth.period e <= 300
  end
  /\ exists e,
       Otpauth.fromManualInput label issuer EmptyString algorithmInput
         digitsInput periodInput = Ok e
       /\ Otpauth.secretBytes e = [].
Proof.
  split; [| eexists; split; reflexivity].
  unfold Otpauth.fromManualInput. cbv zeta.
  destruct (Otpauth.base32DecodeToBytes secretBase32) as [bytes | err] eqn:Hb;
    cbn [mbind result_bind].
  - eexists. split; [reflexivity |].
    cbn [Otpauth.secretBytes Otpauth.label Otpauth.issuer Otpauth.digits Otpauth.period].
    split; [reflexivity |]. split; [reflexivity |]. split; [apply trim_idem |].
    split; [| split; [apply normalizeDigits_range | apply normalizePeriod_range]].
    intros i Hi. apply truthy_some in Hi as (Hi & Hne). split; [exact Hne |].
    destruct issuer as [s |]; [| discriminate Hi]. injection Hi as <-. apply trim_idem.
  - split; [reflexivity |]. exact (base32_error _ _ Hb).
Qed.
